(** * Session lifecycle of the guessing-game server (src/server.js)

    A shallow embedding of the socket.io server: the in-memory [sessions]
    store, the per-socket properties the handlers read and write, the rooms
    of the socket.io adapter, the pending round timers, and one function per
    handler, each returning the new server state together with the messages
    it emitted, in order.

    Modelling conventions.
    - Strings are sequences of ASCII characters (code units below 128).
      On these [trim] strips the characters 9 to 13 and 32 and
      [toLowerCase] folds the letters A-Z, as the JS methods do. Strings
      with other characters are outside the model: on them the JS methods
      strip and fold more, and [toLowerCase] may change the length.
    - [sessions] is a plain JS object used as a dictionary: a finite map
      for its own properties, together with [inherited] for the names under
      which a lookup finds a built-in of [Object.prototype] when there is
      no own property. Each lookup says what the code does with such a
      built-in: a duplicate-id error, a Game Master error, or a TypeError.
    - [session.players] is a JS [Map]: an association list in insertion
      order.
    - A socket is named by its [socket.id]. A payload field is [None] when
      the client left it out or sent a falsy value, and otherwise the
      string its [toString()] returns; a field whose [toString] is not a
      function is outside the model. An intent sent with no payload at all
      is the event [ev_no_payload].
    - A timer armed by [setTimeout] is a handle in the set of pending
      timers until it fires or [clearTimeout] removes it.
    - The source catches no exception: a handler that throws ends the Node
      process. Its result here is the state and the messages up to the
      throw, closed by [uncaught], and [run] stops there.
    - [console.log] has no effect on the state and is left out.
    - The helper [joinSession], which no handler calls, is modelled beside
      the handlers and is not an event of [handle]. *)

From Stdlib Require Import ZArith Lia Ascii String.
From stdpp Require Import base option list strings gmap pretty.

Local Open Scope string_scope.
Local Open Scope Z_scope.
Local Open Scope list_scope.

(** ** JavaScript strings *)

Definition truthy (s : string) : bool :=
  match s with
  | EmptyString => false
  | String _ _ => true
  end.

(** [a || d] for an optional string [a]. *)
Definition js_or (a : option string) (d : string) : string :=
  match a with
  | Some s => if truthy s then s else d
  | None => d
  end.

(** [a || b] where both may be null. *)
Definition js_or_null (a b : option string) : option string :=
  match a with
  | Some s => if truthy s then Some s else b
  | None => b
  end.

Definition truthy_opt (a : option string) : bool :=
  match a with
  | Some s => truthy s
  | None => false
  end.

Definition is_space (c : ascii) : bool :=
  let n := nat_of_ascii c in
  (Nat.leb 9 n && Nat.leb n 13) || Nat.eqb n 32.

Fixpoint trim_start (l : list ascii) : list ascii :=
  match l with
  | c :: l' => if is_space c then trim_start l' else l
  | [] => []
  end.

Definition trim (s : string) : string :=
  string_of_list_ascii
    (rev (trim_start (rev (trim_start (list_ascii_of_string s))))).

Definition lower_char (c : ascii) : ascii :=
  let n := nat_of_ascii c in
  if Nat.leb 65 n && Nat.leb n 90 then ascii_of_nat (n + 32) else c.

Fixpoint toLowerCase (s : string) : string :=
  match s with
  | EmptyString => EmptyString
  | String c s' => String (lower_char c) (toLowerCase s')
  end.

(** [s.slice(0, n)] *)
Definition slice0 (n : nat) (s : string) : string := substring 0 n s.

(** The character 34, used inside the guess narration. *)
Definition dquote : string := String (ascii_of_nat 34) EmptyString.

(** ** JavaScript [Map] with string keys, in insertion order *)

Section JSMap.
Context {V : Type}.

Fixpoint Map_get (k : string) (m : list (string * V)) : option V :=
  match m with
  | [] => None
  | (k', v) :: m' => if String.eqb k k' then Some v else Map_get k m'
  end.

(** [m.set(k, v)]: an existing key keeps its position, a new one is
    appended. *)
Fixpoint Map_set (k : string) (v : V) (m : list (string * V))
  : list (string * V) :=
  match m with
  | [] => [(k, v)]
  | (k', v') :: m' =>
      if String.eqb k k' then (k', v) :: m' else (k', v') :: Map_set k v m'
  end.

Fixpoint Map_delete (k : string) (m : list (string * V))
  : list (string * V) :=
  match m with
  | [] => []
  | (k', v') :: m' =>
      if String.eqb k k' then Map_delete k m' else (k', v') :: Map_delete k m'
  end.

Definition Map_keys (m : list (string * V)) : list string := m.*1.

(** [m.forEach(v => mutate v)] for a mutation [f] of the stored object. *)
Definition Map_forEach (f : V → V) (m : list (string * V))
  : list (string * V) :=
  prod_map id f <$> m.
End JSMap.

(** [ids.indexOf(x)], -1 when absent. *)
Fixpoint indexOf (ids : list string) (x : string) : Z :=
  match ids with
  | [] => -1
  | y :: ids' =>
      if String.eqb y x then 0
      else let i := indexOf ids' x in if Z.ltb i 0 then -1 else i + 1
  end.

(** ** Data model *)

Module Player.
Record t := mk {
  id : string;
  name : string;
  score : Z;
  attemptsLeft : Z
}.
Definition set_score (f : Z → Z) (p : t) : t :=
  mk (id p) (name p) (f (score p)) (attemptsLeft p).
Definition set_attemptsLeft (f : Z → Z) (p : t) : t :=
  mk (id p) (name p) (score p) (f (attemptsLeft p)).
End Player.

Module Session.
Record t := mk {
  id : string;
  players : list (string * Player.t);
  gm : string;
  question : option string;
  answer : option string;
  answerOriginal : option string;
  inProgress : bool;
  timer : option nat;
  winner : option string
}.
Definition set_players (f : list (string * Player.t) → list (string * Player.t))
    (s : t) : t :=
  mk (id s) (f (players s)) (gm s) (question s) (answer s)
     (answerOriginal s) (inProgress s) (timer s) (winner s).
Definition set_gm (g : string) (s : t) : t :=
  mk (id s) (players s) g (question s) (answer s)
     (answerOriginal s) (inProgress s) (timer s) (winner s).
Definition set_qa (q a ao : option string) (s : t) : t :=
  mk (id s) (players s) (gm s) q a ao (inProgress s) (timer s) (winner s).
Definition set_inProgress (b : bool) (s : t) : t :=
  mk (id s) (players s) (gm s) (question s) (answer s)
     (answerOriginal s) b (timer s) (winner s).
Definition set_timer (h : option nat) (s : t) : t :=
  mk (id s) (players s) (gm s) (question s) (answer s)
     (answerOriginal s) (inProgress s) h (winner s).
Definition set_winner (w : option string) (s : t) : t :=
  mk (id s) (players s) (gm s) (question s) (answer s)
     (answerOriginal s) (inProgress s) (timer s) w.
End Session.

(** The server: the [sessions] store, the [sessionId] and [playerName]
    properties the handlers put on each socket (a key is present exactly
    when the property is), the rooms of the adapter, and the timers armed
    by [setTimeout] that have neither fired nor been cleared. *)
Record Server := mkServer {
  sessions : gmap string Session.t;
  socket_sessionId : gmap string string;
  socket_playerName : gmap string string;
  rooms : gmap string (gset string);
  timers : gmap nat string;
  next_timer : nat
}.

Definition set_sessions (f : gmap string Session.t → gmap string Session.t)
    (σ : Server) : Server :=
  mkServer (f (sessions σ)) (socket_sessionId σ) (socket_playerName σ)
           (rooms σ) (timers σ) (next_timer σ).
Definition set_socket_sessionId (f : gmap string string → gmap string string)
    (σ : Server) : Server :=
  mkServer (sessions σ) (f (socket_sessionId σ)) (socket_playerName σ)
           (rooms σ) (timers σ) (next_timer σ).
Definition set_socket_playerName (f : gmap string string → gmap string string)
    (σ : Server) : Server :=
  mkServer (sessions σ) (socket_sessionId σ) (f (socket_playerName σ))
           (rooms σ) (timers σ) (next_timer σ).
Definition set_rooms (f : gmap string (gset string) → gmap string (gset string))
    (σ : Server) : Server :=
  mkServer (sessions σ) (socket_sessionId σ) (socket_playerName σ)
           (f (rooms σ)) (timers σ) (next_timer σ).
Definition set_timers (f : gmap nat string → gmap nat string)
    (σ : Server) : Server :=
  mkServer (sessions σ) (socket_sessionId σ) (socket_playerName σ)
           (rooms σ) (f (timers σ)) (next_timer σ).

Definition init : Server := mkServer ∅ ∅ ∅ ∅ ∅ 0.

(** ** Messages *)

Record PlayerView := mkPlayerView {
  pv_id : string;
  pv_name : string;
  pv_score : Z;
  pv_attemptsLeft : Z;
  pv_isGM : bool
}.

Record SessionView := mkSessionView {
  sv_sessionId : string;
  sv_players : list PlayerView;
  sv_gm : string;
  sv_inProgress : bool;
  sv_question : option string;
  sv_winner : option string
}.

Inductive Message :=
  | session_state (v : SessionView)
  | system_message (text : string)
  | error_message (text : string)
  | session_created (sessionId gm : string)
  | left_session (sessionId : string)
  | game_started (question : option string) (duration : Z)
  | game_ended (reason : string) (winner : option (string * option string))
               (answer : option string).

(** What a handler does towards the outside, in order. [socket.emit]
    reaches one socket; [io.to(room).emit] reaches the sockets that are in
    the room when the call is made; an exception is caught nowhere in the
    source: it ends the handler, and the Node process with it. *)
Inductive Emit :=
  | to_socket (sock : string) (m : Message)
  | to_room (room : string) (members : gset string) (m : Message)
  | uncaught (error : string).

Definition is_uncaught (e : Emit) : bool :=
  match e with
  | uncaught _ => true
  | _ => false
  end.

(** The handler that did [o] ended in an exception. *)
Definition thrown (o : list Emit) : bool := existsb is_uncaught o.

(** Reading a property of [undefined]. *)
Definition TypeError : Emit := uncaught "TypeError".

(** ** The [sessions] object *)

(** [sessions] is a plain object: where it has no own property [k], the
    lookup [sessions[k]] goes on to [Object.prototype] and finds a built-in
    function or object under each of these names (those of Node.js). All
    of them are truthy, and none has a property named like a field of a
    session. *)
Definition Object_prototype_names : list string :=
  ["constructor"; "__defineGetter__"; "__defineSetter__"; "hasOwnProperty";
   "__lookupGetter__"; "__lookupSetter__"; "isPrototypeOf";
   "propertyIsEnumerable"; "toString"; "valueOf"; "__proto__";
   "toLocaleString"].

Definition inherited (k : string) : bool :=
  existsb (String.eqb k) Object_prototype_names.

Definition members (σ : Server) (room : string) : gset string :=
  default ∅ (rooms σ !! room).

Definition io_to (σ : Server) (room : string) (m : Message) : Emit :=
  to_room room (members σ room) m.

(** [socket.join(room)] and [socket.leave(room)] *)
Definition socket_join (sock room : string) (σ : Server) : Server :=
  set_rooms (λ r, <[room := {[sock]} ∪ default ∅ (r !! room)]> r) σ.
Definition socket_leave (sock room : string) (σ : Server) : Server :=
  set_rooms (λ r, <[room := default ∅ (r !! room) ∖ {[sock]}]> r) σ.

(** [clearTimeout(h)] *)
Definition clearTimeout (h : nat) (σ : Server) : Server :=
  set_timers (delete h) σ.

(** [setTimeout(() => endGame(sessionId, "time_expired", null), 60000)]:
    the handle returned and the server with the timer pending. *)
Definition setTimeout (sessionId : string) (σ : Server) : nat * Server :=
  (next_timer σ,
   mkServer (sessions σ) (socket_sessionId σ) (socket_playerName σ)
            (rooms σ) (<[next_timer σ := sessionId]> (timers σ))
            (S (next_timer σ))).

(** ** Helpers of the source *)

(** [Math.random().toString(36)] is supplied by the environment as [r36]. *)
Definition makeSessionId (r36 : string) : string := substring 2 6 r36.

Definition sanitizeAnswer (a : option string) : string :=
  toLowerCase (trim (js_or a EmptyString)).

Definition project (session : Session.t) : SessionView :=
  mkSessionView
    (Session.id session)
    ((λ kp : string * Player.t,
        let p := kp.2 in
        mkPlayerView (Player.id p) (Player.name p) (Player.score p)
          (Player.attemptsLeft p)
          (String.eqb (Player.id p) (Session.gm session)))
       <$> Session.players session)
    (Session.gm session)
    (Session.inProgress session)
    (if Session.inProgress session then Session.question session else None)
    (Session.winner session).

Definition broadcastSessionState (σ : Server) (session : Session.t) : Emit :=
  io_to σ (Session.id session) (session_state (project session)).

(** The GM rotation of [endGame]: the index after the current GM's, wrapping,
    or 0 when the GM is not in the list. *)
Definition rotate_gm (playerIds : list string) (gm : string) : string :=
  match playerIds with
  | [] => gm
  | first :: _ =>
      let idx := indexOf playerIds gm in
      let nextIdx :=
        if Z.leb 0 idx then (idx + 1) mod Z.of_nat (length playerIds) else 0 in
      nth (Z.to_nat nextIdx) playerIds first
  end.

Definition endGame (sessionId reason : string) (winnerSocketId : option string)
    (σ : Server) : Server * list Emit :=
  match sessions σ !! sessionId with
  | None =>
      (* a built-in has no [players]: [players.get], or else [players.keys],
         throws; what is written on the built-in before that is outside the
         model, and [io.to(undefined)] reaches nobody *)
      if inherited sessionId then (σ, [TypeError]) else (σ, [])
  | Some session =>
      let σ := match Session.timer session with
               | Some h => clearTimeout h σ
               | None => σ
               end in
      let session := Session.set_timer None session in
      let session := Session.set_inProgress false session in
      let session := Session.set_winner winnerSocketId session in
      let session :=
        if truthy_opt winnerSocketId
        then Session.set_players
               (λ ps, match Map_get (default EmptyString winnerSocketId) ps with
                      | Some w =>
                          Map_set (default EmptyString winnerSocketId)
                            (Player.set_score (λ sc, sc + 10) w) ps
                      | None => ps
                      end) session
        else session in
      let revealedAnswer :=
        js_or_null (Session.answerOriginal session) (Session.answer session) in
      let o1 :=
        io_to σ (Session.id session)
          (game_ended reason
             (if truthy_opt winnerSocketId
              then (λ w, (w, Player.name <$> Map_get w (Session.players session)))
                     <$> winnerSocketId
              else None)
             revealedAnswer) in
      let playerIds := Map_keys (Session.players session) in
      let session := Session.set_gm (rotate_gm playerIds (Session.gm session)) session in
      let session := Session.set_qa None None None session in
      let session :=
        Session.set_players
          (Map_forEach (Player.set_attemptsLeft (λ _, 0))) session in
      let σ := set_sessions (<[sessionId := session]>) σ in
      (σ, [o1; broadcastSessionState σ session])
  end.

(** [player?.name || socket.playerName || "A player"] *)
Definition departing_name (σ : Server) (session : Session.t) (sock : string)
    : string :=
  js_or (Player.name <$> Map_get sock (Session.players session))
        (js_or (socket_playerName σ !! sock) "A player").

(** The part both leave functions run once the player is removed and the
    session is not empty is written out in each, as in the source. *)
Definition leaveSessionByUser (sessionId sock : string) (σ : Server)
    : Server * list Emit :=
  match sessions σ !! sessionId with
  | None =>
      (* on a built-in, [session.players.get] throws *)
      if inherited sessionId then (σ, [TypeError]) else (σ, [])
  | Some session =>
      let playerName := departing_name σ session sock in
      let o1 :=
        [io_to σ sessionId (system_message (playerName +:+ " left the session."))] in
      let session := Session.set_players (Map_delete sock) session in
      let σ := socket_leave sock sessionId σ in
      let σ := set_socket_sessionId (delete sock) σ in
      let σ := set_socket_playerName (delete sock) σ in
      match Session.players session with
      | [] =>
          let σ := match Session.timer session with
                   | Some h => clearTimeout h σ
                   | None => σ
                   end in
          (set_sessions (delete sessionId) σ, o1)
      | (firstId, first) :: _ =>
          let '(session, o2) :=
            if String.eqb sock (Session.gm session)
            then (Session.set_gm firstId session,
                  [io_to σ sessionId
                     (system_message
                        (Player.name first +:+ " is now the Game Master."))])
            else (session, []) in
          let σ := set_sessions (<[sessionId := session]>) σ in
          if Session.inProgress session
             && Nat.ltb (length (Session.players session)) 2
          then
            let '(σ', o3) :=
              endGame sessionId "stopped_not_enough_players" None σ in
            (σ', o1 ++ o2 ++ o3)
          else (σ, o1 ++ o2 ++ [broadcastSessionState σ session])
      end
  end.

Definition leaveSessionOnDisconnect (sock sessionId : string) (σ : Server)
    : Server * list Emit :=
  match sessions σ !! sessionId with
  | None =>
      (* on a built-in, [session.players.get] throws *)
      if inherited sessionId then (σ, [TypeError]) else (σ, [])
  | Some session =>
      let playerName := departing_name σ session sock in
      let session := Session.set_players (Map_delete sock) session in
      let σ := socket_leave sock sessionId σ in
      let σ := set_socket_sessionId (delete sock) σ in
      let σ := set_socket_playerName (delete sock) σ in
      let o1 :=
        [io_to σ sessionId (system_message (playerName +:+ " left the session."))] in
      match Session.players session with
      | [] =>
          let σ := match Session.timer session with
                   | Some h => clearTimeout h σ
                   | None => σ
                   end in
          (set_sessions (delete sessionId) σ, o1)
      | (firstId, first) :: _ =>
          let '(session, o2) :=
            if String.eqb sock (Session.gm session)
            then (Session.set_gm firstId session,
                  [io_to σ sessionId
                     (system_message
                        (Player.name first +:+ " is now the Game Master."))])
            else (session, []) in
          let σ := set_sessions (<[sessionId := session]>) σ in
          if Session.inProgress session
             && Nat.ltb (length (Session.players session)) 2
          then
            let '(σ', o3) :=
              endGame sessionId "stopped_not_enough_players" None σ in
            (σ', o1 ++ o2 ++ o3)
          else (σ, o1 ++ o2 ++ [broadcastSessionState σ session])
      end
  end.

(** ** Socket handlers *)

(** [socket.sessionId] when it passes the test [if (!sessionId)]. *)
Definition current_sessionId (σ : Server) (sock : string) : option string :=
  match socket_sessionId σ !! sock with
  | Some s => if truthy s then Some s else None
  | None => None
  end.

Definition reject (σ : Server) (sock text : string) : Server * list Emit :=
  (σ, [to_socket sock (error_message text)]).


(** The id [create_session] goes on with: the supplied one, trimmed, when
    that is not empty, and otherwise the one call of [makeSessionId]. *)
Definition candidate_id (sessionId : option string) (r36 : string) : string :=
  match sessionId with
  | Some s => if truthy s && truthy (trim s) then trim s else makeSessionId r36
  | None => makeSessionId r36
  end.

Definition duplicate_id : string :=
  "Session ID already exists. Try joining it or use another ID.".

Definition create_session (sock : string) (name sessionId : option string)
    (r36 : string) (σ : Server) : Server * list Emit :=
  let name := slice0 30 (trim (js_or name "Anonymous")) in
  let sessionId := candidate_id sessionId r36 in
  match sessions σ !! sessionId with
  | Some _ =>
      reject σ sock duplicate_id
  | None =>
      (* [if (sessions[sessionId])] also holds of a built-in *)
      if inherited sessionId then reject σ sock duplicate_id
      else
      let player := Player.mk sock name 0 0 in
      let session :=
        Session.mk sessionId (Map_set sock player []) sock
                   None None None false None None in
      let σ := set_sessions (<[sessionId := session]>) σ in
      let σ := socket_join sock sessionId σ in
      let σ := set_socket_sessionId (<[sock := sessionId]>) σ in
      let σ := set_socket_playerName (<[sock := name]>) σ in
      (σ, [to_socket sock (session_created sessionId (Session.gm session));
           io_to σ sessionId
             (system_message
                (name +:+ " created the session and is the Game Master."));
           broadcastSessionState σ session])
  end.

Definition join_session (sock : string) (sessionId name : option string)
    (σ : Server) : Server * list Emit :=
  let name := slice0 30 (trim (js_or name "Anonymous")) in
  let sessionId := trim (js_or sessionId EmptyString) in
  match sessions σ !! sessionId with
  | None =>
      (* a built-in passes both tests, and [session.players.set] throws *)
      if inherited sessionId then (σ, [TypeError])
      else reject σ sock "Session not found."
  | Some session =>
      if Session.inProgress session
      then reject σ sock "Cannot join — game already in progress."
      else
        let player := Player.mk sock name 0 0 in
        let session := Session.set_players (Map_set sock player) session in
        let σ := set_sessions (<[sessionId := session]>) σ in
        let σ := socket_join sock sessionId σ in
        let σ := set_socket_sessionId (<[sock := sessionId]>) σ in
        let σ := set_socket_playerName (<[sock := name]>) σ in
        (σ, [io_to σ sessionId (system_message (name +:+ " joined the session."));
             broadcastSessionState σ session])
  end.

Definition leave_session (sock : string) (σ : Server) : Server * list Emit :=
  match current_sessionId σ sock with
  | None => reject σ sock "You are not currently in a session."
  | Some sessionId =>
      let '(σ', o) := leaveSessionByUser sessionId sock σ in
      if thrown o then (σ', o)
      else (σ', o ++ [to_socket sock (left_session sessionId)])
  end.

Definition set_question (sock : string) (question answer : option string)
    (σ : Server) : Server * list Emit :=
  match current_sessionId σ sock with
  | None => reject σ sock "You are not in a session."
  | Some sessionId =>
      match sessions σ !! sessionId with
      | None =>
          (* the [gm] of a built-in is undefined *)
          if inherited sessionId
          then reject σ sock "Only the Game Master can set the question."
          else (σ, [])
      | Some session =>
          if negb (String.eqb (Session.gm session) sock)
          then reject σ sock "Only the Game Master can set the question."
          else if Session.inProgress session
          then reject σ sock "Cannot set question while a game is in progress."
          else
            let question := slice0 500 (trim (js_or question EmptyString)) in
            let answer := slice0 200 (trim (js_or answer EmptyString)) in
            if negb (truthy question) || negb (truthy answer)
            then reject σ sock "Question and answer must not be empty."
            else
              let session :=
                Session.set_qa (Some question)
                  (Some (sanitizeAnswer (Some answer))) (Some answer) session in
              let σ := set_sessions (<[sessionId := session]>) σ in
              (σ, [to_socket sock (system_message "Question set.");
                   broadcastSessionState σ session])
      end
  end.

Definition start_game (sock : string) (σ : Server) : Server * list Emit :=
  match current_sessionId σ sock with
  | None => reject σ sock "You are not in a session."
  | Some sessionId =>
      match sessions σ !! sessionId with
      | None =>
          (* the [gm] of a built-in is undefined *)
          if inherited sessionId
          then reject σ sock "Only the Game Master can start the game."
          else (σ, [])
      | Some session =>
          if negb (String.eqb (Session.gm session) sock)
          then reject σ sock "Only the Game Master can start the game."
          else if Session.inProgress session
          then reject σ sock "Game already in progress."
          else if Nat.ltb (length (Session.players session)) 2
          then reject σ sock "You need at least 2 players to start the game."
          else if negb (truthy_opt (Session.question session))
                  || negb (truthy_opt (Session.answer session))
          then reject σ sock "Set a question and answer before starting."
          else
            let session :=
              Session.set_players
                (Map_forEach (Player.set_attemptsLeft (λ _, 3))) session in
            let session := Session.set_inProgress true session in
            let session := Session.set_winner None session in
            let '(h, σ) := setTimeout sessionId σ in
            let session := Session.set_timer (Some h) session in
            let σ := set_sessions (<[sessionId := session]>) σ in
            let o :=
              [io_to σ sessionId (game_started (Session.question session) 60);
               broadcastSessionState σ session] in
            match Map_get (Session.gm session) (Session.players session) with
            | Some g =>
                (σ, o ++ [io_to σ sessionId
                            (system_message
                               ("Game started by " +:+ Player.name g
                                +:+ ". Good luck!"))])
            | None =>
                (* [players.get(gm)] is undefined: reading [.name] throws and
                   the last message is not sent *)
                (σ, o ++ [TypeError])
            end
      end
  end.

(** The text the guess handler publishes once the attempt is taken. *)
Definition guess_narration (player : Player.t) (guessText : string) : string :=
  Player.name player +:+ " guessed: " +:+ dquote +:+ guessText +:+ dquote
  +:+ " (attempts left: " +:+ pretty (Player.attemptsLeft player) +:+ ")".

(** The guess handler, in the two parts the source runs one after the other:
    [guess_consume] validates, takes the attempt and publishes it;
    [guess_decide] compares with the answer. *)
Definition guess_decide (sock sessionId normalizedGuess : string)
    (session : Session.t) (player : Player.t) (σ : Server)
    : Server * list Emit :=
  if decide (Session.answer session = Some normalizedGuess)
  then
    if negb (truthy_opt (Session.winner session))
    then
      let session := Session.set_winner (Some sock) session in
      let σ := set_sessions (<[sessionId := session]>) σ in
      endGame sessionId "correct_guess" (Some sock) σ
    else (σ, [])
  else
    if Z.leb (Player.attemptsLeft player) 0
    then (σ, [to_socket sock
                (system_message
                   "You have used all your attempts for this round.")])
    else (σ, []).

Definition guess (sock : string) (guessText : option string) (σ : Server)
    : Server * list Emit :=
  match current_sessionId σ sock with
  | None => reject σ sock "You are not in a session."
  | Some sessionId =>
      match sessions σ !! sessionId with
      | None =>
          (* no session, or a built-in, which is not [inProgress] *)
          reject σ sock "No active game in this session."
      | Some session =>
          if negb (Session.inProgress session)
          then reject σ sock "No active game in this session."
          else
            match Map_get sock (Session.players session) with
            | None => reject σ sock "You are not a player in this session."
            | Some player =>
                if Z.leb (Player.attemptsLeft player) 0
                then reject σ sock "No attempts left."
                else
                  let guessText := trim (js_or guessText EmptyString) in
                  if negb (truthy guessText)
                  then reject σ sock "Guess cannot be empty."
                  else
                    let player :=
                      Player.set_attemptsLeft (λ a, a - 1) player in
                    let session :=
                      Session.set_players (Map_set sock player) session in
                    let σ := set_sessions (<[sessionId := session]>) σ in
                    let o1 :=
                      [io_to σ sessionId
                         (system_message (guess_narration player guessText));
                       broadcastSessionState σ session] in
                    let normalizedGuess := trim (toLowerCase guessText) in
                    let '(σ', o2) :=
                      guess_decide sock sessionId normalizedGuess session player σ in
                    (σ', o1 ++ o2)
            end
      end
  end.

Definition get_session_state (sock : string) (σ : Server)
    : Server * list Emit :=
  match current_sessionId σ sock with
  | None => (σ, [])
  | Some sessionId =>
      match sessions σ !! sessionId with
      | None =>
          (* on a built-in, [session.players.values] throws *)
          if inherited sessionId then (σ, [TypeError]) else (σ, [])
      | Some session => (σ, [broadcastSessionState σ session])
      end
  end.

(** socket.io takes a closing socket out of every room before it raises
    [disconnect]; the handler then runs. *)
Definition disconnect (sock : string) (σ : Server) : Server * list Emit :=
  let σ := set_rooms (fmap (λ S, S ∖ {[sock]})) σ in
  match current_sessionId σ sock with
  | None => (σ, [])
  | Some sessionId => leaveSessionOnDisconnect sock sessionId σ
  end.

(** A pending timer fires: it stops being pending and its callback runs. *)
Definition timer_fires (h : nat) (σ : Server) : Server * list Emit :=
  match timers σ !! h with
  | None => (σ, [])
  | Some sessionId =>
      endGame sessionId "time_expired" None (set_timers (delete h) σ)
  end.

(** ** The event loop *)

(** An intent of a socket with its payload, a disconnection, or a timer
    that fires. [ev_no_payload] is [create_session], [join_session],
    [set_question] or [guess] sent with no payload (or with null): the
    handler takes its parameter apart and throws at once. *)
Inductive Event :=
  | ev_create_session (sock : string) (name sessionId : option string)
                      (r36 : string)
  | ev_join_session (sock : string) (sessionId name : option string)
  | ev_leave_session (sock : string)
  | ev_set_question (sock : string) (question answer : option string)
  | ev_start_game (sock : string)
  | ev_guess (sock : string) (guessText : option string)
  | ev_get_session_state (sock : string)
  | ev_disconnect (sock : string)
  | ev_timer (h : nat)
  | ev_no_payload (sock : string).

Definition handle (e : Event) (σ : Server) : Server * list Emit :=
  match e with
  | ev_create_session sock name sessionId r36 =>
      create_session sock name sessionId r36 σ
  | ev_join_session sock sessionId name => join_session sock sessionId name σ
  | ev_leave_session sock => leave_session sock σ
  | ev_set_question sock q a => set_question sock q a σ
  | ev_start_game sock => start_game sock σ
  | ev_guess sock g => guess sock g σ
  | ev_get_session_state sock => get_session_state sock σ
  | ev_disconnect sock => disconnect sock σ
  | ev_timer h => timer_fires h σ
  | ev_no_payload sock => (σ, [TypeError])
  end.

(** Events are handled one at a time, each to completion; nothing is
    handled once a handler has thrown. *)
Fixpoint run (es : list Event) (σ : Server) : Server * list Emit :=
  match es with
  | [] => (σ, [])
  | e :: es' =>
      let '(σ1, o1) := handle e σ in
      if thrown o1 then (σ1, o1)
      else
        let '(σ2, o2) := run es' σ1 in
        (σ2, o1 ++ o2)
  end.

(** The states the server can be in. Any event may arrive in any state,
    which is more than can happen (a closed socket sends nothing more, and
    no event follows an uncaught exception): what holds of all these states
    holds of the real ones. *)
Inductive reachable : Server → Prop :=
  | reachable_init : reachable init
  | reachable_step σ e : reachable σ → reachable (handle e σ).1.

(** * Vocabulary of the properties *)

(** ** Well-formed servers *)

Definition session_ok (s : Session.t) : Prop :=
  Session.players s ≠ [] ∧
  Session.gm s ∈ Map_keys (Session.players s) ∧
  (Session.inProgress s = true → Session.winner s = None).

Record wf (σ : Server) : Prop := mk_wf {
  wf_sessions : ∀ sid s, sessions σ !! sid = Some s → session_ok s;
  wf_sockets : ∀ sock sid,
    socket_sessionId σ !! sock = Some sid →
    ∃ s, sessions σ !! sid = Some s ∧ sock ∈ Map_keys (Session.players s);
  wf_timers : ∀ h sid,
    timers σ !! h = Some sid →
    ∃ s, sessions σ !! sid = Some s ∧ Session.inProgress s = true
         ∧ Session.timer s = Some h
}.

(** What [endGame] needs of the server it is called on: the session about to
    end may already carry its winner, and its own timer may have fired. *)
Record wf_ending (sid : string) (σ : Server) : Prop := mk_wf_ending {
  wfe_sessions : ∀ sid' s, sessions σ !! sid' = Some s →
    Session.players s ≠ [] ∧ (sid' ≠ sid → session_ok s);
  wfe_sockets : ∀ sock sid',
    socket_sessionId σ !! sock = Some sid' →
    ∃ s, sessions σ !! sid' = Some s ∧ sock ∈ Map_keys (Session.players s);
  wfe_timers : ∀ h sid',
    timers σ !! h = Some sid' →
    ∃ s, sessions σ !! sid' = Some s ∧ Session.timer s = Some h
         ∧ (sid' ≠ sid → Session.inProgress s = true)
}.

(** [winner.score = (winner.score || 0) + 10], when the winner is a player. *)
Definition award (w : string) (ps : list (string * Player.t))
    : list (string * Player.t) :=
  match Map_get w ps with
  | Some p => Map_set w (Player.set_score (λ sc, sc + 10) p) ps
  | None => ps
  end.

(** The session [endGame] leaves behind. *)
Definition ended (winnerSocketId : option string) (s : Session.t) : Session.t :=
  let s1 :=
    Session.set_winner winnerSocketId
      (Session.set_inProgress false (Session.set_timer None s)) in
  let s2 :=
    if truthy_opt winnerSocketId
    then Session.set_players (award (default EmptyString winnerSocketId)) s1
    else s1 in
  Session.set_players (Map_forEach (Player.set_attemptsLeft (λ _, 0)))
    (Session.set_qa None None None
       (Session.set_gm
          (rotate_gm (Map_keys (Session.players s2)) (Session.gm s2)) s2)).

(** [if (session.timer) clearTimeout(session.timer)] *)
Definition cancel (t : option nat) (σ : Server) : Server :=
  match t with
  | Some h => clearTimeout h σ
  | None => σ
  end.

(** The server either leave function leaves behind. *)
Definition departed (sessionId sock : string) (σ : Server) : Server :=
  match sessions σ !! sessionId with
  | None => σ
  | Some s =>
      let s1 := Session.set_players (Map_delete sock) s in
      let σ1 :=
        set_socket_playerName (delete sock)
          (set_socket_sessionId (delete sock) (socket_leave sock sessionId σ)) in
      match Session.players s1 with
      | [] => set_sessions (delete sessionId) (cancel (Session.timer s) σ1)
      | (firstId, _) :: _ =>
          let s2 :=
            if String.eqb sock (Session.gm s) then Session.set_gm firstId s1
            else s1 in
          let σ2 := set_sessions (<[sessionId := s2]>) σ1 in
          if Session.inProgress s && Nat.ltb (length (Session.players s1)) 2
          then (endGame sessionId "stopped_not_enough_players" None σ2).1
          else σ2
      end
  end.

(** The session [start_game] installs. *)
Definition started (h : nat) (s : Session.t) : Session.t :=
  Session.set_timer (Some h)
    (Session.set_winner None
       (Session.set_inProgress true
          (Session.set_players
             (Map_forEach (Player.set_attemptsLeft (λ _, 3))) s))).

(** ** Concrete scenarios *)

Definition ev_lobby : list Event :=
  [ev_create_session "A" (Some "Ann") (Some "room") "0.k3x9q2mz";
   ev_join_session "B" (Some "room") (Some "Bob")].

Definition ev_round : list Event :=
  ev_lobby
  ++ [ev_set_question "A" (Some "Capital of France") (Some "Paris");
      ev_start_game "A"].

Definition ev_won : list Event := ev_round ++ [ev_guess "B" (Some " paris ")].

Definition lobby : Server := (run ev_lobby init).1.
Definition round_open : Server := (run ev_round init).1.
Definition round_won : Server := (run ev_won init).1.

(** A server in which a round is still in progress although its winner is
    already recorded (the case the guess handler guards against). *)
Definition raced : Server :=
  set_sessions (alter (Session.set_winner (Some "A")) "room") round_open.

(** A session created without an id: the generated one is kept. *)
Definition auto_created : Server :=
  (create_session "A" (Some "Ann") None "0.k3x9q2mz" init).1.

(** One socket creating two sessions in a row, then closing. *)
Definition ev_two_sessions : list Event :=
  [ev_create_session "X" (Some "Xan") (Some "a") "0.k3x9q2mz";
   ev_create_session "X" (Some "Xan") (Some "b") "0.k3x9q2mz";
   ev_disconnect "X"].

(** ** The rotation rule in the words of the specification *)

(** [next_in_join_order ids g g']: in the join order [ids], [g'] is the
    player immediately after [g], the first player when [g] is last, and
    the first player when [g] is not in the list. *)
Inductive next_in_join_order : list string → string → string → Prop :=
  | next_following pre g x post :
      g ∉ pre → next_in_join_order (pre ++ g :: x :: post) g x
  | next_wrapping pre g first rest :
      g ∉ pre → pre ++ [g] = first :: rest →
      next_in_join_order (pre ++ [g]) g first
  | next_absent g first rest :
      g ∉ first :: rest → next_in_join_order (first :: rest) g first.

(** ** What a socket receives *)

Definition delivered (x : string) (e : Emit) : option Message :=
  match e with
  | to_socket y m => if decide (x = y) then Some m else None
  | to_room _ ms m => if decide (x ∈ ms) then Some m else None
  | uncaught _ => None
  end.

(** The messages socket [x] receives out of the emitted ones, in order. *)
Definition received (x : string) (o : list Emit) : list Message :=
  omap (delivered x) o.

(** Two servers that differ at most in rooms, and in which socket [x] is in
    the same rooms. *)
Record agree (x : string) (σ1 σ2 : Server) : Prop := mk_agree {
  agree_sessions : sessions σ1 = sessions σ2;
  agree_sessionId : socket_sessionId σ1 = socket_sessionId σ2;
  agree_playerName : socket_playerName σ1 = socket_playerName σ2;
  agree_timers : timers σ1 = timers σ2;
  agree_next_timer : next_timer σ1 = next_timer σ2;
  agree_rooms : ∀ room, x ∈ members σ1 room ↔ x ∈ members σ2 room
}.

(** The server once [sock] is out of [room] and its two properties are
    deleted, as both leave functions do. *)
Definition detached (sock room : string) (σ : Server) : Server :=
  set_socket_playerName (delete sock)
    (set_socket_sessionId (delete sock) (socket_leave sock room σ)).

Ltac step_eval := cbv beta iota zeta delta [fst snd].

(** Closes the case of a lookup in [sessions] that finds no session. *)
Ltac no_session := try destruct (inherited _); done.

(** ** Text without leading white space *)

(** No white space in front. *)
Definition no_lead (l : list ascii) : Prop :=
  match l with
  | c :: _ => is_space c = false
  | [] => True
  end.

(** ** What every stored session looks like *)

(** The parts of a player no round changes for the worse. *)
Definition player_base (k : string) (p : Player.t) : Prop :=
  Player.id p = k
  ∧ (String.length (Player.name p) ≤ 30)%nat
  ∧ 0 ≤ Player.score p ∧ (10 | Player.score p).

Definition player_inv (inProgress : bool) (k : string) (p : Player.t) : Prop :=
  player_base k p
  ∧ 0 ≤ Player.attemptsLeft p ≤ 3
  ∧ (inProgress = false → Player.attemptsLeft p = 0).

(** Question and answers are absent together, or present together, non-empty
    and bounded, the answer being the normal form of the original. *)
Definition qa_inv (s : Session.t) : Prop :=
  (Session.question s = None ∧ Session.answer s = None
   ∧ Session.answerOriginal s = None)
  ∨ ∃ q ao,
      Session.question s = Some q
      ∧ Session.answerOriginal s = Some ao
      ∧ Session.answer s = Some (sanitizeAnswer (Some ao))
      ∧ truthy q = true ∧ truthy ao = true
      ∧ truthy (sanitizeAnswer (Some ao)) = true
      ∧ (String.length q ≤ 500)%nat ∧ (String.length ao ≤ 200)%nat.

Definition session_base (sid : string) (s : Session.t) : Prop :=
  Session.id s = sid
  ∧ NoDup (Map_keys (Session.players s))
  ∧ Forall (λ kp, player_base kp.1 kp.2) (Session.players s).

Definition session_inv (sid : string) (s : Session.t) : Prop :=
  Session.id s = sid
  ∧ NoDup (Map_keys (Session.players s))
  ∧ Forall (λ kp, player_inv (Session.inProgress s) kp.1 kp.2)
      (Session.players s)
  ∧ qa_inv s
  ∧ (Session.inProgress s = true →
     (2 ≤ length (Session.players s))%nat
     ∧ is_Some (Session.question s) ∧ is_Some (Session.timer s))
  ∧ (Session.inProgress s = false → Session.timer s = None).

(** The session [create_session] stores. *)
Definition new_session (sid sock name : string) : Session.t :=
  Session.mk sid [(sock, Player.mk sock name 0 0)] sock
             None None None false None None.

(** The session the leave functions keep once [sock] is removed, if any
    player is left. *)
Definition after_departure (sock : string) (s : Session.t) : option Session.t :=
  let s1 := Session.set_players (Map_delete sock) s in
  match Session.players s1 with
  | [] => None
  | (firstId, _) :: _ =>
      Some (if String.eqb sock (Session.gm s) then Session.set_gm firstId s1
            else s1)
  end.

Definition took_attempt (sock : string) (p : Player.t) (s : Session.t)
    : Session.t :=
  Session.set_players
    (Map_set sock (Player.set_attemptsLeft (λ a, a - 1) p)) s.

(** The ways one event changes a stored session. *)
Inductive session_change : Session.t → Session.t → Prop :=
  | ch_join s sock name :
      Session.inProgress s = false → (String.length name ≤ 30)%nat →
      session_change s
        (Session.set_players (Map_set sock (Player.mk sock name 0 0)) s)
  | ch_leave s sock s2 :
      after_departure sock s = Some s2 →
      Session.inProgress s && Nat.ltb (length (Session.players s2)) 2 = false →
      session_change s s2
  | ch_forced s sock s2 :
      after_departure sock s = Some s2 →
      Session.inProgress s = true →
      session_change s (ended None s2)
  | ch_question s q a :
      Session.inProgress s = false →
      truthy q = true → truthy a = true →
      (String.length q ≤ 500)%nat → (String.length a ≤ 200)%nat →
      no_lead (list_ascii_of_string a) →
      session_change s
        (Session.set_qa (Some q) (Some (sanitizeAnswer (Some a))) (Some a) s)
  | ch_start s h :
      Session.inProgress s = false →
      (2 ≤ length (Session.players s))%nat →
      truthy_opt (Session.question s) = true →
      session_change s (started h s)
  | ch_guess s sock p :
      Session.inProgress s = true →
      Map_get sock (Session.players s) = Some p →
      0 < Player.attemptsLeft p →
      session_change s (took_attempt sock p s)
  | ch_win s sock p :
      Session.inProgress s = true →
      Map_get sock (Session.players s) = Some p →
      session_change s
        (ended (Some sock)
           (Session.set_winner (Some sock) (took_attempt sock p s)))
  | ch_timeout s :
      Session.inProgress s = true → session_change s (ended None s).

(** ** Timers and rooms *)

(** Handles are handed out in increasing order, and the [timer] field of a
    stored session is a pending timer of that session. *)
Record timed (σ : Server) : Prop := mk_timed {
  timed_fresh : ∀ h sid, timers σ !! h = Some sid → (h < next_timer σ)%nat;
  timed_field : ∀ sid s h,
    sessions σ !! sid = Some s → Session.timer s = Some h →
    timers σ !! h = Some sid
}.

(** A socket that records a session is in the room of that session. *)
Definition roomed (σ : Server) : Prop :=
  ∀ sock sid, current_sessionId σ sock = Some sid → sock ∈ members σ sid.

(** The session an event addresses. *)
Definition addressed (e : Event) (σ : Server) : option string :=
  match e with
  | ev_create_session _ _ sessionId r36 => Some (candidate_id sessionId r36)
  | ev_join_session _ sessionId _ => Some (trim (js_or sessionId EmptyString))
  | ev_leave_session sock | ev_set_question sock _ _ | ev_start_game sock
  | ev_guess sock _ | ev_get_session_state sock | ev_disconnect sock =>
      current_sessionId σ sock
  | ev_timer h => timers σ !! h
  | ev_no_payload _ => None
  end.

(** The socket an event comes from; the timer comes from none. *)
Definition sender (e : Event) : option string :=
  match e with
  | ev_create_session sock _ _ _ | ev_join_session sock _ _
  | ev_leave_session sock | ev_set_question sock _ _ | ev_start_game sock
  | ev_guess sock _ | ev_get_session_state sock | ev_disconnect sock =>
      Some sock
  | ev_timer _ => None
  | ev_no_payload sock => Some sock
  end.

Definition is_error_message (m : Message) : bool :=
  match m with
  | error_message _ => true
  | _ => false
  end.

Definition emits_error (e : Emit) : bool :=
  match e with
  | to_socket _ m | to_room _ _ m => is_error_message m
  | uncaught _ => false
  end.

(** ** Scores *)

(** A player after a round ended with winner [w]: the award for the winner,
    and no attempt left. *)
Definition settled (w : option string) (k : string) (p : Player.t) : Player.t :=
  Player.mk (Player.id p) (Player.name p)
    (if truthy_opt w && bool_decide (w = Some k)
     then Player.score p + 10 else Player.score p)
    0.

(** The session called room in the scenarios. *)
Definition room_of (σ : Server) : Session.t :=
  default (new_session "room" "A" "Ann") (sessions σ !! "room").

(** A server built by hand in which a round is in progress with a single
    player left (the case the leave functions clear the timer for). *)
Definition last_player : Server :=
  set_sessions (alter (Session.set_players (Map_delete "A")) "room") round_open.

(** A second session beside the one with a round in progress. *)
Definition two_rooms : Server :=
  (run (ev_round ++ [ev_create_session "C" (Some "Cy") (Some "side")
                       "0.zzzzzzzz"]) init).1.

(** The lobby once the GM has set a question, before any round. *)
Definition asked : Server :=
  (run (ev_lobby ++ [ev_set_question "A" (Some "Capital of France")
                       (Some "Paris")]) init).1.

(** ** The end of a round *)

(** The round that timer [h] was armed for in session [sid] is over in
    [σ'], a server that came out of [σ]: [h] has been taken out of the
    pending timers, no other timer has been touched, and the session, if
    it is still there, is idle and holds no timer. *)
Definition round_over (sid : string) (h : nat) (σ σ' : Server) : Prop :=
  timers σ' = delete h (timers σ)
  ∧ ∀ s', sessions σ' !! sid = Some s' →
      Session.inProgress s' = false ∧ Session.timer s' = None.

(** * Properties *)

(** ** The [Map] operations *)

Section JSMap_facts.
Context {V : Type}.
Implicit Types (m : list (string * V)) (k : string) (v : V).

Lemma Map_keys_forEach (f : V → V) m :
  Map_keys (Map_forEach f m) = Map_keys m.
Proof.
  unfold Map_keys, Map_forEach. induction m as [|[k v] m IH]; [done|].
  simpl. by f_equal.
Qed.

Lemma Map_get_Some_keys k v m : Map_get k m = Some v → k ∈ Map_keys m.
Proof.
  induction m as [|[k' v'] m IH]; simpl; [done|].
  destruct (String.eqb_spec k k') as [->|Hne]; intros H.
  - apply list_elem_of_here.
  - apply list_elem_of_further. by apply IH.
Qed.

Lemma Map_get_None_keys k m : Map_get k m = None ↔ k ∉ Map_keys m.
Proof.
  induction m as [|[k' v'] m IH]; simpl.
  - split; [intros _; apply not_elem_of_nil | done].
  - destruct (String.eqb_spec k k') as [->|Hne].
    + split; [done|]. intros H. destruct H. apply list_elem_of_here.
    + rewrite IH. unfold Map_keys. simpl. rewrite not_elem_of_cons. tauto.
Qed.

Lemma Map_keys_set_present k v v' m :
  Map_get k m = Some v → Map_keys (Map_set k v' m) = Map_keys m.
Proof.
  induction m as [|[k' w] m IH]; simpl; [done|].
  destruct (String.eqb_spec k k') as [->|Hne]; [done|].
  intros H. unfold Map_keys in *. simpl. f_equal. by apply IH.
Qed.

Lemma Map_keys_set_absent k v m :
  Map_get k m = None → Map_keys (Map_set k v m) = Map_keys m ++ [k].
Proof.
  induction m as [|[k' w] m IH]; simpl; [done|].
  destruct (String.eqb_spec k k') as [->|Hne]; [done|].
  intros H. unfold Map_keys in *. simpl. f_equal. by apply IH.
Qed.

Lemma elem_of_Map_keys_set k' k v m :
  k' ∈ Map_keys (Map_set k v m) ↔ k' = k ∨ k' ∈ Map_keys m.
Proof.
  destruct (Map_get k m) as [w|] eqn:Hg.
  - rewrite (Map_keys_set_present _ _ _ _ Hg).
    apply Map_get_Some_keys in Hg. split; [tauto|]. by intros [->|].
  - rewrite (Map_keys_set_absent _ _ _ Hg), elem_of_app, list_elem_of_singleton.
    tauto.
Qed.

Lemma Map_set_not_nil k v m : Map_set k v m ≠ [].
Proof. destruct m as [|[k' w] m]; simpl; [done|]. by destruct (String.eqb k k'). Qed.

Lemma Map_get_set_eq k v m : Map_get k (Map_set k v m) = Some v.
Proof.
  induction m as [|[k' w] m IH]; simpl.
  - by rewrite String.eqb_refl.
  - destruct (String.eqb_spec k k') as [->|Hne]; simpl.
    + by rewrite String.eqb_refl.
    + by destruct (String.eqb_spec k k').
Qed.

Lemma Map_get_set_ne k k' v m :
  k' ≠ k → Map_get k' (Map_set k v m) = Map_get k' m.
Proof.
  intros Hne. induction m as [|[k0 w] m IH]; simpl.
  - by destruct (String.eqb_spec k' k).
  - destruct (String.eqb_spec k k0) as [->|Hk]; simpl.
    + by destruct (String.eqb_spec k' k0).
    + destruct (String.eqb_spec k' k0); [done|apply IH].
Qed.

Lemma elem_of_Map_keys_delete k' k m :
  k' ∈ Map_keys (Map_delete k m) ↔ k' ≠ k ∧ k' ∈ Map_keys m.
Proof.
  unfold Map_keys. induction m as [|[k0 w] m IH]; simpl.
  - split; [by intros ?%elem_of_nil | by intros [_ ?%elem_of_nil]].
  - destruct (String.eqb_spec k k0) as [->|Hk]; simpl.
    + rewrite IH, elem_of_cons. intuition congruence.
    + rewrite !elem_of_cons, IH. intuition congruence.
Qed.
End JSMap_facts.

(** ** [indexOf] and the rotation *)

Lemma indexOf_range ids x : -1 ≤ indexOf ids x < Z.of_nat (length ids) ∨ ids = [].
Proof.
  induction ids as [|y ids IH]; [by right|]. left. simpl.
  destruct (String.eqb y x); [lia|].
  destruct (Z.ltb_spec (indexOf ids x) 0); [lia|].
  destruct IH as [IH| ->]; [lia|]. simpl in *. lia.
Qed.

Lemma indexOf_absent ids x : x ∉ ids → indexOf ids x = -1.
Proof.
  induction ids as [|y ids IH]; [done|]. rewrite not_elem_of_cons.
  intros [Hne Hni]. simpl. destruct (String.eqb_spec y x); [congruence|].
  by rewrite (IH Hni).
Qed.

Lemma indexOf_first (pre : list string) x post :
  x ∉ pre → indexOf (pre ++ x :: post) x = Z.of_nat (length pre).
Proof.
  induction pre as [|y pre IH]; simpl.
  - by rewrite String.eqb_refl.
  - rewrite not_elem_of_cons. intros [Hne Hni].
    destruct (String.eqb_spec y x); [congruence|].
    rewrite (IH Hni). destruct (Z.ltb_spec (Z.of_nat (length pre)) 0); lia.
Qed.

Lemma rotate_gm_elem ids g : ids ≠ [] → rotate_gm ids g ∈ ids.
Proof.
  destruct ids as [|first ids]; [done|]. intros _. unfold rotate_gm.
  set (l := first :: ids).
  destruct (indexOf_range l g) as [Hr|]; [|done].
  assert (0 < Z.of_nat (length l)) by (simpl; lia).
  apply list_elem_of_In, nth_In.
  destruct (Z.leb_spec 0 (indexOf l g)).
  - pose proof (Z.mod_pos_bound (indexOf l g + 1) (Z.of_nat (length l))). lia.
  - simpl. lia.
Qed.

(** ** Well-formed servers *)

Lemma wf_wf_ending sid σ : wf σ → wf_ending sid σ.
Proof.
  intros [Hs Hk Ht]. split; [|done|].
  - intros sid' s H. destruct (Hs _ _ H) as (?&?&?). by split; [|intros _].
  - intros h sid' H. destruct (Ht _ _ H) as (s&?&?&?). eauto.
Qed.

Lemma endGame_fst sid reason w σ s :
  sessions σ !! sid = Some s →
  (endGame sid reason w σ).1
  = set_sessions (<[sid := ended w s]>) (cancel (Session.timer s) σ).
Proof. intros H. unfold endGame. rewrite H. by destruct (Session.timer s). Qed.

Lemma endGame_None sid reason w σ :
  sessions σ !! sid = None → (endGame sid reason w σ).1 = σ.
Proof. intros H. unfold endGame. rewrite H. by destruct (inherited sid). Qed.

Lemma award_keys w ps : Map_keys (award w ps) = Map_keys ps.
Proof.
  unfold award. destruct (Map_get w ps) eqn:H; [|done].
  by eapply Map_keys_set_present.
Qed.

Lemma ended_keys w s :
  Map_keys (Session.players (ended w s)) = Map_keys (Session.players s).
Proof.
  unfold ended. destruct (truthy_opt w); simpl.
  - by rewrite Map_keys_forEach, award_keys.
  - by rewrite Map_keys_forEach.
Qed.

Lemma ended_gm w s :
  Session.gm (ended w s)
  = rotate_gm (Map_keys (Session.players s)) (Session.gm s).
Proof.
  unfold ended. destruct (truthy_opt w); simpl; [|done]. by rewrite award_keys.
Qed.

Lemma ended_fields w s :
  Session.inProgress (ended w s) = false ∧ Session.timer (ended w s) = None
  ∧ Session.winner (ended w s) = w ∧ Session.id (ended w s) = Session.id s.
Proof. unfold ended. by destruct (truthy_opt w). Qed.

Lemma keys_not_nil {V} (m : list (string * V)) : Map_keys m ≠ [] ↔ m ≠ [].
Proof. unfold Map_keys. by destruct m. Qed.

Lemma ended_ok w s : Session.players s ≠ [] → session_ok (ended w s).
Proof.
  intros Hne. split; [|split].
  - apply keys_not_nil. rewrite ended_keys. by apply keys_not_nil.
  - rewrite ended_gm, ended_keys. by apply rotate_gm_elem, keys_not_nil.
  - by destruct (ended_fields w s) as (->&_).
Qed.

Lemma sessions_cancel t σ : sessions (cancel t σ) = sessions σ.
Proof. by destruct t. Qed.

Lemma socket_sessionId_cancel t σ :
  socket_sessionId (cancel t σ) = socket_sessionId σ.
Proof. by destruct t. Qed.

Lemma timers_cancel_Some t σ h sid :
  timers (cancel t σ) !! h = Some sid →
  timers σ !! h = Some sid ∧ t ≠ Some h.
Proof.
  destruct t as [h0|]; simpl; [|done].
  intros [? ?]%lookup_delete_Some. split; [done|congruence].
Qed.

Lemma endGame_wf sid reason w σ :
  wf_ending sid σ → wf (endGame sid reason w σ).1.
Proof.
  intros [Hs Hk Ht]. destruct (sessions σ !! sid) as [s|] eqn:Hsid.
  2:{ rewrite endGame_None by done. split; simpl; [|done|].
      - intros sid' s' H. apply (Hs _ _ H). congruence.
      - intros h sid' H. destruct (Ht _ _ H) as (s'&?&?&Hi).
        exists s'. repeat split; try done. apply Hi. congruence. }
  rewrite (endGame_fst _ _ _ _ _ Hsid). split; simpl.
  - intros sid' s'. rewrite sessions_cancel, lookup_insert.
    case_decide; intros Hl; simplify_eq.
    + apply ended_ok. by destruct (Hs _ _ Hsid).
    + destruct (Hs _ _ Hl) as [_ Hok]. by apply Hok.
  - intros sock sid'. rewrite socket_sessionId_cancel, sessions_cancel.
    intros H. destruct (Hk _ _ H) as (s'&Hs'&Hin).
    destruct (decide (sid = sid')) as [->|Hne].
    + rewrite lookup_insert_eq. eexists; split; [done|].
      rewrite ended_keys. congruence.
    + rewrite lookup_insert_ne by done. eauto.
  - intros h sid' [H' Hh]%timers_cancel_Some. rewrite sessions_cancel.
    destruct (Ht _ _ H') as (s'&Hs'&Htm&Hi).
    destruct (decide (sid = sid')) as [->|Hne]; [congruence|].
    rewrite lookup_insert_ne by done. exists s'. auto.
Qed.

Lemma create_session_wf sock name sessionId r36 σ :
  wf σ → wf (create_session sock name sessionId r36 σ).1.
Proof.
  intros [Hs Hk Ht]. unfold create_session.
  set (sid := candidate_id sessionId r36).
  destruct (sessions σ !! sid) as [s|] eqn:Hsid; [done|].
  destruct (inherited sid); [done|]. split; simpl.
  - intros sid' s'. rewrite lookup_insert. case_decide; intros Hl; simplify_eq.
    + split; [|split]; simpl; [done| |done]. apply list_elem_of_here.
    + by eapply Hs.
  - intros sock' sid'. rewrite lookup_insert.
    case_decide; intros Hl; simplify_eq.
    + rewrite lookup_insert_eq. eexists; split; [done|]. simpl.
      apply list_elem_of_here.
    + destruct (Hk _ _ Hl) as (s'&Hs'&Hin). exists s'. split; [|done].
      rewrite lookup_insert_ne; [done|congruence].
  - intros h sid' Hl. destruct (Ht _ _ Hl) as (s'&Hs'&?&?). exists s'.
    split; [|done]. rewrite lookup_insert_ne; [done|congruence].
Qed.

Lemma join_session_wf sock sessionId name σ :
  wf σ → wf (join_session sock sessionId name σ).1.
Proof.
  intros [Hs Hk Ht]. unfold join_session.
  set (sid := trim _). set (nm := slice0 _ _).
  destruct (sessions σ !! sid) as [s|] eqn:Hsid;
    [|by destruct (inherited sid)].
  destruct (Session.inProgress s) eqn:Hip; [done|].
  destruct (Hs _ _ Hsid) as (Hne&Hgm&Hw). split; simpl.
  - intros sid' s'. rewrite lookup_insert. case_decide; intros Hl; simplify_eq.
    + split; [|split]; simpl.
      * apply Map_set_not_nil.
      * apply elem_of_Map_keys_set. by right.
      * congruence.
    + by eapply Hs.
  - intros sock' sid'. rewrite lookup_insert.
    case_decide; intros Hl; simplify_eq.
    + rewrite lookup_insert_eq. eexists; split; [done|]. simpl.
      apply elem_of_Map_keys_set. by left.
    + destruct (Hk _ _ Hl) as (s'&Hs'&Hin).
      destruct (decide (sid = sid')) as [<-|Hd].
      * rewrite lookup_insert_eq. eexists; split; [done|]. simpl.
        apply elem_of_Map_keys_set. right. congruence.
      * rewrite lookup_insert_ne by done. eauto.
  - intros h sid' Hl. destruct (Ht _ _ Hl) as (s'&Hs'&?&?). exists s'.
    split; [|done]. rewrite lookup_insert_ne; [done|congruence].
Qed.

Lemma leaveSessionByUser_fst sessionId sock σ :
  (leaveSessionByUser sessionId sock σ).1 = departed sessionId sock σ.
Proof.
  unfold leaveSessionByUser, departed.
  destruct (sessions σ !! sessionId) as [s|]; [|no_session]. simpl.
  destruct (Map_delete sock (Session.players s)) as [|[firstId first] l] eqn:Hd.
  { by destruct (Session.timer s). }
  destruct (String.eqb sock (Session.gm s)); simpl; rewrite Hd;
    destruct (Session.inProgress s); simpl; try done;
    destruct l; simpl; try done;
    by destruct (endGame _ _ _ _).
Qed.

Lemma leave_session_fst sock σ :
  (leave_session sock σ).1
  = match current_sessionId σ sock with
    | Some sid => departed sid sock σ
    | None => σ
    end.
Proof.
  unfold leave_session. destruct (current_sessionId σ sock) as [sid|]; [|done].
  rewrite <- leaveSessionByUser_fst.
  destruct (leaveSessionByUser sid sock σ) as [σ' o]. by destruct (thrown o).
Qed.

Lemma leaveSessionOnDisconnect_fst sock sessionId σ :
  (leaveSessionOnDisconnect sock sessionId σ).1 = departed sessionId sock σ.
Proof.
  unfold leaveSessionOnDisconnect, departed.
  destruct (sessions σ !! sessionId) as [s|]; [|no_session]. simpl.
  destruct (Map_delete sock (Session.players s)) as [|[firstId first] l] eqn:Hd.
  { by destruct (Session.timer s). }
  destruct (String.eqb sock (Session.gm s)); simpl; rewrite Hd;
    destruct (Session.inProgress s); simpl; try done;
    destruct l; simpl; try done;
    by destruct (endGame _ _ _ _).
Qed.

Lemma wf_set_rooms f σ : wf σ → wf (set_rooms f σ).
Proof. by intros [Hs Hk Ht]. Qed.

Lemma departed_wf sessionId sock σ : wf σ → wf (departed sessionId sock σ).
Proof.
  intros Hwf. pose proof Hwf as [Hs Hk Ht]. unfold departed.
  destruct (sessions σ !! sessionId) as [s|] eqn:Hsid; [|no_session]. simpl.
  destruct (Hs _ _ Hsid) as (Hne&Hgm&Hw).
  destruct (Map_delete sock (Session.players s)) as [|[firstId first] l] eqn:Hd.
  - (* the session is deleted *)
    split; simpl.
    + intros sid' s'. rewrite sessions_cancel. simpl.
      intros [_ Hl]%lookup_delete_Some. by eapply Hs.
    + intros sock' sid'. rewrite socket_sessionId_cancel, sessions_cancel. simpl.
      intros [Hsock Hl]%lookup_delete_Some.
      destruct (Hk _ _ Hl) as (s'&Hs'&Hin). exists s'. split; [|done].
      rewrite lookup_delete_ne; [done|]. intros <-. simplify_eq.
      assert (sock' ∈ Map_keys (Map_delete sock (Session.players s))) as Hin'
        by (apply elem_of_Map_keys_delete; split; [congruence|done]).
      rewrite Hd in Hin'. by apply elem_of_nil in Hin'.
    + intros h sid' [Hl Hh]%timers_cancel_Some. rewrite sessions_cancel. simpl.
      destruct (Ht _ _ Hl) as (s'&Hs'&?&?). exists s'. split; [|done].
      rewrite lookup_delete_ne; [done|]. intros <-. simplify_eq.
  - (* the session stays *)
    set (s2 := if String.eqb sock (Session.gm s) then _ else _).
    set (σ2 := set_sessions _ _).
    assert (Session.players s2 = (firstId, first) :: l) as Hp2
      by (subst s2; by destruct (String.eqb sock (Session.gm s))).
    assert (Session.inProgress s2 = Session.inProgress s
            ∧ Session.timer s2 = Session.timer s
            ∧ Session.winner s2 = Session.winner s) as (Hi2&Ht2&Hw2)
      by (subst s2; by destruct (String.eqb sock (Session.gm s))).
    assert (wf σ2) as Hwf2.
    { split; subst σ2; simpl.
      + intros sid' s'. rewrite lookup_insert.
        case_decide; [intros [= <-]|by eapply Hs].
        split; [|split].
        * by rewrite Hp2.
        * subst s2. destruct (String.eqb_spec sock (Session.gm s)); simpl.
          -- rewrite Hd. apply list_elem_of_here.
          -- apply elem_of_Map_keys_delete. split; [congruence|done].
        * rewrite Hi2, Hw2. done.
      + intros sock' sid'. intros [Hsock Hl]%lookup_delete_Some.
        destruct (Hk _ _ Hl) as (s'&Hs'&Hin).
        destruct (decide (sessionId = sid')) as [<-|Hne'].
        * rewrite lookup_insert_eq. eexists; split; [done|].
          rewrite Hp2, <- Hd. apply elem_of_Map_keys_delete.
          split; [congruence|]. congruence.
        * rewrite lookup_insert_ne by done. eauto.
      + intros h sid' Hl. destruct (Ht _ _ Hl) as (s'&Hs'&?&?).
        destruct (decide (sessionId = sid')) as [<-|Hne'].
        * rewrite lookup_insert_eq. eexists; split; [done|].
          rewrite Hi2, Ht2. split; congruence.
        * rewrite lookup_insert_ne by done. eauto. }
    destruct (_ && _); [|done]. by apply endGame_wf, wf_wf_ending.
Qed.

Lemma leave_session_wf sock σ : wf σ → wf (leave_session sock σ).1.
Proof.
  intros Hwf. unfold leave_session.
  destruct (current_sessionId σ sock) as [sid|]; [|done].
  pose proof (leaveSessionByUser_fst sid sock σ) as Heq.
  destruct (leaveSessionByUser sid sock σ) as [σ' o]. simpl in *. subst σ'.
  destruct (thrown o); by apply departed_wf.
Qed.

Lemma disconnect_wf sock σ : wf σ → wf (disconnect sock σ).1.
Proof.
  intros Hwf. unfold disconnect.
  destruct (current_sessionId _ sock) as [sid|].
  - rewrite leaveSessionOnDisconnect_fst. by apply departed_wf, wf_set_rooms.
  - by apply wf_set_rooms.
Qed.

(** Replacing a live session by one with the same players in the same order,
    the same round state and an admissible GM keeps the server well formed. *)
Lemma wf_replace sid s s' σ :
  wf σ → sessions σ !! sid = Some s →
  Map_keys (Session.players s') = Map_keys (Session.players s) →
  Session.gm s' ∈ Map_keys (Session.players s') →
  Session.inProgress s' = Session.inProgress s →
  Session.timer s' = Session.timer s →
  (Session.inProgress s' = true → Session.winner s' = None) →
  wf (set_sessions (<[sid := s']>) σ).
Proof.
  intros [Hs Hk Ht] Hsid Hkeys Hgm Hip Htm Hw. split; simpl.
  - intros sid' s0. rewrite lookup_insert. case_decide; intros Hl; simplify_eq;
      [|by eapply Hs].
    split; [|done]. apply keys_not_nil. rewrite Hkeys. apply keys_not_nil.
    by destruct (Hs _ _ Hsid).
  - intros sock' sid' Hl. destruct (Hk _ _ Hl) as (s0&Hs0&Hin).
    destruct (decide (sid = sid')) as [<-|Hne'].
    + rewrite lookup_insert_eq. eexists; split; [done|]. rewrite Hkeys. congruence.
    + rewrite lookup_insert_ne by done. eauto.
  - intros h sid' Hl. destruct (Ht _ _ Hl) as (s0&Hs0&?&?).
    destruct (decide (sid = sid')) as [<-|Hne'].
    + rewrite lookup_insert_eq. eexists; split; [done|].
      rewrite Hip, Htm. split; congruence.
    + rewrite lookup_insert_ne by done. eauto.
Qed.

Lemma set_question_wf sock q a σ : wf σ → wf (set_question sock q a σ).1.
Proof.
  intros Hwf. unfold set_question.
  destruct (current_sessionId σ sock) as [sid|]; [|done].
  destruct (sessions σ !! sid) as [s|] eqn:Hsid; [|no_session].
  destruct (negb _); [done|]. destruct (Session.inProgress s) eqn:Hip; [done|].
  destruct (_ || _); [done|]. simpl.
  destruct (wf_sessions _ Hwf _ _ Hsid) as (?&?&?).
  by eapply wf_replace.
Qed.

Lemma get_session_state_wf sock σ : wf σ → wf (get_session_state sock σ).1.
Proof.
  intros Hwf. unfold get_session_state.
  destruct (current_sessionId σ sock) as [sid|]; [|done].
  destruct (sessions σ !! sid); no_session.
Qed.

Lemma wf_ending_replace sid s s' σ :
  wf σ → sessions σ !! sid = Some s →
  Map_keys (Session.players s') = Map_keys (Session.players s) →
  Session.timer s' = Session.timer s →
  wf_ending sid (set_sessions (<[sid := s']>) σ).
Proof.
  intros [Hs Hk Ht] Hsid Hkeys Htm. split; simpl.
  - intros sid' s0. rewrite lookup_insert. case_decide; intros Hl; simplify_eq.
    + split; [|done]. apply keys_not_nil. rewrite Hkeys. apply keys_not_nil.
      by destruct (Hs _ _ Hsid).
    + destruct (Hs _ _ Hl). by split.
  - intros sock' sid' Hl. destruct (Hk _ _ Hl) as (s0&Hs0&Hin).
    destruct (decide (sid = sid')) as [<-|Hne'].
    + rewrite lookup_insert_eq. eexists; split; [done|]. rewrite Hkeys. congruence.
    + rewrite lookup_insert_ne by done. eauto.
  - intros h sid' Hl. destruct (Ht _ _ Hl) as (s0&Hs0&?&?).
    destruct (decide (sid = sid')) as [<-|Hne'].
    + rewrite lookup_insert_eq. eexists; split; [done|].
      rewrite Htm. split; [congruence|done].
    + rewrite lookup_insert_ne by done. eauto.
Qed.

Lemma start_game_wf sock σ : wf σ → wf (start_game sock σ).1.
Proof.
  intros Hwf. pose proof Hwf as [Hs Hk Ht]. unfold start_game.
  destruct (current_sessionId σ sock) as [sid|]; [|done].
  destruct (sessions σ !! sid) as [s|] eqn:Hsid; [|no_session].
  destruct (negb _); [done|]. destruct (Session.inProgress s) eqn:Hip; [done|].
  destruct (Nat.ltb _ _); [done|]. destruct (_ || _); [done|]. simpl.
  destruct (Hs _ _ Hsid) as (Hne&Hgm&Hw).
  set (σ' := set_sessions _ _).
  assert (wf σ') as Hwf'; [|by destruct (Map_get _ _)].
  subst σ'. split; simpl.
  - intros sid' s'. rewrite lookup_insert. case_decide; intros Hl; simplify_eq.
    + split; [|split]; simpl; [|by rewrite Map_keys_forEach|done].
      apply keys_not_nil. rewrite Map_keys_forEach. by apply keys_not_nil.
    + by eapply Hs.
  - intros sock' sid' Hl. destruct (Hk _ _ Hl) as (s0&Hs0&Hin).
    destruct (decide (sid = sid')) as [<-|Hne'].
    + rewrite lookup_insert_eq. eexists; split; [done|]. simpl.
      rewrite Map_keys_forEach. congruence.
    + rewrite lookup_insert_ne by done. eauto.
  - intros h sid'. rewrite lookup_insert. case_decide; intros Hl; simplify_eq.
    + rewrite lookup_insert_eq. eexists; split; [done|]. done.
    + destruct (Ht _ _ Hl) as (s0&Hs0&Hi0&?).
      destruct (decide (sid = sid')) as [<-|Hne']; [congruence|].
      rewrite lookup_insert_ne by done. eauto.
Qed.

Lemma guess_wf sock g σ : wf σ → wf (guess sock g σ).1.
Proof.
  intros Hwf. unfold guess.
  destruct (current_sessionId σ sock) as [sid|]; [|done].
  destruct (sessions σ !! sid) as [s|] eqn:Hsid; [|no_session].
  destruct (Session.inProgress s) eqn:Hip; [|done]. simpl.
  destruct (Map_get sock (Session.players s)) as [p|] eqn:Hp; [|done].
  destruct (Z.leb _ _); [done|]. destruct (negb _); [done|].
  destruct (wf_sessions _ Hwf _ _ Hsid) as (Hne&Hgm&Hw).
  set (p' := Player.set_attemptsLeft _ p).
  set (s1 := Session.set_players _ s).
  assert (Map_keys (Session.players s1) = Map_keys (Session.players s)) as Hk1
    by (by eapply Map_keys_set_present).
  assert (wf (set_sessions (<[sid := s1]>) σ)) as Hwf1.
  { eapply wf_replace; try done. by rewrite Hk1. }
  destruct (guess_decide _ _ _ _ _ _) as [σ' o2] eqn:Hdec. simpl.
  unfold guess_decide in Hdec.
  destruct (decide _) in Hdec.
  - destruct (negb _) in Hdec; [|by simplify_eq].
    pose proof (endGame_wf sid "correct_guess" (Some sock)
      (set_sessions (<[sid := Session.set_winner (Some sock) s1]>)
         (set_sessions (<[sid := s1]>) σ))) as Hend.
    rewrite Hdec in Hend. apply Hend.
    apply (wf_ending_replace sid s1); [done| |done..].
    simpl. apply lookup_insert_eq.
  - destruct (Z.leb _ _) in Hdec; by simplify_eq.
Qed.

Lemma timer_fires_wf h σ : wf σ → wf (timer_fires h σ).1.
Proof.
  intros Hwf. unfold timer_fires.
  destruct (timers σ !! h) as [sid|] eqn:Hh; [|done].
  apply endGame_wf, wf_wf_ending. destruct Hwf as [Hs Hk Ht].
  split; simpl; [done..|].
  intros h' sid' [_ Hl]%lookup_delete_Some. eauto.
Qed.

Lemma handle_wf e σ : wf σ → wf (handle e σ).1.
Proof.
  destruct e; simpl;
    auto using create_session_wf, join_session_wf, leave_session_wf,
      set_question_wf, start_game_wf, guess_wf, get_session_state_wf,
      disconnect_wf, timer_fires_wf.
Qed.

Lemma init_wf : wf init.
Proof. split; simpl; intros ? ?; by rewrite lookup_empty. Qed.

Lemma reachable_wf σ : reachable σ → wf σ.
Proof. induction 1; [apply init_wf | by apply handle_wf]. Qed.

Lemma reachable_run es σ : reachable σ → reachable (run es σ).1.
Proof.
  revert σ. induction es as [|e es IH]; intros σ Hr; [done|]. simpl.
  pose proof (reachable_step σ e Hr) as Hr1.
  destruct (handle e σ) as [σ1 o1]. specialize (IH σ1 Hr1).
  destruct (thrown o1); [done|]. by destruct (run es σ1).
Qed.

(** ** Sessions a handler does not touch *)

Lemma endGame_other sid sid' reason w σ :
  sid' ≠ sid → sessions (endGame sid reason w σ).1 !! sid' = sessions σ !! sid'.
Proof.
  intros Hne. destruct (sessions σ !! sid) as [s|] eqn:Hsid.
  - rewrite (endGame_fst _ _ _ _ _ Hsid). simpl.
    by rewrite lookup_insert_ne, sessions_cancel.
  - by rewrite endGame_None.
Qed.

Lemma departed_other sid sid' sock σ :
  sid' ≠ sid → sessions (departed sid sock σ) !! sid' = sessions σ !! sid'.
Proof.
  intros Hne. unfold departed.
  destruct (sessions σ !! sid) as [s|] eqn:Hsid; [|no_session]. simpl.
  destruct (Map_delete sock (Session.players s)) as [|[firstId first] l].
  - simpl. by rewrite lookup_delete_ne, sessions_cancel.
  - destruct (_ && _).
    + rewrite endGame_other by done. simpl. by rewrite lookup_insert_ne.
    + simpl. by rewrite lookup_insert_ne.
Qed.

Lemma departed_idle_winner sid sock σ s s' :
  sessions σ !! sid = Some s → Session.inProgress s = false →
  sessions (departed sid sock σ) !! sid = Some s' →
  Session.winner s' = Session.winner s.
Proof.
  intros Hsid Hip. unfold departed. rewrite Hsid, Hip. simpl.
  destruct (Map_delete sock (Session.players s)) as [|[firstId first] l]; simpl.
  - rewrite sessions_cancel. simpl. by rewrite lookup_delete_eq.
  - rewrite lookup_insert_eq. intros [= <-].
    by destruct (String.eqb sock (Session.gm s)).
Qed.

Lemma current_sessionId_Some σ sock sid :
  current_sessionId σ sock = Some sid →
  socket_sessionId σ !! sock = Some sid ∧ truthy sid = true.
Proof.
  unfold current_sessionId. destruct (socket_sessionId σ !! sock) as [x|]; [|done].
  destruct (truthy x) eqn:Hx; [|done]. by intros [= <-].
Qed.

Lemma start_game_fst sock σ :
  (start_game sock σ).1 = σ
  ∨ ∃ sid s, current_sessionId σ sock = Some sid
      ∧ sessions σ !! sid = Some s ∧ Session.inProgress s = false
      ∧ Session.gm s = sock
      ∧ (start_game sock σ).1
        = set_sessions (<[sid := started (next_timer σ) s]>) (setTimeout sid σ).2.
Proof.
  unfold start_game.
  destruct (current_sessionId σ sock) as [sid|]; [|by left].
  destruct (sessions σ !! sid) as [s|] eqn:Hsid; [|try destruct (inherited _); by left].
  destruct (String.eqb_spec (Session.gm s) sock); simpl; [|by left].
  destruct (Session.inProgress s) eqn:Hip; [by left|].
  destruct (Nat.ltb _ _); [by left|]. destruct (_ || _); [by left|].
  right. exists sid, s. repeat split; try done. simpl.
  by destruct (Map_get _ _).
Qed.

(** A session whose winner is set keeps it until a new round starts. *)
Lemma winner_kept σ sid s w e s' :
  wf σ → sessions σ !! sid = Some s → Session.winner s = Some w →
  sessions (handle e σ).1 !! sid = Some s' →
  Session.winner s' = Some w
  ∨ (∃ sock, e = ev_start_game sock)
    ∧ Session.inProgress s' = true ∧ Session.winner s' = None.
Proof.
  intros Hwf Hsid Hw.
  assert (Session.inProgress s = false) as Hip.
  { destruct (wf_sessions _ Hwf _ _ Hsid) as (_&_&Hi).
    destruct (Session.inProgress s); [|done]. specialize (Hi eq_refl). congruence. }
  destruct e as [sock nm sessionId r36|sock sessionId nm|sock|sock q a|sock
                |sock g|sock|sock|h|sock]; simpl;
    [| | | | | | | | |intros; left; congruence].
  - (* create_session *)
    unfold create_session.
    set (sid0 := candidate_id sessionId r36).
    destruct (sessions σ !! sid0) eqn:H0; simpl.
    + intros Hl. left. congruence.
    + destruct (inherited sid0); simpl; [intros; left; congruence|].
      rewrite lookup_insert_ne by congruence. intros Hl. left. congruence.
  - (* join_session *)
    unfold join_session. set (sid0 := trim _).
    destruct (sessions σ !! sid0) as [s0|] eqn:H0; simpl;
      [|destruct (inherited sid0); simpl; intros; left; congruence].
    destruct (Session.inProgress s0); simpl; [intros; left; congruence|].
    rewrite lookup_insert. case_decide; intros Hl; left; simplify_eq; done.
  - (* leave_session *)
    rewrite leave_session_fst.
    destruct (current_sessionId σ sock) as [sid0|]; simpl; [|intros; left; congruence].
    destruct (decide (sid = sid0)) as [<-|Hne].
    + intros Hl. left. rewrite <- Hw. by eapply departed_idle_winner.
    + rewrite departed_other by done. intros; left; congruence.
  - (* set_question *)
    unfold set_question.
    destruct (current_sessionId σ sock) as [sid0|]; simpl; [|intros; left; congruence].
    destruct (sessions σ !! sid0) as [s0|] eqn:H0; simpl;
      [|destruct (inherited sid0); simpl; intros; left; congruence].
    destruct (negb _); simpl; [intros; left; congruence|].
    destruct (Session.inProgress s0); simpl; [intros; left; congruence|].
    destruct (_ || _); simpl; [intros; left; congruence|].
    rewrite lookup_insert. case_decide; intros Hl; left; simplify_eq; done.
  - (* start_game *)
    destruct (start_game_fst sock σ) as [->|(sid0&s0&_&H0&_&_&->)];
      [intros; left; congruence|].
    simpl. rewrite lookup_insert. case_decide; intros Hl; simplify_eq.
    + right. eauto.
    + left. congruence.
  - (* guess *)
    unfold guess.
    destruct (current_sessionId σ sock) as [sid0|]; simpl; [|intros; left; congruence].
    destruct (sessions σ !! sid0) as [s0|] eqn:H0; simpl; [|intros; left; congruence].
    destruct (Session.inProgress s0) eqn:Hip0; simpl; [|intros; left; congruence].
    assert (sid ≠ sid0) as Hne by congruence.
    destruct (Map_get sock (Session.players s0)); simpl; [|intros; left; congruence].
    destruct (Z.leb _ _); simpl; [intros; left; congruence|].
    destruct (negb _); simpl; [intros; left; congruence|].
    destruct (guess_decide _ _ _ _ _ _) as [σ' o2] eqn:Hdec. simpl.
    unfold guess_decide in Hdec. intros Hl. left.
    assert (sessions σ' !! sid = sessions σ !! sid) as Hsame; [|congruence].
    destruct (decide _) in Hdec.
    + destruct (negb _) in Hdec.
      * apply (f_equal fst) in Hdec. simpl in Hdec. rewrite <- Hdec.
        rewrite endGame_other by done. simpl. by rewrite !lookup_insert_ne.
      * simplify_eq. simpl. by rewrite lookup_insert_ne.
    + destruct (Z.leb _ _) in Hdec; simplify_eq; simpl; by rewrite lookup_insert_ne.
  - (* get_session_state *)
    unfold get_session_state.
    destruct (current_sessionId σ sock) as [sid0|]; simpl; [|intros; left; congruence].
    destruct (sessions σ !! sid0); simpl; [|destruct (inherited sid0); simpl];
      intros; left; congruence.
  - (* disconnect *)
    unfold disconnect.
    destruct (current_sessionId _ sock) as [sid0|]; simpl; [|intros; left; congruence].
    rewrite leaveSessionOnDisconnect_fst.
    destruct (decide (sid = sid0)) as [<-|Hne].
    + intros Hl. left. rewrite <- Hw.
      eapply (departed_idle_winner sid sock (set_rooms _ σ)); [exact Hsid|done|exact Hl].
    + rewrite departed_other by done. intros; left; simpl in *; congruence.
  - (* the timer *)
    unfold timer_fires. destruct (timers σ !! h) as [sid0|] eqn:Hh;
      simpl; [|intros; left; congruence].
    destruct (wf_timers _ Hwf _ _ Hh) as (s0&Hs0&Hi0&_).
    assert (sid ≠ sid0) as Hne by congruence.
    rewrite endGame_other by done. simpl. intros; left; congruence.
Qed.

(** ** The guess handler *)

Lemma guess_accepted σ sock g sid s p :
  current_sessionId σ sock = Some sid →
  sessions σ !! sid = Some s →
  Session.inProgress s = true →
  Map_get sock (Session.players s) = Some p →
  0 < Player.attemptsLeft p →
  truthy (trim (js_or g EmptyString)) = true →
  let text := trim (js_or g EmptyString) in
  let p' := Player.set_attemptsLeft (λ a, a - 1) p in
  let s' := Session.set_players (Map_set sock p') s in
  let σ' := set_sessions (<[sid := s']>) σ in
  guess sock g σ
  = ((guess_decide sock sid (trim (toLowerCase text)) s' p' σ').1,
     [io_to σ' sid (system_message (guess_narration p' text));
      broadcastSessionState σ' s']
     ++ (guess_decide sock sid (trim (toLowerCase text)) s' p' σ').2).
Proof.
  intros Hc Hsid Hip Hp Hpos Htxt. simpl. unfold guess.
  rewrite Hc, Hsid, Hip, Hp. simpl.
  destruct (Z.leb_spec (Player.attemptsLeft p) 0); [lia|].
  rewrite Htxt. simpl. by destruct (guess_decide _ _ _ _ _ _).
Qed.

Lemma guess_no_attempts σ sock g sid s p :
  current_sessionId σ sock = Some sid →
  sessions σ !! sid = Some s →
  Session.inProgress s = true →
  Map_get sock (Session.players s) = Some p →
  Player.attemptsLeft p ≤ 0 →
  guess sock g σ = (σ, [to_socket sock (error_message "No attempts left.")]).
Proof.
  intros Hc Hsid Hip Hp Hle. unfold guess. rewrite Hc, Hsid, Hip, Hp. simpl.
  by destruct (Z.leb_spec (Player.attemptsLeft p) 0); [|lia].
Qed.

Lemma Map_set_elem {V} k (v v' : V) m :
  Map_get k m = Some v → (k, v') ∈ Map_set k v' m.
Proof.
  induction m as [|[k0 w] m IH]; simpl; [done|].
  destruct (String.eqb_spec k k0) as [->|Hne]; intros H.
  - apply list_elem_of_here.
  - apply list_elem_of_further. by apply IH.
Qed.

(** ** The winner and the Game Master *)

(** C1. Single-winner resolution. First part: in every reachable state, a
    session whose [winner] is set keeps that winner through every event; the
    only event after which it differs is a [start_game] that opens the next
    round with the winner cleared. Second part: when the guess handler
    evaluates a correct guess while [winner] is already set, the server
    changes only in the guesser's [attemptsLeft], which drops by one; the
    messages are the narration and the session state and nothing else, so
    there is no second winner, no second award and no second round end. *)
Theorem single_winner :
  (∀ σ sid s w e s',
     reachable σ → sessions σ !! sid = Some s → Session.winner s = Some w →
     sessions (handle e σ).1 !! sid = Some s' →
     Session.winner s' = Some w
     ∨ (∃ sock, e = ev_start_game sock)
       ∧ Session.inProgress s' = true ∧ Session.winner s' = None)
  ∧ (∀ σ sock g sid s p w,
       current_sessionId σ sock = Some sid →
       sessions σ !! sid = Some s →
       Session.inProgress s = true →
       Map_get sock (Session.players s) = Some p →
       0 < Player.attemptsLeft p →
       truthy (trim (js_or g EmptyString)) = true →
       Session.answer s
       = Some (trim (toLowerCase (trim (js_or g EmptyString)))) →
       Session.winner s = Some w → truthy w = true →
       let p' := Player.set_attemptsLeft (λ a, a - 1) p in
       let s' := Session.set_players (Map_set sock p') s in
       let σ' := set_sessions (<[sid := s']>) σ in
       guess sock g σ
       = (σ', [io_to σ' sid
                 (system_message
                    (guess_narration p' (trim (js_or g EmptyString))));
               broadcastSessionState σ' s'])
       ∧ Session.winner s' = Some w
       ∧ Session.inProgress s' = true
       ∧ Session.gm s' = Session.gm s
       ∧ ∀ k q, Map_get k (Session.players s') = Some q →
           ∃ q0, Map_get k (Session.players s) = Some q0
                 ∧ Player.score q = Player.score q0).
Proof.
  split.
  - intros σ sid s w e s' Hr. apply winner_kept. by apply reachable_wf.
  - intros σ sock g sid s p w Hc Hsid Hip Hp Hpos Htxt Hans Hw Htw p' s' σ'.
    split; [|repeat split; try done].
    + rewrite (guess_accepted σ sock g sid s p) by done.
      fold p' s' σ'. unfold guess_decide.
      destruct (decide _) as [_|Hno]; [|by destruct Hno].
      assert (truthy_opt (Session.winner s') = true) as ->
        by (simpl; by rewrite Hw).
      done.
    + intros k q. subst s'. simpl.
      destruct (decide (k = sock)) as [->|Hne].
      * rewrite Map_get_set_eq. intros [= <-]. eauto.
      * rewrite Map_get_set_ne by done. eauto.
Qed.

Lemma single_winner_witness :
  (∀ s', sessions (handle (ev_guess "A" (Some "paris")) round_won).1 !! "room"
         = Some s' →
         Session.winner s' = Some "B"
         ∨ (∃ sock, ev_guess "A" (Some "paris") = ev_start_game sock)
           ∧ Session.inProgress s' = true ∧ Session.winner s' = None)
  ∧ Session.winner <$> (sessions (guess "B" (Some " paris ") raced).1 !! "room")
    = Some (Some "A").
Proof.
  split.
  - intros s'. eapply (proj1 single_winner round_won "room").
    + apply reachable_run, reachable_init.
    + vm_compute. reflexivity.
    + reflexivity.
  - edestruct (proj2 single_winner raced "B" (Some " paris ") "room")
      as (Heq&_); [vm_compute; reflexivity..|].
    rewrite Heq. vm_compute. reflexivity.
Defined.

(** C2. GM membership: in every reachable state, a live session with a
    non-empty [players] map has its [gm] among the keys of that map. (No
    reachable state holds a session with an empty map.) *)
Theorem gm_is_a_player σ sid s :
  reachable σ → sessions σ !! sid = Some s → Session.players s ≠ [] →
  Session.gm s ∈ Map_keys (Session.players s).
Proof.
  intros Hr Hsid _. by destruct (wf_sessions _ (reachable_wf _ Hr) _ _ Hsid) as (_&?&_).
Qed.

Lemma gm_is_a_player_witness :
  ∃ s, sessions round_won !! "room" = Some s
       ∧ Session.gm s ∈ Map_keys (Session.players s).
Proof.
  eexists. split; [vm_compute; reflexivity|].
  apply (gm_is_a_player round_won "room").
  - apply reachable_run, reachable_init.
  - vm_compute. reflexivity.
  - discriminate.
Defined.

(** ** Attempts *)

(** C3. Attempt accounting in an in-progress round. With no attempt left
    the guess is rejected with the no-attempts-left error and the server is
    unchanged. Otherwise, for a guess that is non-empty once trimmed, the
    stored [attemptsLeft] of the guesser drops by exactly one before the
    comparison: the handler is the comparison step run on the server with
    the attempt already taken, the session state published before the
    comparison lists the guesser with one attempt less, and after a guess
    that does not match, that server is the result. *)
Theorem attempt_accounting σ sock g sid s p :
  current_sessionId σ sock = Some sid →
  sessions σ !! sid = Some s →
  Session.inProgress s = true →
  Map_get sock (Session.players s) = Some p →
  (Player.attemptsLeft p ≤ 0 →
   guess sock g σ = (σ, [to_socket sock (error_message "No attempts left.")]))
  ∧ (0 < Player.attemptsLeft p →
     truthy (trim (js_or g EmptyString)) = true →
     let text := trim (js_or g EmptyString) in
     let p' := Player.set_attemptsLeft (λ a, a - 1) p in
     let s' := Session.set_players (Map_set sock p') s in
     let σ' := set_sessions (<[sid := s']>) σ in
     Player.attemptsLeft p' = Player.attemptsLeft p - 1
     ∧ Map_get sock (Session.players s') = Some p'
     ∧ guess sock g σ
       = ((guess_decide sock sid (trim (toLowerCase text)) s' p' σ').1,
          [io_to σ' sid (system_message (guess_narration p' text));
           broadcastSessionState σ' s']
          ++ (guess_decide sock sid (trim (toLowerCase text)) s' p' σ').2)
     ∧ mkPlayerView (Player.id p) (Player.name p) (Player.score p)
         (Player.attemptsLeft p - 1)
         (String.eqb (Player.id p) (Session.gm s))
       ∈ sv_players (project s')
     ∧ (Session.answer s ≠ Some (trim (toLowerCase text)) →
        (guess sock g σ).1 = σ')).
Proof.
  intros Hc Hsid Hip Hp. split.
  - intros Hle. by apply (guess_no_attempts σ sock g sid s p).
  - intros Hpos Htxt text p' s' σ'.
    pose proof (guess_accepted σ sock g sid s p Hc Hsid Hip Hp Hpos Htxt) as Hg.
    fold text p' s' σ' in Hg. split; [done|]. split; [apply Map_get_set_eq|].
    split; [done|]. split.
    + unfold project. simpl.
      apply (list_elem_of_fmap_2
               (λ kp : string * Player.t,
                  mkPlayerView (Player.id kp.2) (Player.name kp.2)
                    (Player.score kp.2) (Player.attemptsLeft kp.2)
                    (String.eqb (Player.id kp.2) (Session.gm s)))
               _ (sock, p')).
      by eapply Map_set_elem.
    + intros Hno. rewrite Hg. simpl. unfold guess_decide.
      destruct (decide _) as [Hyes|_]; [by destruct Hno|].
      by destruct (Z.leb _ _).
Qed.

Lemma attempt_accounting_witness :
  Player.attemptsLeft
  <$> (sessions (guess "B" (Some "London") round_open).1 !! "room"
       ≫= λ s, Map_get "B" (Session.players s))
  = Some 2.
Proof.
  edestruct (attempt_accounting round_open "B" (Some "London") "room")
    as (_&Hok); [vm_compute; reflexivity..|].
  specialize (Hok eq_refl eq_refl). cbv zeta in Hok.
  destruct Hok as (_&_&_&_&Heq).
  rewrite Heq; [vm_compute; reflexivity|vm_compute; discriminate].
Defined.

(** ** The rotation *)

Lemma rotate_gm_following pre g x post :
  g ∉ pre → rotate_gm (pre ++ g :: x :: post) g = x.
Proof.
  intros Hni.
  destruct (pre ++ g :: x :: post) as [|first l] eqn:Hl; [by destruct pre|].
  assert (indexOf (first :: l) g = Z.of_nat (length pre)) as Hi
    by (rewrite <- Hl; by apply indexOf_first).
  assert (length (first :: l) = (length pre + S (S (length post)))%nat) as Hlen
    by (by rewrite <- Hl, length_app).
  unfold rotate_gm. rewrite Hi, Hlen.
  destruct (Z.leb_spec 0 (Z.of_nat (length pre))); [|lia].
  rewrite Z.mod_small by lia.
  replace (Z.to_nat (Z.of_nat (length pre) + 1)) with (length pre + 1)%nat by lia.
  rewrite <- Hl, (app_nth2 pre) by lia.
  by replace (length pre + 1 - length pre)%nat with 1%nat by lia.
Qed.

Lemma rotate_gm_wrapping pre g first rest :
  g ∉ pre → pre ++ [g] = first :: rest → rotate_gm (pre ++ [g]) g = first.
Proof.
  intros Hni Hl.
  assert (indexOf (first :: rest) g = Z.of_nat (length pre)) as Hi
    by (rewrite <- Hl; by apply indexOf_first).
  assert (length (first :: rest) = (length pre + 1)%nat) as Hlen
    by (by rewrite <- Hl, length_app).
  rewrite Hl. unfold rotate_gm. rewrite Hi, Hlen.
  destruct (Z.leb_spec 0 (Z.of_nat (length pre))); [|lia].
  replace (Z.of_nat (length pre + 1)) with (Z.of_nat (length pre) + 1) by lia.
  by rewrite Z.mod_same by lia.
Qed.

Lemma rotate_gm_absent g first rest :
  g ∉ first :: rest → rotate_gm (first :: rest) g = first.
Proof.
  intros Hni. unfold rotate_gm. rewrite (indexOf_absent _ _ Hni). done.
Qed.

Lemma rotate_gm_next ids g :
  ids ≠ [] → next_in_join_order ids g (rotate_gm ids g).
Proof.
  intros Hne. destruct (decide (g ∈ ids)) as [Hin|Hni].
  - apply list_elem_of_split_l in Hin as (pre&post&->&Hpre).
    destruct post as [|x post].
    + destruct (pre ++ [g]) as [|first rest] eqn:Hl; [by destruct pre|].
      rewrite <- Hl, (rotate_gm_wrapping pre g first rest) by done.
      by eapply next_wrapping.
    + rewrite rotate_gm_following by done. by apply next_following.
  - destruct ids as [|first rest]; [done|].
    rewrite rotate_gm_absent by done. by eapply next_absent.
Qed.

Lemma endGame_rotation σ sid s reason w :
  sessions σ !! sid = Some s → Session.players s ≠ [] →
  ∃ s', sessions (endGame sid reason w σ).1 !! sid = Some s'
        ∧ Map_keys (Session.players s') = Map_keys (Session.players s)
        ∧ next_in_join_order (Map_keys (Session.players s))
            (Session.gm s) (Session.gm s').
Proof.
  intros Hsid Hne. exists (ended w s). split; [|split].
  - rewrite (endGame_fst _ _ _ _ _ Hsid). simpl. apply lookup_insert_eq.
  - apply ended_keys.
  - rewrite ended_gm. by apply rotate_gm_next, keys_not_nil.
Qed.

Lemma next_in_singleton k g : next_in_join_order [k] g k.
Proof.
  destruct (decide (g = k)) as [->|Hne].
  - apply (next_wrapping [] k k []); [apply not_elem_of_nil|reflexivity].
  - apply next_absent. by rewrite list_elem_of_singleton.
Qed.

Lemma rotate_gm_singleton k g : rotate_gm [k] g = k.
Proof.
  assert (rotate_gm [k] g ∈ [k]) as H by (by apply rotate_gm_elem).
  by apply list_elem_of_singleton in H.
Qed.

Lemma departed_forced_end σ sid sock s k v :
  sessions σ !! sid = Some s → Session.inProgress s = true →
  Map_delete sock (Session.players s) = [(k, v)] →
  ∃ s', sessions (departed sid sock σ) !! sid = Some s'
        ∧ Map_keys (Session.players s') = [k]
        ∧ Session.inProgress s' = false
        ∧ next_in_join_order [k] (Session.gm s) (Session.gm s').
Proof.
  intros Hsid Hip Hd. unfold departed. rewrite Hsid. simpl. rewrite Hd, Hip. simpl.
  set (s2 := if String.eqb sock (Session.gm s) then _ else _).
  assert (Session.players s2 = [(k, v)]) as Hp2
    by (unfold s2; destruct (String.eqb sock (Session.gm s)); simpl; by rewrite Hd).
  exists (ended None s2).
  rewrite (endGame_fst _ _ _ _ s2) by (simpl; apply lookup_insert_eq).
  split; [simpl; apply lookup_insert_eq|].
  split; [by rewrite ended_keys, Hp2|].
  split; [by destruct (ended_fields None s2) as (->&_)|].
  rewrite ended_gm, Hp2. change (Map_keys [(k, v)]) with [k].
  rewrite rotate_gm_singleton.
  apply next_in_singleton.
Qed.

(** C4. GM rotation at round end. [endGame], for any reason and any winner,
    keeps the players and their join order and moves [gm] to the player
    immediately after the outgoing [gm] in that order, to the first player
    when the outgoing [gm] is last, and to the first player when the
    outgoing [gm] is not in the session. The same holds of the three ways a
    round ends: the timer, a correct guess when no winner is set, and a
    departure, by leave or by disconnection, that leaves one player in a
    round in progress. *)
Theorem gm_rotates_in_join_order :
  (∀ σ sid s reason w,
     sessions σ !! sid = Some s → Session.players s ≠ [] →
     ∃ s', sessions (endGame sid reason w σ).1 !! sid = Some s'
           ∧ Map_keys (Session.players s') = Map_keys (Session.players s)
           ∧ next_in_join_order (Map_keys (Session.players s))
               (Session.gm s) (Session.gm s'))
  ∧ (∀ σ h sid s,
       timers σ !! h = Some sid →
       sessions σ !! sid = Some s → Session.players s ≠ [] →
       ∃ s', sessions (timer_fires h σ).1 !! sid = Some s'
             ∧ Map_keys (Session.players s') = Map_keys (Session.players s)
             ∧ Session.inProgress s' = false
             ∧ next_in_join_order (Map_keys (Session.players s))
                 (Session.gm s) (Session.gm s'))
  ∧ (∀ σ sock g sid s p,
       current_sessionId σ sock = Some sid →
       sessions σ !! sid = Some s →
       Session.inProgress s = true →
       Map_get sock (Session.players s) = Some p →
       0 < Player.attemptsLeft p →
       truthy (trim (js_or g EmptyString)) = true →
       Session.answer s
       = Some (trim (toLowerCase (trim (js_or g EmptyString)))) →
       truthy_opt (Session.winner s) = false →
       ∃ s', sessions (guess sock g σ).1 !! sid = Some s'
             ∧ Map_keys (Session.players s') = Map_keys (Session.players s)
             ∧ Session.inProgress s' = false
             ∧ next_in_join_order (Map_keys (Session.players s))
                 (Session.gm s) (Session.gm s'))
  ∧ (∀ σ sid sock s k v σ',
       sessions σ !! sid = Some s → Session.inProgress s = true →
       Map_delete sock (Session.players s) = [(k, v)] →
       σ' = (leaveSessionByUser sid sock σ).1
       ∨ σ' = (leaveSessionOnDisconnect sock sid σ).1 →
       ∃ s', sessions σ' !! sid = Some s'
             ∧ Map_keys (Session.players s') = [k]
             ∧ Session.inProgress s' = false
             ∧ next_in_join_order [k] (Session.gm s) (Session.gm s')).
Proof.
  split; [|split; [|split]].
  - intros σ sid s reason w. apply endGame_rotation.
  - intros σ h sid s Hh Hsid Hne. unfold timer_fires. rewrite Hh.
    destruct (endGame_rotation (set_timers (delete h) σ) sid s
                "time_expired" None Hsid Hne) as (s'&H1&H2&H3).
    exists s'. repeat split; try done.
    rewrite (endGame_fst _ _ _ _ s) in H1 by done. simpl in H1.
    rewrite lookup_insert_eq in H1. injection H1 as <-.
    by destruct (ended_fields None s) as (->&_).
  - intros σ sock g sid s p Hc Hsid Hip Hp Hpos Htxt Hans Hw.
    rewrite (guess_accepted σ sock g sid s p) by done. simpl.
    unfold guess_decide. simpl.
    destruct (decide _) as [_|Hno]; [|by destruct Hno].
    rewrite Hw. simpl.
    set (s1 := Session.set_winner _ _). set (σ1 := set_sessions _ (set_sessions _ σ)).
    assert (sessions σ1 !! sid = Some s1) as H1 by (simpl; apply lookup_insert_eq).
    assert (Map_keys (Session.players s1) = Map_keys (Session.players s)) as Hk
      by (by eapply Map_keys_set_present).
    destruct (endGame_rotation σ1 sid s1 "correct_guess" (Some sock) H1)
      as (s'&H2&H3&H4).
    { apply keys_not_nil. rewrite Hk. apply keys_not_nil.
      intros Hnil. by rewrite Hnil in Hp. }
    exists s'. rewrite Hk in H3, H4. repeat split; try done.
    rewrite (endGame_fst _ _ _ _ s1) in H2 by done. simpl in H2.
    rewrite lookup_insert_eq in H2. injection H2 as <-.
    by destruct (ended_fields (Some sock) s1) as (->&_).
  - intros σ sid sock s k v σ' Hsid Hip Hd [->| ->].
    + rewrite leaveSessionByUser_fst. by eapply departed_forced_end.
    + rewrite leaveSessionOnDisconnect_fst. by eapply departed_forced_end.
Qed.

Lemma gm_rotates_in_join_order_witness :
  (∃ s', sessions (endGame "room" "time_expired" None round_open).1 !! "room"
         = Some s'
         ∧ Map_keys (Session.players s') = ["A"; "B"]
         ∧ next_in_join_order ["A"; "B"] "A" (Session.gm s'))
  ∧ (∃ s', sessions (leaveSessionByUser "room" "A" round_open).1 !! "room"
           = Some s'
           ∧ Map_keys (Session.players s') = ["B"]
           ∧ Session.inProgress s' = false
           ∧ next_in_join_order ["B"] "A" (Session.gm s')).
Proof.
  split.
  - edestruct (proj1 gm_rotates_in_join_order round_open "room")
      as (s'&H1&H2&H3); [vm_compute; reflexivity|discriminate|].
    exists s'. split; [exact H1|]. split; [exact H2|exact H3].
  - edestruct (proj2 (proj2 (proj2 gm_rotates_in_join_order))
                 round_open "room" "A") as (s'&H);
      [vm_compute; reflexivity|reflexivity|vm_compute; reflexivity
      |left; reflexivity|].
    exists s'. exact H.
Defined.

(** ** Leaving and disconnecting *)

Lemma received_app x o1 o2 : received x (o1 ++ o2) = received x o1 ++ received x o2.
Proof. apply omap_app. Qed.

Lemma delivered_io_to_iff x σ1 σ2 room m :
  (x ∈ members σ1 room ↔ x ∈ members σ2 room) →
  delivered x (io_to σ1 room m) = delivered x (io_to σ2 room m).
Proof. intros H. unfold io_to. simpl. repeat case_decide; tauto. Qed.

Lemma delivered_io_to x σ1 σ2 room m :
  agree x σ1 σ2 → delivered x (io_to σ1 room m) = delivered x (io_to σ2 room m).
Proof. intros Ha. apply delivered_io_to_iff, (agree_rooms _ _ _ Ha). Qed.

Lemma agree_set_sessions x f σ1 σ2 :
  agree x σ1 σ2 → agree x (set_sessions f σ1) (set_sessions f σ2).
Proof. intros [? ? ? ? ? ?]. split; simpl; by try congruence. Qed.

Lemma agree_cancel x t σ1 σ2 :
  agree x σ1 σ2 → agree x (cancel t σ1) (cancel t σ2).
Proof. intros [? ? ? ? ? ?]. destruct t; split; simpl; by try congruence. Qed.

Lemma received_cons_eq x e e' o o' :
  delivered x e = delivered x e' → received x o = received x o' →
  received x (e :: o) = received x (e' :: o').
Proof.
  intros He Ho.
  change (received x (e :: o))
    with (match delivered x e with
          | Some m => m :: received x o
          | None => received x o
          end).
  change (received x (e' :: o'))
    with (match delivered x e' with
          | Some m => m :: received x o'
          | None => received x o'
          end).
  by rewrite He, Ho.
Qed.

Lemma received_to_other x sock m o : x ≠ sock → received x (to_socket sock m :: o) = received x o.
Proof.
  intros Hne.
  change (received x (to_socket sock m :: o))
    with (match delivered x (to_socket sock m) with
          | Some m => m :: received x o
          | None => received x o
          end).
  simpl. by case_decide.
Qed.

Lemma endGame_agree x sid reason w σ1 σ2 :
  agree x σ1 σ2 →
  agree x (endGame sid reason w σ1).1 (endGame sid reason w σ2).1
  ∧ received x (endGame sid reason w σ1).2 = received x (endGame sid reason w σ2).2.
Proof.
  intros Ha. unfold endGame. rewrite <- (agree_sessions _ _ _ Ha).
  destruct (sessions σ1 !! sid) as [s|]; [|no_session]. step_eval.
  pose proof (agree_cancel x (Session.timer s) _ _ Ha) as Hc. unfold cancel in Hc.
  split.
  - by apply agree_set_sessions.
  - apply received_cons_eq; [by apply delivered_io_to|].
    apply received_cons_eq; [|done].
    by apply delivered_io_to, agree_set_sessions.
Qed.

Lemma members_socket_leave σ sock room room' :
  members (socket_leave sock room σ) room'
  = if decide (room = room') then members σ room ∖ {[sock]} else members σ room'.
Proof.
  unfold members, socket_leave. simpl. rewrite lookup_insert.
  case_decide; by subst.
Qed.

(** The server once [sock] is out of [room] and its properties are deleted. *)
Lemma agree_detached x sock room σ1 σ2 :
  agree x σ1 σ2 → agree x (detached sock room σ1) (detached sock room σ2).
Proof.
  intros [? ? ? ? ? Hr]. split; simpl; try congruence.
  intros room'. change (x ∈ members (socket_leave sock room σ1) room'
                        ↔ x ∈ members (socket_leave sock room σ2) room').
  rewrite !members_socket_leave. case_decide; [|done].
  rewrite !elem_of_difference. by rewrite Hr.
Qed.

Lemma members_detached x sock room σ room' :
  x ≠ sock → x ∈ members σ room' ↔ x ∈ members (detached sock room σ) room'.
Proof.
  intros Hne.
  change (x ∈ members σ room' ↔ x ∈ members (socket_leave sock room σ) room').
  rewrite members_socket_leave. case_decide; [subst|done].
  rewrite elem_of_difference, elem_of_singleton. tauto.
Qed.

Lemma leave_functions_agree x sock sid σ1 σ2 :
  x ≠ sock → agree x σ1 σ2 →
  agree x (leaveSessionByUser sid sock σ1).1
          (leaveSessionOnDisconnect sock sid σ2).1
  ∧ received x (leaveSessionByUser sid sock σ1).2
    = received x (leaveSessionOnDisconnect sock sid σ2).2.
Proof.
  intros Hne Ha. unfold leaveSessionByUser, leaveSessionOnDisconnect.
  rewrite <- (agree_sessions _ _ _ Ha).
  destruct (sessions σ1 !! sid) as [s|]; [|no_session].
  assert (departing_name σ2 s sock = departing_name σ1 s sock) as ->
    by (unfold departing_name; by rewrite (agree_playerName _ _ _ Ha)).
  fold (detached sock sid σ1). fold (detached sock sid σ2).
  pose proof (agree_detached x sock sid _ _ Ha) as Hd.
  assert (∀ m, delivered x (io_to σ1 sid m)
               = delivered x (io_to (detached sock sid σ2) sid m)) as Ho1.
  { intros m. apply delivered_io_to_iff.
    rewrite (members_detached x sock sid σ1 sid Hne).
    apply (agree_rooms _ _ _ Hd). }
  step_eval.
  destruct (Session.players (Session.set_players (Map_delete sock) s))
    as [|[firstId first] l] eqn:Hp.
  - split.
    + by apply agree_set_sessions, agree_cancel.
    + by apply received_cons_eq.
  - destruct (String.eqb sock
                (Session.gm (Session.set_players (Map_delete sock) s))).
    + step_eval.
      destruct (Session.inProgress _ && _).
      * pose proof (endGame_agree x sid "stopped_not_enough_players" None
                      _ _ (agree_set_sessions x
                             (<[sid := Session.set_gm firstId
                                  (Session.set_players (Map_delete sock) s)]>)
                             _ _ Hd)) as [He1 He2].
        destruct (endGame _ _ _ (set_sessions _ (detached sock sid σ1))) as [σe1 oe1].
        destruct (endGame _ _ _ (set_sessions _ (detached sock sid σ2))) as [σe2 oe2].
        split; [done|].
        apply received_cons_eq; [done|].
        apply received_cons_eq; [by apply delivered_io_to|done].
      * split; [by apply agree_set_sessions|].
        apply received_cons_eq; [done|].
        apply received_cons_eq; [by apply delivered_io_to|].
        apply received_cons_eq; [|done].
        by apply delivered_io_to, agree_set_sessions.
    + step_eval.
      destruct (Session.inProgress _ && _).
      * pose proof (endGame_agree x sid "stopped_not_enough_players" None
                      _ _ (agree_set_sessions x
                             (<[sid := Session.set_players (Map_delete sock) s]>)
                             _ _ Hd)) as [He1 He2].
        destruct (endGame _ _ _ (set_sessions _ (detached sock sid σ1))) as [σe1 oe1].
        destruct (endGame _ _ _ (set_sessions _ (detached sock sid σ2))) as [σe2 oe2].
        split; [done|].
        by apply received_cons_eq.
      * split; [by apply agree_set_sessions|].
        apply received_cons_eq; [done|].
        apply received_cons_eq; [|done].
        by apply delivered_io_to, agree_set_sessions.
Qed.

Lemma leave_disconnect_others σ sock x :
  x ≠ sock →
  agree x (leave_session sock σ).1 (disconnect sock σ).1
  ∧ received x (leave_session sock σ).2 = received x (disconnect sock σ).2.
Proof.
  intros Hne. unfold leave_session, disconnect.
  set (σc := set_rooms _ σ).
  assert (agree x σ σc) as Ha.
  { split; try done. intros room. unfold members, σc. simpl.
    rewrite lookup_fmap. destruct (rooms σ !! room) as [S|]; simpl; [|done].
    rewrite elem_of_difference, elem_of_singleton. tauto. }
  change (current_sessionId σc sock) with (current_sessionId σ sock).
  destruct (current_sessionId σ sock) as [sid|].
  - destruct (leave_functions_agree x sock sid σ σc Hne Ha) as [H1 H2].
    destruct (leaveSessionByUser sid sock σ) as [σ' o]. simpl in *.
    destruct (thrown o); simpl; (split; [done|]); [done|].
    rewrite received_app, H2.
    rewrite (received_to_other x sock _ [] Hne). apply app_nil_r.
  - split; [done|]. by apply received_to_other.
Qed.

(** C5, as stated, fails: for the departing socket itself the two paths
    emit different messages. On an explicit leave the message is emitted
    before the removal and reaches the leaver, followed by [left_session];
    on a disconnection nothing reaches it. *)
Lemma leave_disconnect_differ :
  (leave_session "B" lobby).2 ≠ (disconnect "B" lobby).2
  ∧ received "B" (leave_session "B" lobby).2
    = [system_message "Bob left the session."; left_session "room"]
  ∧ received "B" (disconnect "B" lobby).2 = [].
Proof.
  split; [|split; vm_compute; reflexivity].
  intros H. apply (f_equal length) in H. vm_compute in H. discriminate.
Qed.

Lemma endGame_sessionId sid reason w σ :
  socket_sessionId (endGame sid reason w σ).1 = socket_sessionId σ.
Proof.
  destruct (sessions σ !! sid) as [s|] eqn:Hsid.
  - rewrite (endGame_fst _ _ _ _ _ Hsid). simpl. apply socket_sessionId_cancel.
  - by rewrite endGame_None.
Qed.

Lemma departed_sessionId sid sock σ s :
  sessions σ !! sid = Some s →
  socket_sessionId (departed sid sock σ) = delete sock (socket_sessionId σ).
Proof.
  intros Hsid. unfold departed. rewrite Hsid. simpl.
  destruct (Map_delete sock (Session.players s)) as [|[firstId first] l]; simpl.
  - by rewrite socket_sessionId_cancel.
  - destruct (_ && _); [|done]. by rewrite endGame_sessionId.
Qed.

Lemma left_not_in_session σ sock :
  wf σ → current_sessionId (leave_session sock σ).1 sock = None.
Proof.
  intros Hwf. rewrite leave_session_fst.
  destruct (current_sessionId σ sock) as [sid|] eqn:Hc; [|done].
  destruct (current_sessionId_Some _ _ _ Hc) as [Hk _].
  destruct (wf_sockets _ Hwf _ _ Hk) as (s&Hsid&_).
  unfold current_sessionId. rewrite (departed_sessionId _ _ _ _ Hsid).
  by rewrite lookup_delete_eq.
Qed.

(** C6, as the code has it: once a socket has sent [leave_session], a
    second [leave_session] changes nothing on the server and is answered
    with one error message to that socket; a disconnection after the leave
    emits nothing and changes no session, socket property or timer: it only
    takes the socket out of the rooms it is still in. *)
Theorem second_departure σ sock :
  reachable σ →
  let σ1 := (leave_session sock σ).1 in
  leave_session sock σ1
  = (σ1, [to_socket sock (error_message "You are not currently in a session.")])
  ∧ disconnect sock σ1 = (set_rooms (fmap (λ S, S ∖ {[sock]})) σ1, []).
Proof.
  intros Hr σ1.
  pose proof (left_not_in_session σ sock (reachable_wf _ Hr)) as Hc. fold σ1 in Hc.
  split.
  - unfold leave_session. by rewrite Hc.
  - unfold disconnect.
    change (current_sessionId (set_rooms _ σ1) sock) with (current_sessionId σ1 sock).
    by rewrite Hc.
Qed.

Lemma second_departure_witness :
  (disconnect "B" (leave_session "B" lobby).1).2 = [].
Proof.
  destruct (second_departure lobby "B") as [_ H].
  - apply reachable_run, reachable_init.
  - by rewrite H.
Defined.

(** C6, as stated, fails: the second [leave_session] of a departed player
    is answered with an error message. *)
Lemma second_leave_is_an_error :
  (leave_session "B" (leave_session "B" lobby).1).2
  = [to_socket "B" (error_message "You are not currently in a session.")].
Proof. vm_compute. reflexivity. Qed.

(** ** Creating sessions *)

(** C10 on the code. With no id supplied, a generated candidate that names
    a live session makes [create_session] report the duplicate-id error and
    stop: nothing is retried, the registry is unchanged and the caller gets
    no session. And a supplied id that names no live session, on a server
    with no session at all, is reported as a duplicate when it is a
    property name of [Object.prototype]. *)
Lemma duplicate_id_without_retry :
  (candidate_id None "0.k3x9q2mz" = "k3x9q2"
   ∧ is_Some (sessions auto_created !! "k3x9q2")
   ∧ create_session "C" (Some "Cy") None "0.k3x9q2mz" auto_created
     = (auto_created, [to_socket "C" (error_message duplicate_id)]))
  ∧ (sessions init = ∅
     ∧ create_session "C" (Some "Cy") (Some "constructor") "0.k3x9q2mz" init
       = (init, [to_socket "C" (error_message duplicate_id)])).
Proof.
  split; [split; [reflexivity|]; split; [vm_compute; eauto|]|split; [done|]];
    vm_compute; reflexivity.
Qed.

(** ** Sockets that join or create twice *)

(** C8 on the code: a player who has scored and sends [join_session] for
    the session again is stored anew with score 0. *)
Lemma rejoin_resets_score :
  Player.score
  <$> (sessions round_won !! "room" ≫= λ s, Map_get "B" (Session.players s))
  = Some 10
  ∧ Player.score
    <$> (sessions (join_session "B" (Some "room") (Some "Bob") round_won).1 !! "room"
         ≫= λ s, Map_get "B" (Session.players s))
    = Some 0.
Proof. split; vm_compute; reflexivity. Qed.

(** C9 on the code: a socket that created session a and then session b
    is removed, when it disconnects, from b only; it stays a player, and the
    GM, of the live session a. *)
Lemma player_survives_disconnect :
  ∃ s, sessions (run ev_two_sessions init).1 !! "a" = Some s
       ∧ Map_keys (Session.players s) = ["X"] ∧ Session.gm s = "X"
       ∧ sessions (run ev_two_sessions init).1 !! "b" = None.
Proof. eexists. split; [vm_compute; reflexivity|]. by vm_compute. Qed.

(** * Further properties *)

(** ** Normalising text *)

Lemma is_space_lower_char c : is_space (lower_char c) = is_space c.
Proof. by destruct c as [[] [] [] [] [] [] [] []]. Qed.

Lemma lower_char_idemp c : lower_char (lower_char c) = lower_char c.
Proof. by destruct c as [[] [] [] [] [] [] [] []]. Qed.

Lemma toLowerCase_list s :
  list_ascii_of_string (toLowerCase s) = lower_char <$> list_ascii_of_string s.
Proof. induction s as [|c s IH]; simpl; [done|]. by rewrite IH. Qed.

Lemma toLowerCase_of_list l :
  toLowerCase (string_of_list_ascii l) = string_of_list_ascii (lower_char <$> l).
Proof. induction l as [|c l IH]; simpl; [done|]. by rewrite IH. Qed.

Lemma trim_start_lower l :
  trim_start (lower_char <$> l) = lower_char <$> trim_start l.
Proof.
  induction l as [|c l IH]; simpl; [done|].
  rewrite is_space_lower_char. by destruct (is_space c).
Qed.

Lemma fmap_rev' {A B} (f : A → B) (l : list A) : f <$> rev l = rev (f <$> l).
Proof.
  induction l as [|c l IH]; simpl; [done|]. by rewrite fmap_app, IH.
Qed.

Lemma toLowerCase_trim s : toLowerCase (trim s) = trim (toLowerCase s).
Proof.
  unfold trim. rewrite toLowerCase_of_list, toLowerCase_list.
  by rewrite trim_start_lower, <- fmap_rev', trim_start_lower, <- fmap_rev'.
Qed.

Lemma toLowerCase_idemp s : toLowerCase (toLowerCase s) = toLowerCase s.
Proof. induction s as [|c s IH]; simpl; [done|]. by rewrite lower_char_idemp, IH. Qed.

Lemma trim_start_no_lead l : no_lead (trim_start l).
Proof.
  induction l as [|c l IH]; simpl; [done|].
  by destruct (is_space c) eqn:Hc.
Qed.

Lemma trim_start_id l : no_lead l → trim_start l = l.
Proof. destruct l as [|c l]; simpl; [done|]. by intros ->. Qed.

Lemma trim_start_snoc l c :
  is_space c = false → trim_start (l ++ [c]) = trim_start l ++ [c].
Proof.
  intros Hc. induction l as [|d l IH]; simpl; [by rewrite Hc|].
  by destruct (is_space d).
Qed.

Lemma trim_end_no_lead l : no_lead l → no_lead (rev (trim_start (rev l))).
Proof.
  destruct l as [|c l]; [done|]. simpl. intros Hc.
  rewrite trim_start_snoc by done. by rewrite rev_unit.
Qed.

Lemma trim_list s :
  list_ascii_of_string (trim s)
  = rev (trim_start (rev (trim_start (list_ascii_of_string s)))).
Proof. unfold trim. apply list_ascii_of_string_of_list_ascii. Qed.

Lemma trim_idemp s : trim (trim s) = trim s.
Proof.
  unfold trim at 1. rewrite trim_list.
  set (a := trim_start (list_ascii_of_string s)).
  set (b := rev (trim_start (rev a))).
  assert (trim_start b = b) as ->
    by (apply trim_start_id, trim_end_no_lead, trim_start_no_lead).
  unfold b. rewrite rev_involutive.
  by rewrite (trim_start_id (trim_start _)) by apply trim_start_no_lead.
Qed.

Lemma sanitizeAnswer_trim_lower g :
  trim (toLowerCase (trim (js_or g EmptyString))) = sanitizeAnswer g.
Proof. unfold sanitizeAnswer. by rewrite <- toLowerCase_trim, trim_idemp. Qed.

Lemma js_or_empty s : js_or (Some s) EmptyString = s.
Proof. by destruct s. Qed.

Lemma sanitizeAnswer_idemp a :
  sanitizeAnswer (Some (sanitizeAnswer a)) = sanitizeAnswer a.
Proof.
  unfold sanitizeAnswer. rewrite js_or_empty.
  by rewrite <- toLowerCase_trim, trim_idemp, toLowerCase_idemp.
Qed.

Lemma truthy_toLowerCase s : truthy (toLowerCase s) = truthy s.
Proof. by destruct s. Qed.

Lemma length_string_list s :
  String.length s = length (list_ascii_of_string s).
Proof. induction s as [|c s IH]; simpl; [done|]. by rewrite IH. Qed.

Lemma length_trim_start l : (length (trim_start l) ≤ length l)%nat.
Proof.
  induction l as [|c l IH]; simpl; [done|]. destruct (is_space c); simpl; lia.
Qed.

Lemma length_trim s : (String.length (trim s) ≤ String.length s)%nat.
Proof.
  rewrite !length_string_list, trim_list, length_rev.
  etrans; [apply length_trim_start|]. rewrite length_rev. apply length_trim_start.
Qed.

Lemma length_slice0 n s : (String.length (slice0 n s) ≤ n)%nat.
Proof.
  unfold slice0. revert s. induction n as [|n IH]; intros [|c s]; simpl; try lia.
  specialize (IH s). lia.
Qed.

Lemma slice0_short n s : (String.length s ≤ n)%nat → slice0 n s = s.
Proof.
  unfold slice0. revert s. induction n as [|n IH]; intros [|c s]; simpl;
    try done; try lia.
  intros H. rewrite IH; [done|lia].
Qed.

(** ** One event, one session *)

Lemma departed_session sid sock σ s s' :
  sessions σ !! sid = Some s →
  sessions (departed sid sock σ) !! sid = Some s' →
  ∃ s2, after_departure sock s = Some s2
        ∧ (s' = s2
           ∧ Session.inProgress s && Nat.ltb (length (Session.players s2)) 2
             = false
           ∨ s' = ended None s2 ∧ Session.inProgress s = true).
Proof.
  intros Hsid. unfold departed, after_departure. rewrite Hsid. cbv zeta.
  change (Session.players (Session.set_players (Map_delete sock) s))
    with (Map_delete sock (Session.players s)).
  destruct (Map_delete sock (Session.players s)) as [|[firstId first] l] eqn:Hd.
  { destruct (Session.timer s); simpl; by rewrite lookup_delete_eq. }
  set (s2 := if String.eqb sock (Session.gm s) then _ else _).
  assert (Session.players s2 = (firstId, first) :: l) as Hp2
    by (unfold s2; destruct (String.eqb sock (Session.gm s)); simpl; by rewrite Hd).
  intros Hl. exists s2. split; [done|]. rewrite Hp2.
  destruct (Session.inProgress s && _) eqn:Hc.
  - rewrite (endGame_fst _ _ _ _ s2) in Hl by (simpl; apply lookup_insert_eq).
    simpl in Hl. rewrite lookup_insert_eq in Hl. injection Hl as <-.
    right. split; [done|]. by apply andb_true_iff in Hc as [? _].
  - simpl in Hl. rewrite lookup_insert_eq in Hl. injection Hl as <-. by left.
Qed.

Lemma slice0_list n s :
  list_ascii_of_string (slice0 n s) = take n (list_ascii_of_string s).
Proof.
  unfold slice0. revert s. induction n as [|n IH]; intros [|c s]; simpl; try done.
  by rewrite IH.
Qed.

Lemma no_lead_trimmed_slice n s :
  no_lead (list_ascii_of_string (slice0 n (trim s))).
Proof.
  rewrite slice0_list, trim_list.
  pose proof (trim_end_no_lead _ (trim_start_no_lead (list_ascii_of_string s))) as H.
  destruct (rev _) as [|c l]; destruct n; done.
Qed.

Lemma start_game_started sock σ :
  (start_game sock σ).1 = σ
  ∨ ∃ sid s, sessions σ !! sid = Some s ∧ Session.inProgress s = false
      ∧ (2 ≤ length (Session.players s))%nat
      ∧ truthy_opt (Session.question s) = true
      ∧ truthy_opt (Session.answer s) = true
      ∧ (start_game sock σ).1
        = set_sessions (<[sid := started (next_timer σ) s]>) (setTimeout sid σ).2.
Proof.
  unfold start_game.
  destruct (current_sessionId σ sock) as [sid|]; [|by left].
  destruct (sessions σ !! sid) as [s|] eqn:Hsid; [|try destruct (inherited _); by left].
  destruct (negb _); [by left|].
  destruct (Session.inProgress s) eqn:Hip; [by left|].
  destruct (Nat.ltb_spec (length (Session.players s)) 2); [by left|].
  destruct (truthy_opt (Session.question s)) eqn:Hq; [|by left].
  destruct (truthy_opt (Session.answer s)) eqn:Ha; [|by left].
  right. exists sid, s. repeat split; try done. simpl.
  by destruct (Map_get _ _).
Qed.

(** What the guess handler does to the server. *)
Lemma guess_fst sock g σ :
  (guess sock g σ).1 = σ
  ∨ ∃ sid s p,
      current_sessionId σ sock = Some sid
      ∧ sessions σ !! sid = Some s ∧ Session.inProgress s = true
      ∧ Map_get sock (Session.players s) = Some p
      ∧ 0 < Player.attemptsLeft p
      ∧ ((guess sock g σ).1 = set_sessions (<[sid := took_attempt sock p s]>) σ
         ∨ Session.answer s = Some (sanitizeAnswer g)
           ∧ truthy_opt (Session.winner s) = false
           ∧ (guess sock g σ).1
             = (endGame sid "correct_guess" (Some sock)
                  (set_sessions
                     (<[sid := Session.set_winner (Some sock)
                                 (took_attempt sock p s)]>)
                     (set_sessions (<[sid := took_attempt sock p s]>) σ))).1).
Proof.
  destruct (current_sessionId σ sock) as [sid|] eqn:Hc;
    [|left; unfold guess; by rewrite Hc].
  destruct (sessions σ !! sid) as [s|] eqn:Hsid;
    [|left; unfold guess; by rewrite Hc, Hsid].
  destruct (Session.inProgress s) eqn:Hip;
    [|left; unfold guess; by rewrite Hc, Hsid, Hip].
  destruct (Map_get sock (Session.players s)) as [p|] eqn:Hp;
    [|left; unfold guess; by rewrite Hc, Hsid, Hip, Hp].
  destruct (Z.leb_spec (Player.attemptsLeft p) 0) as [Hle|Hpos].
  { left. by rewrite (guess_no_attempts σ sock g sid s p). }
  destruct (truthy (trim (js_or g EmptyString))) eqn:Htxt.
  2:{ left. unfold guess. rewrite Hc, Hsid, Hip, Hp. simpl.
      destruct (Z.leb_spec (Player.attemptsLeft p) 0); [lia|]. by rewrite Htxt. }
  right. exists sid, s, p. do 5 (split; [done|]).
  rewrite (guess_accepted σ sock g sid s p) by done. cbv zeta.
  rewrite sanitizeAnswer_trim_lower. fold (took_attempt sock p s).
  unfold guess_decide. simpl.
  destruct (decide _) as [Hyes|Hno].
  - destruct (truthy_opt (Session.winner s)) eqn:Hw; simpl; [by left|].
    right. done.
  - left. by destruct (Z.leb _ _).
Qed.

Lemma handle_session_cases e σ sid s' :
  wf σ →
  sessions (handle e σ).1 !! sid = Some s' →
  sessions σ !! sid = Some s'
  ∨ (sessions σ !! sid = None ∧ inherited sid = false
     ∧ ∃ sock name, (String.length name ≤ 30)%nat
                    ∧ s' = new_session sid sock name)
  ∨ ∃ s, sessions σ !! sid = Some s ∧ session_change s s'.
Proof.
  intros Hwf.
  destruct e as [sock nm sessionId r36|sock sessionId nm|sock|sock q a|sock
                |sock g|sock|sock|h|sock]; simpl; [| | | | | | | | |by left].
  - (* create_session *)
    unfold create_session. set (sid0 := candidate_id sessionId r36).
    destruct (sessions σ !! sid0) eqn:H0; simpl; [by left|].
    destruct (inherited sid0) eqn:Hown; simpl; [by left|].
    rewrite lookup_insert. case_decide as Hc; [subst sid0|by left].
    intros [= <-]. right. left. split; [congruence|]. subst sid.
    split; [done|].
    eexists _, _. split; [|done]. apply length_slice0.
  - (* join_session *)
    unfold join_session. set (sid0 := trim _).
    destruct (sessions σ !! sid0) as [s0|] eqn:H0; simpl;
      [|destruct (inherited _); by left].
    destruct (Session.inProgress s0) eqn:Hip; simpl; [by left|].
    rewrite lookup_insert. case_decide; [subst sid|by left].
    intros [= <-]. right. right. exists s0. split; [done|].
    apply ch_join; [done|apply length_slice0].
  - (* leave_session *)
    rewrite leave_session_fst.
    destruct (current_sessionId σ sock) as [sid0|]; simpl; [|by left].
    destruct (decide (sid = sid0)) as [<-|Hne];
      [|rewrite departed_other by done; by left].
    destruct (sessions σ !! sid) as [s|] eqn:Hsid.
    + intros Hl. destruct (departed_session _ _ _ _ _ Hsid Hl)
        as (s2&H2&[[-> Hc]|[-> Hip]]); right; right; exists s; split; try done.
      * by eapply ch_leave.
      * by eapply ch_forced.
    + intros Hl. unfold departed in Hl. rewrite Hsid in Hl. congruence.
  - (* set_question *)
    unfold set_question.
    destruct (current_sessionId σ sock) as [sid0|]; simpl; [|by left].
    destruct (sessions σ !! sid0) as [s0|] eqn:H0; simpl;
      [|destruct (inherited _); by left].
    destruct (negb _); simpl; [by left|].
    destruct (Session.inProgress s0) eqn:Hip; simpl; [by left|].
    destruct (truthy (slice0 500 _)) eqn:Hq; simpl; [|by left].
    destruct (truthy (slice0 200 _)) eqn:Ha; simpl; [|by left].
    rewrite lookup_insert. case_decide; [subst sid|by left].
    intros [= <-]. right. right. exists s0. split; [done|].
    apply ch_question; try done; try apply length_slice0.
    apply no_lead_trimmed_slice.
  - (* start_game *)
    destruct (start_game_started sock σ)
      as [->|(sid0&s0&H0&Hip&Hlen&Hq&_&->)]; [by left|].
    simpl. rewrite lookup_insert. case_decide; [subst sid|by left].
    intros [= <-]. right. right. exists s0. split; [done|]. by apply ch_start.
  - (* guess *)
    destruct (guess_fst sock g σ)
      as [->|(sid0&s0&p&_&H0&Hip&Hp&Hpos&[->|(_&_&->)])]; [by left| |].
    + simpl. rewrite lookup_insert. case_decide; [subst sid|by left].
      intros [= <-]. right. right. exists s0. split; [done|]. by apply ch_guess.
    + destruct (decide (sid = sid0)) as [->|Hne].
      * rewrite (endGame_fst _ _ _ _ (Session.set_winner (Some sock)
                                         (took_attempt sock p s0)))
          by (simpl; apply lookup_insert_eq).
        simpl. rewrite lookup_insert_eq. intros [= <-].
        right. right. exists s0. split; [done|]. by apply ch_win.
      * rewrite endGame_other by done. simpl.
        rewrite !lookup_insert_ne by done. by left.
  - (* get_session_state *)
    unfold get_session_state.
    destruct (current_sessionId σ sock) as [sid0|]; simpl; [|by left].
    destruct (sessions σ !! sid0); [|destruct (inherited _)]; by left.
  - (* disconnect *)
    unfold disconnect.
    destruct (current_sessionId _ sock) as [sid0|]; simpl; [|by left].
    rewrite leaveSessionOnDisconnect_fst.
    destruct (decide (sid = sid0)) as [<-|Hne];
      [|rewrite departed_other by done; by left].
    destruct (sessions σ !! sid) as [s|] eqn:Hsid.
    + intros Hl.
      destruct (departed_session sid sock (set_rooms _ σ) s s' Hsid Hl)
        as (s2&H2&[[-> Hc]|[-> Hip]]); right; right; exists s; split; try done.
      * by eapply ch_leave.
      * by eapply ch_forced.
    + intros Hl.
      match type of Hl with context [departed _ _ ?σ0] =>
        assert (sessions σ0 !! sid = None) as Hsid' by done end.
      unfold departed in Hl. rewrite Hsid' in Hl. simpl in Hl. congruence.
  - (* the timer *)
    unfold timer_fires. destruct (timers σ !! h) as [sid0|] eqn:Hh; [|by left].
    destruct (wf_timers _ Hwf _ _ Hh) as (s0&Hs0&Hi0&_).
    destruct (decide (sid = sid0)) as [<-|Hne];
      [|rewrite endGame_other by done; by left].
    rewrite (endGame_fst _ _ _ _ s0) by done. simpl. rewrite lookup_insert_eq.
    intros [= <-]. right. right. exists s0. split; [done|]. by apply ch_timeout.
Qed.

(** ** The shape of stored sessions *)

Section JSMap_shape.
Context {V : Type}.
Implicit Types (m : list (string * V)) (k : string) (v : V).

Lemma Map_keys_delete_filter k m :
  Map_keys (Map_delete k m) = filter (λ k', k' ≠ k) (Map_keys m).
Proof.
  unfold Map_keys. induction m as [|[k0 w] m IH]; simpl; [done|].
  destruct (String.eqb_spec k k0) as [->|Hk].
  - rewrite filter_cons_False; [exact IH|]. intros H. apply H. reflexivity.
  - rewrite filter_cons_True by congruence. simpl. f_equal. exact IH.
Qed.

Lemma NoDup_Map_keys_delete k m :
  NoDup (Map_keys m) → NoDup (Map_keys (Map_delete k m)).
Proof. intros H. rewrite Map_keys_delete_filter. by apply NoDup_filter. Qed.

Lemma NoDup_Map_keys_set k v m :
  NoDup (Map_keys m) → NoDup (Map_keys (Map_set k v m)).
Proof.
  intros H. destruct (Map_get k m) as [w|] eqn:Hg.
  - by rewrite (Map_keys_set_present _ _ _ _ Hg).
  - rewrite (Map_keys_set_absent _ _ _ Hg). apply NoDup_app. split; [done|].
    split; [|apply NoDup_singleton].
    intros x Hx ->%list_elem_of_singleton. by apply Map_get_None_keys in Hg.
Qed.

Lemma Forall_Map_set (P : string * V → Prop) k v m :
  Forall P m → P (k, v) → Forall P (Map_set k v m).
Proof.
  intros Hm Hkv. induction m as [|[k0 w] m IH]; simpl.
  - by apply Forall_singleton.
  - apply Forall_cons in Hm as [H0 Hm].
    destruct (String.eqb_spec k k0) as [->|Hk]; apply Forall_cons; auto.
Qed.

Lemma Forall_Map_delete (P : string * V → Prop) k m :
  Forall P m → Forall P (Map_delete k m).
Proof.
  induction m as [|[k0 w] m IH]; simpl; [done|].
  intros [H0 Hm]%Forall_cons. destruct (String.eqb k k0); auto.
Qed.

Lemma Forall_Map_forEach (P Q : string * V → Prop) (f : V → V) m :
  (∀ k v, P (k, v) → Q (k, f v)) → Forall P m → Forall Q (Map_forEach f m).
Proof.
  intros Hf. unfold Map_forEach. induction m as [|[k0 w] m IH]; simpl; [done|].
  intros [H0 Hm]%Forall_cons. apply Forall_cons. split; [by apply Hf|auto].
Qed.

Lemma Forall_Map_get (P : string * V → Prop) k v m :
  Forall P m → Map_get k m = Some v → P (k, v).
Proof.
  induction m as [|[k0 w] m IH]; simpl; [done|].
  intros [H0 Hm]%Forall_cons.
  destruct (String.eqb_spec k k0) as [->|Hk]; [by intros [= <-]|auto].
Qed.

Lemma length_Map_set_present k v v' m :
  Map_get k m = Some v → length (Map_set k v' m) = length m.
Proof.
  intros H. pose proof (Map_keys_set_present k v v' m H) as Hk.
  apply (f_equal length) in Hk. unfold Map_keys in Hk.
  by rewrite !length_fmap in Hk.
Qed.

Lemma length_Map_forEach (f : V → V) m : length (Map_forEach f m) = length m.
Proof. unfold Map_forEach. apply length_fmap. Qed.
End JSMap_shape.

Lemma truthy_length s : truthy s = true ↔ (0 < String.length s)%nat.
Proof. destruct s; simpl; split; try done; lia. Qed.

Lemma truthy_sanitizeAnswer a :
  truthy a = true → no_lead (list_ascii_of_string a) →
  truthy (sanitizeAnswer (Some a)) = true.
Proof.
  intros Ha Hl. unfold sanitizeAnswer. rewrite js_or_empty, truthy_toLowerCase.
  apply truthy_length. rewrite length_string_list, trim_list.
  rewrite (trim_start_id _ Hl).
  destruct (list_ascii_of_string a) as [|c l] eqn:Hla.
  { destruct a; done. }
  simpl in *. rewrite trim_start_snoc, rev_unit by done. simpl. lia.
Qed.

Lemma session_inv_base sid s : session_inv sid s → session_base sid s.
Proof.
  intros (Hid&Hnd&Hp&_). repeat split; try done.
  eapply Forall_impl; [exact Hp|]. by intros [k p] (?&_).
Qed.

Lemma new_session_inv sid sock name :
  (String.length name ≤ 30)%nat → session_inv sid (new_session sid sock name).
Proof.
  intros Hn. repeat split; simpl; try done.
  - apply NoDup_singleton.
  - apply Forall_singleton. repeat split; simpl; try done; try lia.
    by exists 0.
  - by left.
Qed.

Lemma award_base w ps :
  Forall (λ kp : string * Player.t, player_base kp.1 kp.2) ps →
  Forall (λ kp : string * Player.t, player_base kp.1 kp.2) (award w ps).
Proof.
  intros H. unfold award. destruct (Map_get w ps) as [p|] eqn:Hg; [|done].
  apply Forall_Map_set; [done|].
  pose proof (Forall_Map_get _ _ _ _ H Hg) as (Hid&Hn&Hs&Hd). simpl in *.
  repeat split; simpl; try done; [lia|].
  apply Z.divide_add_r; [done|by exists 1].
Qed.

Lemma ended_inv sid w s : session_base sid s → session_inv sid (ended w s).
Proof.
  intros (Hid&Hnd&Hp).
  destruct (ended_fields w s) as (Hip&Htm&_&Hid').
  split; [congruence|]. split; [by rewrite ended_keys|].
  split; [|split; [|split]].
  - rewrite Hip. unfold ended.
    assert (∀ ps, Forall (λ kp : string * Player.t, player_base kp.1 kp.2) ps →
                  Forall (λ kp : string * Player.t, player_inv false kp.1 kp.2)
                    (Map_forEach (Player.set_attemptsLeft (λ _, 0)) ps)) as Hz.
    { intros ps. apply Forall_Map_forEach. intros k p (?&?&?&?).
      repeat split; simpl; try done. }
    destruct (truthy_opt w); simpl; apply Hz; [by apply award_base|done].
  - left. unfold ended. by destruct (truthy_opt w).
  - by rewrite Hip.
  - done.
Qed.

Lemma after_departure_players sock s s2 :
  after_departure sock s = Some s2 →
  Session.players s2 = Map_delete sock (Session.players s)
  ∧ Session.id s2 = Session.id s
  ∧ Session.inProgress s2 = Session.inProgress s
  ∧ Session.timer s2 = Session.timer s
  ∧ Session.question s2 = Session.question s
  ∧ Session.answer s2 = Session.answer s
  ∧ Session.answerOriginal s2 = Session.answerOriginal s
  ∧ Session.winner s2 = Session.winner s.
Proof.
  unfold after_departure. simpl.
  destruct (Map_delete sock (Session.players s)) as [|[firstId first] l] eqn:Hd;
    [done|].
  intros [= <-]. by destruct (String.eqb sock (Session.gm s)).
Qed.

Lemma after_departure_base sid sock s s2 :
  session_base sid s → after_departure sock s = Some s2 → session_base sid s2.
Proof.
  intros (Hid&Hnd&Hp) (Hp2&Hid2&_)%after_departure_players.
  split; [congruence|]. rewrite Hp2.
  split; [by apply NoDup_Map_keys_delete|by apply Forall_Map_delete].
Qed.

Lemma session_change_inv sid s s' :
  session_inv sid s → session_change s s' → session_inv sid s'.
Proof.
  intros Hinv Hch. pose proof Hinv as (Hid&Hnd&Hp&Hqa&Hround&Hidle).
  destruct Hch as [s sock name Hip Hn|s sock s2 Hdep Hc|s sock s2 Hdep Hip
                  |s q a Hip Hq Ha Hlq Hla Hnl|s h Hip Hlen Hq
                  |s sock p Hip Hg Hpos|s sock p Hip Hg|s Hip].
  - (* join *)
    split; [done|]. split; [by apply NoDup_Map_keys_set|]. simpl.
    split; [|split; [done|split; [by rewrite Hip|done]]].
    apply Forall_Map_set; [done|]. rewrite Hip.
    repeat split; simpl; try done; try lia. by exists 0.
  - (* leave *)
    destruct (after_departure_players _ _ _ Hdep)
      as (Hp2&Hid2&Hip2&Htm2&Hq2&Ha2&Hao2&_).
    split; [congruence|]. rewrite Hp2, Hip2, Htm2, Hq2.
    split; [by apply NoDup_Map_keys_delete|].
    split; [by apply Forall_Map_delete|].
    split; [|split; [|done]].
    + unfold qa_inv. by rewrite Hq2, Ha2, Hao2.
    + intros Hi. rewrite Hi in Hc. simpl in Hc. rewrite Hp2 in Hc.
      apply Nat.ltb_ge in Hc. destruct (Hround Hi) as (_&?&?). done.
  - (* forced end *)
    apply ended_inv. eapply after_departure_base; [|done].
    by apply session_inv_base.
  - (* set_question *)
    split; [done|]. split; [done|]. simpl.
    split; [done|]. split; [|split; [by rewrite Hip|done]].
    right. exists q, a. repeat split; try done. by apply truthy_sanitizeAnswer.
  - (* start_game *)
    split; [done|]. simpl. split; [by rewrite Map_keys_forEach|].
    split; [|split; [|split; [|done]]].
    + eapply Forall_Map_forEach; [|exact Hp]. intros k p ((?&?&?&?)&_).
      repeat split; simpl; try done; lia.
    + destruct Hqa as [(H1&H2&H3)|(q&ao&H1&H2&H3&?)]; [left|right]; eauto 10.
    + intros _. rewrite length_Map_forEach. split; [done|]. split; [|by eauto].
      destruct (Session.question s); [by eauto|done].
  - (* guess *)
    split; [done|]. simpl. split; [by apply NoDup_Map_keys_set|].
    split; [|split; [exact Hqa|split; [|exact Hidle]]].
    + apply Forall_Map_set; [done|].
      pose proof (Forall_Map_get _ _ _ _ Hp Hg) as (Hb&Hr&_). simpl in *.
      rewrite Hip. repeat split; simpl; try apply Hb; try lia.
    + intros Hi. destruct (Hround Hi) as (?&?&?). repeat split; try done.
      by rewrite (length_Map_set_present _ _ _ _ Hg).
  - (* winning guess *)
    apply ended_inv. split; [done|]. simpl.
    split; [by apply NoDup_Map_keys_set|].
    apply Forall_Map_set.
    + eapply Forall_impl; [exact Hp|]. by intros [k q] (?&_).
    + by pose proof (Forall_Map_get _ _ _ _ Hp Hg) as (Hb&_).
  - (* timeout *)
    by apply ended_inv, session_inv_base.
Qed.

Lemma reachable_session_inv σ :
  reachable σ → ∀ sid s, sessions σ !! sid = Some s → session_inv sid s.
Proof.
  induction 1 as [|σ e Hr IH]; intros sid s';
    [simpl; by rewrite lookup_empty|].
  intros Hl.
  destruct (handle_session_cases e σ sid s' (reachable_wf _ Hr) Hl)
    as [H0|[(_&_&sock&name&Hn&->)|(s&Hs&Hch)]].
  - by apply IH.
  - by apply new_session_inv.
  - eapply session_change_inv; [|done]. by apply IH.
Qed.

(** ** Pending timers *)

Lemma timed_replace sid s s' σ :
  timed σ → sessions σ !! sid = Some s →
  Session.timer s' = Session.timer s →
  timed (set_sessions (<[sid := s']>) σ).
Proof.
  intros [Hf Ht] Hsid Htm. split; simpl; [done|].
  intros sid0 s0 h. rewrite lookup_insert. case_decide; [subst sid0|by apply Ht].
  intros [= <-] Hh. apply (Ht _ s); congruence.
Qed.

Lemma timers_cancel t σ :
  timers (cancel t σ) = match t with Some h => delete h (timers σ) | None => timers σ end.
Proof. by destruct t. Qed.

Lemma next_timer_cancel t σ : next_timer (cancel t σ) = next_timer σ.
Proof. by destruct t. Qed.

(** [endGame] on a server whose other sessions have their timers pending and
    where the timer of the ending session belongs to no other session. *)
Lemma endGame_timed sid reason w σ s :
  sessions σ !! sid = Some s →
  (∀ h sid', timers σ !! h = Some sid' → (h < next_timer σ)%nat) →
  (∀ sid' s' h, sid' ≠ sid → sessions σ !! sid' = Some s' →
     Session.timer s' = Some h → timers σ !! h = Some sid') →
  (∀ h sid', Session.timer s = Some h → timers σ !! h = Some sid' → sid' = sid) →
  timed (endGame sid reason w σ).1.
Proof.
  intros Hsid Hf Ho Hown. rewrite (endGame_fst _ _ _ _ _ Hsid). split; simpl.
  - intros h sid'. rewrite next_timer_cancel.
    intros [Hh _]%timers_cancel_Some. by eapply Hf.
  - intros sid' s' h. rewrite sessions_cancel, lookup_insert.
    case_decide; [subst sid'|].
    + intros [= <-]. by destruct (ended_fields w s) as (_&->&_).
    + intros Hs' Hh. pose proof (Ho _ _ _ ltac:(done) Hs' Hh) as Hp.
      rewrite timers_cancel. destruct (Session.timer s) as [h0|] eqn:Ht0; [|done].
      rewrite lookup_delete_ne; [done|]. intros <-.
      by specialize (Hown _ _ eq_refl Hp).
Qed.

Lemma endGame_timed' sid reason w σ :
  timed σ → timed (endGame sid reason w σ).1.
Proof.
  intros Ht. destruct (sessions σ !! sid) as [s|] eqn:Hsid;
    [|by rewrite endGame_None].
  pose proof Ht as [Hf Hr].
  eapply endGame_timed; [done|done|by eauto|].
  intros h sid' Hh Hp. pose proof (Hr _ _ _ Hsid Hh). congruence.
Qed.

Lemma timed_set_rooms f σ : timed σ → timed (set_rooms f σ).
Proof. by intros [? ?]. Qed.

Lemma departed_timed sid sock σ : timed σ → timed (departed sid sock σ).
Proof.
  intros Ht. pose proof Ht as [Hf Hr]. unfold departed.
  destruct (sessions σ !! sid) as [s|] eqn:Hsid; [|no_session]. cbv zeta.
  change (Session.players (Session.set_players (Map_delete sock) s))
    with (Map_delete sock (Session.players s)).
  destruct (Map_delete sock (Session.players s)) as [|[firstId first] l].
  - split; simpl.
    + intros h sid'. rewrite next_timer_cancel.
      intros [Hh _]%timers_cancel_Some. by eapply Hf.
    + intros sid' s' h. rewrite sessions_cancel. simpl.
      intros [Hne Hs']%lookup_delete_Some Hh.
      pose proof (Hr _ _ _ Hs' Hh) as Hp. rewrite timers_cancel. simpl.
      destruct (Session.timer s) as [h0|] eqn:Ht0; [|done].
      rewrite lookup_delete_ne; [done|]. intros <-.
      pose proof (Hr _ _ _ Hsid Ht0). congruence.
  - set (s2 := if String.eqb sock (Session.gm s) then _ else _).
    assert (Session.timer s2 = Session.timer s) as Ht2
      by (unfold s2; by destruct (String.eqb sock (Session.gm s))).
    assert (timed (set_sessions (<[sid := s2]>)
                     (set_socket_playerName (delete sock)
                        (set_socket_sessionId (delete sock)
                           (socket_leave sock sid σ))))) as Ht'.
    { apply (timed_replace sid s); [by split|done|done]. }
    destruct (_ && _); [by apply endGame_timed'|done].
Qed.

Lemma handle_timed e σ : wf σ → timed σ → timed (handle e σ).1.
Proof.
  intros Hwf Ht. pose proof Ht as [Hf Hr].
  destruct e as [sock nm sessionId r36|sock sessionId nm|sock|sock q a|sock
                |sock g|sock|sock|h|sock]; simpl; [| | | | | | | | |done].
  - (* create_session *)
    unfold create_session. set (sid0 := candidate_id sessionId r36).
    destruct (sessions σ !! sid0) eqn:H0; simpl; [done|].
    destruct (inherited sid0); simpl; [done|].
    split; simpl; [done|].
    intros sid s h. rewrite lookup_insert. case_decide; [by intros [= <-]|].
    apply Hr.
  - (* join_session *)
    unfold join_session. set (sid0 := trim _).
    destruct (sessions σ !! sid0) as [s0|] eqn:H0; simpl; [|no_session].
    destruct (Session.inProgress s0) eqn:Hip; simpl; [done|].
    split; simpl; [done|].
    intros sid s h. rewrite lookup_insert. case_decide; [subst sid|apply Hr].
    intros [= <-]. simpl. intros Hh. by apply (Hr _ s0).
  - (* leave_session *)
    rewrite leave_session_fst.
    destruct (current_sessionId σ sock) as [sid0|]; simpl; [|done].
    by apply departed_timed.
  - (* set_question *)
    unfold set_question.
    destruct (current_sessionId σ sock) as [sid0|]; simpl; [|done].
    destruct (sessions σ !! sid0) as [s0|] eqn:H0; simpl; [|no_session].
    destruct (negb _); simpl; [done|].
    destruct (Session.inProgress s0); simpl; [done|].
    destruct (_ || _); simpl; [done|].
    by apply (timed_replace sid0 s0).
  - (* start_game *)
    destruct (start_game_started sock σ)
      as [->|(sid0&s0&H0&Hip&_&_&_&->)]; [done|].
    split; simpl.
    + intros h sid. rewrite lookup_insert. case_decide; [lia|].
      intros Hh. specialize (Hf _ _ Hh). lia.
    + intros sid s h. rewrite lookup_insert. case_decide; [subst sid|].
      * intros [= <-] [= <-]. apply lookup_insert_eq.
      * intros Hs Hh. pose proof (Hr _ _ _ Hs Hh) as Hp.
        rewrite lookup_insert_ne; [done|]. intros <-.
        specialize (Hf _ _ Hp). lia.
  - (* guess *)
    destruct (guess_fst sock g σ)
      as [->|(sid0&s0&p&_&H0&Hip&Hp&Hpos&[->|(_&_&->)])]; [done| |].
    + by apply (timed_replace sid0 s0).
    + apply endGame_timed'.
      apply (timed_replace sid0 (took_attempt sock p s0));
        [by apply (timed_replace sid0 s0)|simpl; apply lookup_insert_eq|done].
  - (* get_session_state *)
    unfold get_session_state.
    destruct (current_sessionId σ sock) as [sid0|]; simpl; [|done].
    destruct (sessions σ !! sid0); no_session.
  - (* disconnect *)
    unfold disconnect.
    destruct (current_sessionId _ sock) as [sid0|]; simpl;
      [|by apply timed_set_rooms].
    rewrite leaveSessionOnDisconnect_fst. by apply departed_timed, timed_set_rooms.
  - (* the timer *)
    unfold timer_fires. destruct (timers σ !! h) as [sid0|] eqn:Hh; [|done].
    destruct (wf_timers _ Hwf _ _ Hh) as (s0&Hs0&Hi0&Ht0).
    eapply endGame_timed; [exact Hs0| | |]; simpl.
    + intros h' sid' [_ Hp]%lookup_delete_Some. by eapply Hf.
    + intros sid' s' h' Hne Hs' Hh'. pose proof (Hr _ _ _ Hs' Hh') as Hp.
      rewrite lookup_delete_ne; [done|]. intros <-. congruence.
    + intros h' sid' Hh'. rewrite Ht0 in Hh'. injection Hh' as <-.
      by rewrite lookup_delete_eq.
Qed.

Lemma reachable_timed σ : reachable σ → timed σ.
Proof.
  induction 1 as [|σ e Hr IH].
  - split; simpl; intros *; by rewrite lookup_empty.
  - apply handle_timed; [by apply reachable_wf|done].
Qed.

(** ** Rooms *)

Lemma endGame_rooms sid reason w σ : rooms (endGame sid reason w σ).1 = rooms σ.
Proof.
  destruct (sessions σ !! sid) as [s|] eqn:Hsid.
  - rewrite (endGame_fst _ _ _ _ _ Hsid). simpl. by destruct (Session.timer s).
  - by rewrite endGame_None.
Qed.

Lemma departed_rooms sid sock σ s :
  sessions σ !! sid = Some s →
  rooms (departed sid sock σ) = rooms (socket_leave sock sid σ).
Proof.
  intros Hsid. unfold departed. rewrite Hsid. simpl.
  destruct (Map_delete sock (Session.players s)) as [|[firstId first] l]; simpl.
  - by destruct (Session.timer s).
  - destruct (_ && _); [|done]. by rewrite endGame_rooms.
Qed.

Lemma roomed_same σ σ' :
  rooms σ' = rooms σ → socket_sessionId σ' = socket_sessionId σ →
  roomed σ → roomed σ'.
Proof.
  intros Hr Hk H sock sid. unfold current_sessionId, members.
  rewrite Hr, Hk. apply H.
Qed.

Lemma members_socket_join σ sock room room' :
  members (socket_join sock room σ) room'
  = if decide (room = room') then {[sock]} ∪ members σ room else members σ room'.
Proof.
  unfold members, socket_join. simpl. rewrite lookup_insert.
  case_decide; by subst.
Qed.

Lemma roomed_joined σ sock sid (f : gmap string Session.t → gmap string Session.t)
    (g : gmap string string → gmap string string) :
  roomed σ →
  roomed (set_socket_playerName g
            (set_socket_sessionId (<[sock := sid]>)
               (socket_join sock sid (set_sessions f σ)))).
Proof.
  intros H sock' sid' Hc.
  change (sock' ∈ members (socket_join sock sid σ) sid').
  assert (match (<[sock := sid]> (socket_sessionId σ)) !! sock' with
          | Some s => if truthy s then Some s else None
          | None => None
          end = Some sid') as Hc' by exact Hc.
  clear Hc. rewrite members_socket_join. rewrite lookup_insert in Hc'.
  case_decide as Hs.
  - subst sock'. destruct (truthy sid); [|done]. injection Hc' as <-.
    rewrite decide_True by done. set_solver.
  - specialize (H sock' sid' Hc'). case_decide; [subst; set_solver|done].
Qed.

Lemma roomed_departed sid sock σ s :
  roomed σ → sessions σ !! sid = Some s → roomed (departed sid sock σ).
Proof.
  intros H Hsid sock' sid'. unfold current_sessionId, members.
  rewrite (departed_sessionId _ _ _ _ Hsid), (departed_rooms _ _ _ _ Hsid).
  rewrite lookup_delete. case_decide as Hs; [done|]. intros Hc.
  change (sock' ∈ members (socket_leave sock sid σ) sid').
  rewrite members_socket_leave. specialize (H sock' sid' Hc).
  case_decide; [subst; set_solver|done].
Qed.

Lemma roomed_cleanup sock σ :
  roomed σ → current_sessionId σ sock = None →
  roomed (set_rooms (fmap (λ S, S ∖ {[sock]})) σ).
Proof.
  intros H Hnone sock' sid' Hc.
  change (current_sessionId σ sock' = Some sid') in Hc.
  assert (sock' ≠ sock) as Hne by (intros ->; congruence).
  specialize (H _ _ Hc). unfold members in *. simpl. rewrite lookup_fmap.
  destruct (rooms σ !! sid') as [S|]; simpl in *; set_solver.
Qed.

Lemma handle_roomed e σ : wf σ → roomed σ → roomed (handle e σ).1.
Proof.
  intros Hwf H.
  destruct e as [sock nm sessionId r36|sock sessionId nm|sock|sock q a|sock
                |sock g|sock|sock|h|sock]; simpl; [| | | | | | | | |done].
  - (* create_session *)
    unfold create_session. set (sid0 := candidate_id sessionId r36).
    destruct (sessions σ !! sid0) eqn:H0; simpl; [done|].
    destruct (inherited sid0); simpl; [done|].
    by apply (roomed_joined σ sock sid0).
  - (* join_session *)
    unfold join_session. set (sid0 := trim _).
    destruct (sessions σ !! sid0) as [s0|] eqn:H0; simpl; [|no_session].
    destruct (Session.inProgress s0) eqn:Hip; simpl; [done|].
    by apply (roomed_joined σ sock sid0).
  - (* leave_session *)
    rewrite leave_session_fst.
    destruct (current_sessionId σ sock) as [sid0|] eqn:Hc; simpl; [|done].
    destruct (current_sessionId_Some _ _ _ Hc) as [Hk _].
    destruct (wf_sockets _ Hwf _ _ Hk) as (s&Hsid&_).
    by eapply roomed_departed.
  - (* set_question *)
    unfold set_question.
    destruct (current_sessionId σ sock) as [sid0|]; simpl; [|done].
    destruct (sessions σ !! sid0) as [s0|] eqn:H0; simpl; [|no_session].
    destruct (negb _); simpl; [done|].
    destruct (Session.inProgress s0); simpl; [done|].
    destruct (_ || _); simpl; [done|].
    by eapply roomed_same.
  - (* start_game *)
    destruct (start_game_started sock σ)
      as [->|(sid0&s0&H0&Hip&_&_&_&->)]; [done|].
    by eapply roomed_same.
  - (* guess *)
    destruct (guess_fst sock g σ)
      as [->|(sid0&s0&p&_&H0&Hip&Hp&Hpos&[->|(_&_&->)])]; [done| |].
    + by eapply roomed_same.
    + eapply roomed_same; [..|exact H].
      * by rewrite endGame_rooms.
      * by rewrite endGame_sessionId.
  - (* get_session_state *)
    unfold get_session_state.
    destruct (current_sessionId σ sock) as [sid0|]; simpl; [|done].
    destruct (sessions σ !! sid0); no_session.
  - (* disconnect *)
    unfold disconnect.
    change (current_sessionId (set_rooms _ σ) sock) with (current_sessionId σ sock).
    destruct (current_sessionId σ sock) as [sid0|] eqn:Hc; simpl.
    + rewrite leaveSessionOnDisconnect_fst.
      destruct (current_sessionId_Some _ _ _ Hc) as [Hk _].
      destruct (wf_sockets _ Hwf _ _ Hk) as (s&Hsid&_).
      intros sock' sid'. unfold current_sessionId, members.
      rewrite (departed_sessionId _ _ (set_rooms _ σ) s Hsid),
        (departed_rooms _ _ (set_rooms _ σ) s Hsid).
      simpl. rewrite lookup_delete. case_decide as Hs; [done|]. intros Hc'.
      specialize (H sock' sid' Hc'). unfold members in H.
      rewrite lookup_insert. case_decide.
      * subst. rewrite lookup_fmap.
        destruct (rooms σ !! sid') as [S|]; simpl in *; set_solver.
      * rewrite lookup_fmap.
        destruct (rooms σ !! sid') as [S|]; simpl in *; set_solver.
    + by apply roomed_cleanup.
  - (* the timer *)
    unfold timer_fires. destruct (timers σ !! h) as [sid0|] eqn:Hh; [|done].
    eapply roomed_same; [..|exact H].
    + by rewrite endGame_rooms.
    + by rewrite endGame_sessionId.
Qed.

Lemma reachable_roomed σ : reachable σ → roomed σ.
Proof.
  induction 1 as [|σ e Hr IH].
  - intros sock sid. unfold current_sessionId. simpl. by rewrite lookup_empty.
  - apply handle_roomed; [by apply reachable_wf|done].
Qed.

(** ** Extra properties: what a handler leaves alone *)

(** X1. The two normalisations agree: what the guess handler compares
    ([guessText.toLowerCase().trim()] of the trimmed guess) is
    [sanitizeAnswer] of the guess, and [sanitizeAnswer] is idempotent. *)
Theorem guess_is_sanitized :
  (∀ g, trim (toLowerCase (trim (js_or g EmptyString))) = sanitizeAnswer g)
  ∧ (∀ a, sanitizeAnswer (Some (sanitizeAnswer a)) = sanitizeAnswer a).
Proof. split; [apply sanitizeAnswer_trim_lower|apply sanitizeAnswer_idemp]. Qed.

(** X2. An event whose handler does not throw changes no session but the
    one it addresses: the candidate id for create, the trimmed id for join,
    the target of the timer, and otherwise the session recorded on the
    sending socket. (A handler that throws ends the process, and with it
    every session.) *)
Theorem one_session_per_event e σ sid :
  thrown (handle e σ).2 = false →
  addressed e σ ≠ Some sid →
  sessions (handle e σ).1 !! sid = sessions σ !! sid.
Proof.
  intros _.
  destruct e as [sock nm sessionId r36|sock sessionId nm|sock|sock q a|sock
                |sock g|sock|sock|h|sock]; simpl; intros Hne; [| | | | | | | | |done].
  - unfold create_session.
    destruct (sessions σ !! candidate_id sessionId r36); simpl; [done|].
    destruct (inherited _); simpl; [done|].
    rewrite lookup_insert_ne; [done|congruence].
  - unfold join_session.
    destruct (sessions σ !! trim _) as [s0|]; simpl; [|no_session].
    destruct (Session.inProgress s0); simpl; [done|].
    rewrite lookup_insert_ne; [done|congruence].
  - rewrite leave_session_fst.
    destruct (current_sessionId σ sock) as [sid0|]; simpl; [|done].
    apply departed_other. congruence.
  - unfold set_question.
    destruct (current_sessionId σ sock) as [sid0|]; simpl; [|done].
    destruct (sessions σ !! sid0) as [s0|]; simpl; [|no_session].
    destruct (negb _); simpl; [done|].
    destruct (Session.inProgress s0); simpl; [done|].
    destruct (_ || _); simpl; [done|].
    rewrite lookup_insert_ne; [done|congruence].
  - destruct (start_game_fst sock σ) as [->|(sid0&s0&Hc&_&_&_&->)]; [done|].
    simpl. rewrite lookup_insert_ne; [done|congruence].
  - destruct (guess_fst sock g σ)
      as [->|(sid0&s0&p&Hc&_&_&_&_&[->|(_&_&->)])]; [done| |].
    + simpl. rewrite lookup_insert_ne; [done|congruence].
    + rewrite endGame_other by congruence. simpl.
      rewrite !lookup_insert_ne; [done|congruence..].
  - unfold get_session_state.
    destruct (current_sessionId σ sock) as [sid0|]; simpl; [|done].
    destruct (sessions σ !! sid0); no_session.
  - unfold disconnect.
    change (current_sessionId (set_rooms _ σ) sock) with (current_sessionId σ sock).
    destruct (current_sessionId σ sock) as [sid0|]; simpl; [|done].
    rewrite leaveSessionOnDisconnect_fst, departed_other; [done|congruence].
  - unfold timer_fires. destruct (timers σ !! h) as [sid0|]; [|done].
    rewrite endGame_other; [done|congruence].
Qed.

Lemma one_session_per_event_witness :
  sessions (handle (ev_disconnect "B") two_rooms).1 !! "side"
  = sessions two_rooms !! "side".
Proof.
  apply (one_session_per_event (ev_disconnect "B") two_rooms "side").
  - vm_compute. reflexivity.
  - vm_compute. discriminate.
Defined.

(** ** Extra properties: errors *)

Lemma endGame_no_error sid reason w σ :
  existsb emits_error (endGame sid reason w σ).2 = false.
Proof. unfold endGame. destruct (sessions σ !! sid); no_session. Qed.

Lemma existsb_app' {A} (f : A → bool) l1 l2 :
  existsb f (l1 ++ l2) = existsb f l1 || existsb f l2.
Proof. induction l1 as [|x l1 IH]; simpl; [done|]. by rewrite IH, orb_assoc. Qed.

Lemma leaveSessionByUser_no_error sid sock σ :
  existsb emits_error (leaveSessionByUser sid sock σ).2 = false.
Proof.
  unfold leaveSessionByUser. destruct (sessions σ !! sid) as [s|]; [|no_session].
  step_eval.
  destruct (Session.players _) as [|[firstId first] l]; [done|].
  destruct (String.eqb _ _); step_eval; destruct (_ && _); try done;
    match goal with |- context [endGame ?a ?b ?c ?d] =>
      pose proof (endGame_no_error a b c d) as He;
      destruct (endGame a b c d) as [σe oe] end; simpl in *; by rewrite ?He.
Qed.

Lemma leaveSessionOnDisconnect_no_error sock sid σ :
  existsb emits_error (leaveSessionOnDisconnect sock sid σ).2 = false.
Proof.
  unfold leaveSessionOnDisconnect. destruct (sessions σ !! sid) as [s|]; [|no_session].
  step_eval.
  destruct (Session.players _) as [|[firstId first] l]; [done|].
  destruct (String.eqb _ _); step_eval; destruct (_ && _); try done;
    match goal with |- context [endGame ?a ?b ?c ?d] =>
      pose proof (endGame_no_error a b c d) as He;
      destruct (endGame a b c d) as [σe oe] end; simpl in *; by rewrite ?He.
Qed.

(** X3. A rejected intent has no effect: when a handler emits an error
    message, that message is the only one, it goes to the sending socket,
    and the server is unchanged. *)
Theorem rejected_is_noop e σ :
  existsb emits_error (handle e σ).2 = true →
  (handle e σ).1 = σ
  ∧ ∃ sock text, sender e = Some sock
                 ∧ (handle e σ).2 = [to_socket sock (error_message text)].
Proof.
  destruct e as [sock nm sessionId r36|sock sessionId nm|sock|sock q a|sock
                |sock g|sock|sock|h|sock]; simpl; [| | | | | | | | |done].
  - unfold create_session.
    destruct (sessions σ !! candidate_id sessionId r36); simpl; [eauto|].
    destruct (inherited _); simpl; [eauto|done].
  - unfold join_session.
    destruct (sessions σ !! trim _) as [s0|]; simpl;
      [|destruct (inherited _); simpl; [done|eauto]].
    destruct (Session.inProgress s0); simpl; [eauto|done].
  - unfold leave_session.
    destruct (current_sessionId σ sock) as [sid0|]; simpl; [|eauto].
    pose proof (leaveSessionByUser_no_error sid0 sock σ) as He.
    destruct (leaveSessionByUser sid0 sock σ) as [σ' o]. simpl in *.
    destruct (thrown o); simpl; rewrite ?existsb_app', He; done.
  - unfold set_question.
    destruct (current_sessionId σ sock) as [sid0|]; simpl; [|eauto].
    destruct (sessions σ !! sid0) as [s0|]; simpl;
      [|destruct (inherited _); simpl; [eauto|done]].
    destruct (negb _); simpl; [eauto|].
    destruct (Session.inProgress s0); simpl; [eauto|].
    destruct (_ || _); simpl; [eauto|done].
  - unfold start_game.
    destruct (current_sessionId σ sock) as [sid0|]; simpl; [|eauto].
    destruct (sessions σ !! sid0) as [s0|]; simpl;
      [|destruct (inherited _); simpl; [eauto|done]].
    destruct (negb _); simpl; [eauto|].
    destruct (Session.inProgress s0); simpl; [eauto|].
    destruct (Nat.ltb _ _); simpl; [eauto|].
    destruct (_ || _); simpl; [eauto|].
    by destruct (Map_get _ _).
  - unfold guess.
    destruct (current_sessionId σ sock) as [sid0|]; simpl; [|eauto].
    destruct (sessions σ !! sid0) as [s0|]; simpl; [|eauto].
    destruct (Session.inProgress s0); simpl; [|eauto].
    destruct (Map_get sock (Session.players s0)) as [p|]; simpl; [|eauto].
    destruct (Z.leb _ _); simpl; [eauto|].
    destruct (negb _); simpl; [eauto|].
    unfold guess_decide.
    destruct (decide _).
    + destruct (negb _); [|done].
      match goal with |- context [endGame ?a ?b ?c ?d] =>
        pose proof (endGame_no_error a b c d) as He;
        destruct (endGame a b c d) as [σe oe] end. simpl in *. by rewrite He.
    + by destruct (Z.leb _ _).
  - unfold get_session_state.
    destruct (current_sessionId σ sock) as [sid0|]; simpl; [|done].
    destruct (sessions σ !! sid0); no_session.
  - unfold disconnect.
    destruct (current_sessionId _ sock) as [sid0|]; simpl; [|done].
    by rewrite leaveSessionOnDisconnect_no_error.
  - unfold timer_fires. destruct (timers σ !! h) as [sid0|]; [|done].
    by rewrite endGame_no_error.
Qed.

Lemma rejected_is_noop_witness :
  (handle (ev_start_game "B") lobby).1 = lobby.
Proof.
  apply (rejected_is_noop (ev_start_game "B") lobby). vm_compute. reflexivity.
Defined.

(** ** Extra properties: the rotation goes round the table *)

Lemma rotate_gm_lookup ids i g :
  NoDup ids → ids !! i = Some g →
  ids !! ((i + 1) mod length ids)%nat = Some (rotate_gm ids g).
Proof.
  intros Hnd Hi.
  pose proof (lookup_lt_Some _ _ _ Hi) as Hlt.
  pose proof (take_drop_middle _ _ _ Hi) as Hsplit.
  assert (length (take i ids) = i) as Hlen by (rewrite length_take; lia).
  assert (g ∉ take i ids) as Hni.
  { rewrite <- Hsplit in Hnd. apply NoDup_app in Hnd as (_&Hd&_).
    intros Hin. apply (Hd _ Hin). apply list_elem_of_here. }
  destruct (drop (S i) ids) as [|x post] eqn:Hdrop.
  - assert (length ids = S i) as Hl.
    { rewrite <- Hsplit, length_app. simpl. lia. }
    rewrite Hl, Nat.add_1_r, Nat.Div0.mod_same.
    destruct ids as [|first rest] eqn:Hids; [done|].
    rewrite <- Hsplit at 2.
    erewrite rotate_gm_wrapping; [done|done|]. by rewrite Hsplit.
  - assert (length ids = (i + S (S (length post)))%nat) as Hl.
    { rewrite <- Hsplit, length_app. simpl. lia. }
    rewrite Nat.mod_small by lia.
    rewrite <- Hsplit at 2. rewrite rotate_gm_following by done.
    rewrite <- Hsplit. rewrite lookup_app_r by lia.
    by replace (i + 1 - length (take i ids))%nat with 1%nat by lia.
Qed.

Lemma rotate_gm_iter ids i g n :
  NoDup ids → ids !! i = Some g →
  ids !! ((i + n) mod length ids)%nat = Some (Nat.iter n (rotate_gm ids) g).
Proof.
  intros Hnd Hi. pose proof (lookup_lt_Some _ _ _ Hi) as Hlt.
  induction n as [|n IH]; simpl.
  - by rewrite Nat.add_0_r, Nat.mod_small.
  - pose proof (rotate_gm_lookup _ _ _ Hnd IH) as Hn.
    rewrite <- Hn. f_equal.
    rewrite Nat.Div0.add_mod_idemp_l. f_equal. lia.
Qed.

Lemma rotate_gm_moves ids g :
  NoDup ids → g ∈ ids → (2 ≤ length ids)%nat → rotate_gm ids g ≠ g.
Proof.
  intros Hnd [i Hi]%list_elem_of_lookup H2 Heq.
  pose proof (lookup_lt_Some _ _ _ Hi) as Hlt.
  pose proof (rotate_gm_lookup ids i g Hnd Hi) as H. rewrite Heq in H.
  pose proof (NoDup_lookup _ _ _ _ Hnd Hi H) as Hij.
  destruct (decide (S i = length ids)) as [Hl|Hl].
  - rewrite Nat.add_1_r, Hl, Nat.Div0.mod_same in Hij. lia.
  - rewrite Nat.mod_small in Hij by lia. lia.
Qed.

(** X4. Round robin: over a list of distinct players, rotating from a
    player of the list reaches every player of the list in fewer steps than
    there are players, comes back to the start after as many steps as there
    are players, and never stays put when there are two players or more. *)
Theorem gm_round_robin ids g :
  NoDup ids → g ∈ ids →
  Nat.iter (length ids) (rotate_gm ids) g = g
  ∧ (∀ g', g' ∈ ids →
       ∃ n, (n < length ids)%nat ∧ Nat.iter n (rotate_gm ids) g = g')
  ∧ ((2 ≤ length ids)%nat → rotate_gm ids g ≠ g).
Proof.
  intros Hnd [i Hi]%list_elem_of_lookup.
  pose proof (lookup_lt_Some _ _ _ Hi) as Hlt.
  split; [|split].
  - pose proof (rotate_gm_iter ids i g (length ids) Hnd Hi) as H.
    replace ((i + length ids) mod length ids)%nat with i in H.
    + congruence.
    + rewrite <- Nat.Div0.add_mod_idemp_r, Nat.Div0.mod_same, Nat.add_0_r.
      by rewrite Nat.mod_small.
  - intros g' [j Hj]%list_elem_of_lookup.
    pose proof (lookup_lt_Some _ _ _ Hj) as Hjlt.
    exists ((j + length ids - i) mod length ids)%nat.
    split; [apply Nat.mod_upper_bound; lia|].
    pose proof (rotate_gm_iter ids i g
                  ((j + length ids - i) mod length ids)%nat Hnd Hi) as H.
    rewrite Nat.Div0.add_mod_idemp_r in H.
    replace (i + (j + length ids - i))%nat with (j + length ids)%nat in H by lia.
    rewrite <- Nat.Div0.add_mod_idemp_r, Nat.Div0.mod_same, Nat.add_0_r in H.
    rewrite Nat.mod_small in H by done. congruence.
  - apply rotate_gm_moves; [done|]. apply list_elem_of_lookup. eauto.
Qed.

Lemma gm_round_robin_witness :
  Nat.iter 3 (rotate_gm ["A"; "B"; "C"]) "B" = "B".
Proof.
  apply (gm_round_robin ["A"; "B"; "C"] "B").
  - repeat (apply NoDup_cons; split; [set_solver|]). apply NoDup_nil_2.
  - set_solver.
Defined.

(** ** Extra properties: scores and winners *)

Lemma Map_get_forEach' {V} (f : V → V) k (m : list (string * V)) :
  Map_get k (Map_forEach f m) = f <$> Map_get k m.
Proof.
  unfold Map_forEach. induction m as [|[k0 w] m IH]; simpl; [done|].
  by destruct (String.eqb k k0).
Qed.

Lemma Map_get_award w k ps :
  Map_get k (award w ps)
  = (λ p, if bool_decide (k = w) then Player.set_score (λ sc, sc + 10) p else p)
    <$> Map_get k ps.
Proof.
  unfold award. destruct (Map_get w ps) as [p|] eqn:Hg.
  - destruct (decide (k = w)) as [->|Hne].
    + rewrite Map_get_set_eq, Hg. simpl. by rewrite bool_decide_true.
    + rewrite Map_get_set_ne by done. rewrite bool_decide_false by done.
      by destruct (Map_get k ps).
  - destruct (decide (k = w)) as [->|Hne].
    + by rewrite Hg.
    + rewrite bool_decide_false by done. by destruct (Map_get k ps).
Qed.

Lemma ended_players w s k :
  Map_get k (Session.players (ended w s))
  = settled w k <$> Map_get k (Session.players s).
Proof.
  unfold ended, settled. destruct w as [w|]; simpl.
  - destruct (truthy w) eqn:Hw; simpl.
    + rewrite Map_get_forEach', Map_get_award.
      destruct (Map_get k (Session.players s)) as [p|]; simpl; [|done].
      f_equal. destruct (decide (k = w)) as [->|Hne].
      * by rewrite !bool_decide_true.
      * rewrite !bool_decide_false; [done|congruence|done].
    + rewrite Map_get_forEach'. by destruct (Map_get k (Session.players s)).
  - rewrite Map_get_forEach'. by destruct (Map_get k (Session.players s)).
Qed.

(** X5. What a round end does to the players: [endGame] adds 10 to the
    score of the winner it is given, when that winner is a player, changes
    no other score, and leaves every player with no attempt. *)
Theorem endGame_settles_scores σ sid s reason w :
  sessions σ !! sid = Some s →
  ∃ s', sessions (endGame sid reason w σ).1 !! sid = Some s'
        ∧ Session.winner s' = w ∧ Session.inProgress s' = false
        ∧ ∀ k, Map_get k (Session.players s')
               = settled w k <$> Map_get k (Session.players s).
Proof.
  intros Hsid. exists (ended w s). rewrite (endGame_fst _ _ _ _ _ Hsid). simpl.
  rewrite lookup_insert_eq. destruct (ended_fields w s) as (?&_&?&_).
  repeat split; try done. apply ended_players.
Qed.

Lemma endGame_settles_scores_witness :
  ∃ s', sessions (endGame "room" "correct_guess" (Some "B") round_open).1 !! "room"
        = Some s'
        ∧ Session.winner s' = Some "B" ∧ Session.inProgress s' = false
        ∧ Player.score <$> Map_get "B" (Session.players s') = Some 10.
Proof.
  pose proof (λ s, endGame_settles_scores round_open "room" s
                        "correct_guess" (Some "B")) as H.
  edestruct H as (s'&H1&H2&H3&H4); [vm_compute; reflexivity|].
  exists s'. split; [exact H1|]. split; [exact H2|]. split; [exact H3|].
  rewrite H4. vm_compute. reflexivity.
Defined.

(** ** Extra properties: what every reachable server satisfies *)

(** X6. Keys: in every reachable state a session is stored under its own
    id, its players have distinct keys, and each player is stored under its
    own id. *)
Theorem stored_under_own_ids σ sid s :
  reachable σ → sessions σ !! sid = Some s →
  Session.id s = sid
  ∧ NoDup (Map_keys (Session.players s))
  ∧ ∀ k p, Map_get k (Session.players s) = Some p → Player.id p = k.
Proof.
  intros Hr Hsid.
  destruct (reachable_session_inv σ Hr sid s Hsid) as (Hid&Hnd&Hp&_).
  repeat split; try done. intros k p Hg.
  by destruct (Forall_Map_get _ _ _ _ Hp Hg) as ((?&_)&_).
Qed.

Lemma stored_under_own_ids_witness :
  ∃ s, sessions round_won !! "room" = Some s ∧ Session.id s = "room".
Proof.
  eexists. split; [vm_compute; reflexivity|].
  apply (stored_under_own_ids round_won "room").
  - apply reachable_run, reachable_init.
  - vm_compute. reflexivity.
Defined.

(** X7. Attempts: in every reachable state a player has between 0 and 3
    attempts left, and none while no round is in progress. *)
Theorem attempts_within_quota σ sid s k p :
  reachable σ → sessions σ !! sid = Some s →
  Map_get k (Session.players s) = Some p →
  0 ≤ Player.attemptsLeft p ≤ 3
  ∧ (Session.inProgress s = false → Player.attemptsLeft p = 0).
Proof.
  intros Hr Hsid Hg.
  destruct (reachable_session_inv σ Hr sid s Hsid) as (_&_&Hp&_).
  by destruct (Forall_Map_get _ _ _ _ Hp Hg) as (_&?&?).
Qed.

Lemma attempts_within_quota_witness :
  ∃ p, Map_get "B"
         (default [] (Session.players <$> sessions round_open !! "room"))
       = Some p
       ∧ 0 ≤ Player.attemptsLeft p ≤ 3.
Proof.
  eexists. split; [vm_compute; reflexivity|].
  eapply (attempts_within_quota round_open "room" _ "B").
  - apply reachable_run, reachable_init.
  - vm_compute. reflexivity.
  - vm_compute. reflexivity.
Defined.

(** X8. Scores: in every reachable state a score is a non-negative multiple
    of the award of 10. *)
Theorem score_is_a_multiple_of_ten σ sid s k p :
  reachable σ → sessions σ !! sid = Some s →
  Map_get k (Session.players s) = Some p →
  0 ≤ Player.score p ∧ (10 | Player.score p).
Proof.
  intros Hr Hsid Hg.
  destruct (reachable_session_inv σ Hr sid s Hsid) as (_&_&Hp&_).
  by destruct (Forall_Map_get _ _ _ _ Hp Hg) as ((_&_&?&?)&_).
Qed.

Lemma score_is_a_multiple_of_ten_witness :
  ∃ p, Map_get "B"
         (default [] (Session.players <$> sessions round_won !! "room"))
       = Some p
       ∧ 0 ≤ Player.score p ∧ (10 | Player.score p).
Proof.
  eexists. split; [vm_compute; reflexivity|].
  eapply (score_is_a_multiple_of_ten round_won "room" _ "B").
  - apply reachable_run, reachable_init.
  - vm_compute. reflexivity.
  - vm_compute. reflexivity.
Defined.

(** X9. Bounded text: in every reachable state a player name has at most 30
    characters, a question at most 500, and the original answer, as the GM
    typed it, at most 200: each is what [slice(0, n)] returned. (Nothing is
    said of the normalised answer, which is lower-cased after the cut.) *)
Theorem text_is_bounded σ sid s :
  reachable σ → sessions σ !! sid = Some s →
  (∀ k p, Map_get k (Session.players s) = Some p →
     (String.length (Player.name p) ≤ 30)%nat)
  ∧ (∀ q, Session.question s = Some q → (String.length q ≤ 500)%nat)
  ∧ (∀ a, Session.answerOriginal s = Some a → (String.length a ≤ 200)%nat).
Proof.
  intros Hr Hsid.
  destruct (reachable_session_inv σ Hr sid s Hsid) as (_&_&Hp&Hqa&_).
  split.
  { intros k p Hg. by destruct (Forall_Map_get _ _ _ _ Hp Hg) as ((_&?&_)&_). }
  destruct Hqa as [(->&_&->)|(q&ao&->&->&_&_&_&_&Hq&Ha)]; [done|].
  split; intros ? [= <-]; done.
Qed.

Lemma text_is_bounded_witness :
  ∃ a, Session.answerOriginal (room_of asked) = Some a
       ∧ (String.length a ≤ 200)%nat.
Proof.
  eexists. split; [vm_compute; reflexivity|].
  edestruct (text_is_bounded asked "room" (room_of asked)) as (_&_&H).
  - apply reachable_run, reachable_init.
  - vm_compute. reflexivity.
  - apply H. vm_compute. reflexivity.
Defined.

(** X10. Question and answers go together: in every reachable state the
    question, the original answer and the normalised answer are all absent
    or all present; when present none is empty and the normalised answer is
    [sanitizeAnswer] of the original. *)
Theorem question_and_answers_together σ sid s :
  reachable σ → sessions σ !! sid = Some s →
  (Session.question s = None ∧ Session.answer s = None
   ∧ Session.answerOriginal s = None)
  ∨ ∃ q ao, Session.question s = Some q
            ∧ Session.answerOriginal s = Some ao
            ∧ Session.answer s = Some (sanitizeAnswer (Some ao))
            ∧ truthy q = true ∧ truthy ao = true
            ∧ truthy (sanitizeAnswer (Some ao)) = true.
Proof.
  intros Hr Hsid.
  destruct (reachable_session_inv σ Hr sid s Hsid) as (_&_&_&Hqa&_).
  destruct Hqa as [?|(q&ao&?&?&?&?&?&?&_)]; [by left|right; eauto 10].
Qed.

Lemma question_and_answers_together_witness :
  ∃ ao, Session.answerOriginal (room_of round_open) = Some ao
        ∧ Session.answer (room_of round_open) = Some (sanitizeAnswer (Some ao)).
Proof.
  destruct (question_and_answers_together round_open "room" (room_of round_open))
    as [(H&_)|(q&ao&_&H1&H2&_)].
  - apply reachable_run, reachable_init.
  - vm_compute. reflexivity.
  - vm_compute in H. discriminate H.
  - exists ao. split; [exact H1|exact H2].
Defined.

(** X11. A round in progress: in every reachable state a session in
    progress has at least two players, a question, and its expiry timer
    pending, and a session not in progress has no timer. *)
Theorem round_in_progress_is_armed σ sid s :
  reachable σ → sessions σ !! sid = Some s →
  if Session.inProgress s
  then (2 ≤ length (Session.players s))%nat
       ∧ is_Some (Session.question s)
       ∧ ∃ h, Session.timer s = Some h ∧ timers σ !! h = Some sid
  else Session.timer s = None.
Proof.
  intros Hr Hsid.
  destruct (reachable_session_inv σ Hr sid s Hsid) as (_&_&_&_&Hround&Hidle).
  destruct (Session.inProgress s); [|by apply Hidle].
  destruct (Hround eq_refl) as (?&?&[h Hh]). repeat split; try done.
  exists h. split; [done|]. by apply (timed_field _ (reachable_timed _ Hr) _ s).
Qed.

Lemma round_in_progress_is_armed_witness :
  ∃ h, Session.timer (room_of round_open) = Some h
       ∧ timers round_open !! h = Some "room".
Proof.
  pose proof (round_in_progress_is_armed round_open "room" (room_of round_open)
                (reachable_run ev_round init reachable_init)) as H.
  change (Session.inProgress (room_of round_open)) with true in H.
  destruct H as (_&_&H); [vm_compute; reflexivity|exact H].
Defined.

(** ** Extra properties: how a round ends *)

Lemma ended_gm_moves sid w s :
  session_base sid s → Session.gm s ∈ Map_keys (Session.players s) →
  (2 ≤ length (Session.players s))%nat →
  Session.gm (ended w s) ≠ Session.gm s.
Proof.
  intros (_&Hnd&_) Hgm Hlen. rewrite ended_gm.
  apply rotate_gm_moves; try done. unfold Map_keys. by rewrite length_fmap.
Qed.

(** X12. Time out: when the timer of a round fires in a reachable state,
    the round ends with no winner, every score stays as it was, and the GM
    role moves to another player. *)
Theorem timeout_ends_the_round σ h sid :
  reachable σ → timers σ !! h = Some sid →
  ∃ s s', sessions σ !! sid = Some s
          ∧ sessions (handle (ev_timer h) σ).1 !! sid = Some s'
          ∧ Session.inProgress s' = false ∧ Session.winner s' = None
          ∧ Session.gm s' ≠ Session.gm s
          ∧ (∀ k, Player.score <$> Map_get k (Session.players s')
                  = Player.score <$> Map_get k (Session.players s))
          ∧ timers (handle (ev_timer h) σ).1 = delete h (timers σ).
Proof.
  intros Hr Hh. pose proof (reachable_wf _ Hr) as Hwf.
  destruct (wf_timers _ Hwf _ _ Hh) as (s&Hsid&Hip&Htm).
  pose proof (reachable_session_inv _ Hr _ _ Hsid) as Hinv.
  destruct (wf_sessions _ Hwf _ _ Hsid) as (_&Hgm&_).
  assert ((handle (ev_timer h) σ).1
          = set_sessions (<[sid := ended None s]>)
              (cancel (Some h) (set_timers (delete h) σ))) as ->.
  { simpl. unfold timer_fires. rewrite Hh.
    rewrite (endGame_fst _ _ _ _ s) by done. by rewrite Htm. }
  exists s, (ended None s).
  destruct (ended_fields None s) as (?&_&?&_).
  split; [done|]. split; [simpl; apply lookup_insert_eq|].
  split; [done|]. split; [done|]. split; [|split].
  - apply (ended_gm_moves sid); [by apply session_inv_base|done|].
    destruct Hinv as (_&_&_&_&Hround&_). by destruct (Hround Hip).
  - intros k. rewrite ended_players.
    by destruct (Map_get k (Session.players s)).
  - simpl. apply map_eq. intros h'.
    rewrite !lookup_delete. by repeat case_decide.
Qed.

Lemma timeout_ends_the_round_witness :
  ∃ s s', sessions round_open !! "room" = Some s
          ∧ sessions (handle (ev_timer 0%nat) round_open).1 !! "room" = Some s'
          ∧ Session.inProgress s' = false ∧ Session.winner s' = None
          ∧ Session.gm s' ≠ Session.gm s.
Proof.
  edestruct (timeout_ends_the_round round_open 0%nat "room")
    as (s&s'&H1&H2&H3&H4&H5&_).
  - apply reachable_run, reachable_init.
  - vm_compute. reflexivity.
  - exists s, s'. split; [exact H1|]. split; [exact H2|].
    split; [exact H3|]. split; [exact H4|exact H5].
Defined.

(** X13. A correct guess wins: in a reachable state with a round in
    progress, a guess by a player with an attempt left whose normal form is
    that of the original answer ends the round with the guesser as winner;
    the guesser's score grows by 10 (the id of a socket is not empty), the
    other scores stay, and the GM role moves to another player. *)
Theorem correct_guess_wins σ sock g sid s p ao :
  reachable σ →
  current_sessionId σ sock = Some sid →
  sessions σ !! sid = Some s →
  Session.inProgress s = true →
  Map_get sock (Session.players s) = Some p →
  0 < Player.attemptsLeft p →
  Session.answerOriginal s = Some ao →
  sanitizeAnswer g = sanitizeAnswer (Some ao) →
  truthy sock = true →
  ∃ s', sessions (guess sock g σ).1 !! sid = Some s'
        ∧ Session.inProgress s' = false ∧ Session.winner s' = Some sock
        ∧ Session.gm s' ≠ Session.gm s
        ∧ ∀ k, Player.score <$> Map_get k (Session.players s')
               = (λ q, if bool_decide (k = sock) then Player.score q + 10
                       else Player.score q)
                 <$> Map_get k (Session.players s).
Proof.
  intros Hr Hc Hsid Hip Hp Hpos Hao Hg Hsock.
  pose proof (reachable_wf _ Hr) as Hwf.
  pose proof (reachable_session_inv _ Hr _ _ Hsid) as Hinv.
  destruct (wf_sessions _ Hwf _ _ Hsid) as (_&Hgm&Hw).
  pose proof Hinv as (_&_&_&Hqa&Hround&_).
  destruct Hqa as [(_&_&?)|(qtext&ao'&_&Hao'&Hans&_&_&Htr&_)]; [congruence|].
  assert (ao' = ao) as -> by congruence.
  assert (truthy (trim (js_or g EmptyString)) = true) as Htxt.
  { rewrite <- Hg in Htr. unfold sanitizeAnswer in Htr.
    by rewrite truthy_toLowerCase in Htr. }
  set (s1 := Session.set_winner (Some sock) (took_attempt sock p s)).
  exists (ended (Some sock) s1).
  rewrite (guess_accepted σ sock g sid s p) by done. cbv zeta.
  rewrite sanitizeAnswer_trim_lower. fold (took_attempt sock p s).
  unfold guess_decide. cbn [fst]. cbn [Session.answer took_attempt Session.set_players].
  rewrite Hans, Hg. rewrite decide_True by done.
  assert (truthy_opt (Session.winner (took_attempt sock p s)) = false) as ->
    by (simpl; by rewrite (Hw Hip)).
  cbn [negb]. fold s1.
  rewrite (endGame_fst _ _ _ _ s1) by (simpl; apply lookup_insert_eq).
  simpl sessions. rewrite lookup_insert_eq.
  destruct (ended_fields (Some sock) s1) as (?&_&?&_).
  assert (Map_keys (Session.players s1) = Map_keys (Session.players s)) as Hk
    by (by eapply Map_keys_set_present).
  repeat split; try done.
  - change (Session.gm s) with (Session.gm s1).
    apply (ended_gm_moves sid).
    + split; [by destruct Hinv|]. rewrite Hk. split; [by destruct Hinv as (_&?&_)|].
      simpl. apply Forall_Map_set.
      * destruct Hinv as (_&_&Hf&_). eapply Forall_impl; [exact Hf|].
        by intros [k q] (?&_).
      * destruct Hinv as (_&_&Hf&_).
        by destruct (Forall_Map_get _ _ _ _ Hf Hp) as (?&_).
    + by rewrite Hk.
    + simpl. rewrite (length_Map_set_present _ _ _ _ Hp).
      by destruct (Hround Hip).
  - intros k. rewrite ended_players. simpl.
    destruct (decide (k = sock)) as [->|Hne].
    + rewrite Map_get_set_eq, Hp. simpl. rewrite Hsock. simpl.
      by rewrite !bool_decide_true.
    + rewrite Map_get_set_ne by done.
      destruct (Map_get k (Session.players s)); simpl; [|done].
      rewrite Hsock. simpl. rewrite !bool_decide_false; [done|done|congruence].
Qed.

Lemma correct_guess_wins_witness :
  ∃ s', sessions (guess "B" (Some "  PARIS ") round_open).1 !! "room" = Some s'
        ∧ Session.inProgress s' = false ∧ Session.winner s' = Some "B"
        ∧ Session.gm s' ≠ Session.gm (room_of round_open).
Proof.
  edestruct (correct_guess_wins round_open "B" (Some "  PARIS ") "room"
               (room_of round_open)) as (s'&H1&H2&H3&H4&_);
    [apply reachable_run, reachable_init|vm_compute; reflexivity..|].
  exists s'. split; [exact H1|]. split; [exact H2|]. split; [exact H3|exact H4].
Defined.

(** ** Extra properties: round trips *)


Lemma current_sessionId_insert σ sock sid
    (f : gmap string string → gmap string string) (τ : Server) :
  socket_sessionId τ = <[sock := sid]> (socket_sessionId σ) →
  truthy sid = true → current_sessionId τ sock = Some sid.
Proof.
  intros H Ht. unfold current_sessionId. by rewrite H, lookup_insert_eq, Ht.
Qed.

(** X14. Create then leave: a socket that creates a session under a free,
    non-empty id that is no property name of [Object.prototype], and leaves
    at once, puts the sessions store and the timers back as they were, is
    no longer recorded in any session, and gets [left_session] for that id
    as the last message. *)
Theorem create_then_leave σ sock name sessionId r36 :
  sessions σ !! candidate_id sessionId r36 = None →
  inherited (candidate_id sessionId r36) = false →
  truthy (candidate_id sessionId r36) = true →
  let σ1 := (create_session sock name sessionId r36 σ).1 in
  let σ2 := (leave_session sock σ1).1 in
  sessions σ2 = sessions σ ∧ timers σ2 = timers σ
  ∧ socket_sessionId σ2 !! sock = None
  ∧ ¬ (sock ∈ members σ2 (candidate_id sessionId r36))
  ∧ last (leave_session sock σ1).2
    = Some (to_socket sock (left_session (candidate_id sessionId r36))).
Proof.
  intros Hfree Hown Htruthy. cbv zeta.
  set (cand := candidate_id sessionId r36) in *.
  unfold create_session. fold cand. rewrite Hfree, Hown. cbn [fst].
  set (σ1 := set_socket_playerName _ _).
  assert (current_sessionId σ1 sock = Some cand) as Hc.
  { unfold current_sessionId, σ1. simpl. by rewrite lookup_insert_eq, Htruthy. }
  unfold leave_session. rewrite Hc.
  assert (sessions σ1 !! cand = Some (new_session cand sock
            (slice0 30 (trim (js_or name "Anonymous"))))) as Hs1
    by (unfold σ1; simpl; apply lookup_insert_eq).
  pose proof (leaveSessionByUser_fst cand sock σ1) as Hfst.
  assert ((leaveSessionByUser cand sock σ1).2
          = [io_to σ1 cand
               (system_message
                  (departing_name σ1
                     (new_session cand sock
                        (slice0 30 (trim (js_or name "Anonymous")))) sock
                   +:+ " left the session."))]) as Hsnd.
  { unfold leaveSessionByUser. rewrite Hs1. simpl. by rewrite String.eqb_refl. }
  destruct (leaveSessionByUser cand sock σ1) as [σ2 o]. simpl in Hfst, Hsnd.
  subst σ2 o. cbn [fst snd thrown existsb is_uncaught io_to orb].
  unfold departed. rewrite Hs1. simpl. rewrite String.eqb_refl. simpl.
  repeat split.
  - by rewrite delete_insert_eq, delete_id.
  - by rewrite lookup_delete_eq.
  - unfold members. simpl. rewrite lookup_insert_eq. simpl. set_solver.
Qed.

Lemma create_then_leave_witness :
  sessions (leave_session "C"
              (create_session "C" (Some "Cy") (Some "den") "0.zzzzzzzz"
                 lobby).1).1
  = sessions lobby.
Proof.
  apply (create_then_leave lobby "C" (Some "Cy") (Some "den") "0.zzzzzzzz");
    vm_compute; reflexivity.
Defined.




Lemma truthy_trim s : truthy (trim s) = true → truthy s = true.
Proof.
  intros H%truthy_length. apply truthy_length.
  pose proof (length_trim s). lia.
Qed.

(** X16. The announced id can be joined: the id [create_session] announces
    for a supplied id is already trimmed, so when that id is free and is no
    property name of [Object.prototype], a second socket that sends it back
    in [join_session], with or without white space around it, finds the
    session and becomes its second player; the creator stays GM. *)
Theorem announced_id_can_be_joined σ creator joiner name1 name2 supplied r36 pad :
  truthy (trim supplied) = true →
  let sid := candidate_id (Some supplied) r36 in
  sessions σ !! sid = None → inherited sid = false → joiner ≠ creator →
  trim pad = sid →
  let σ1 := (create_session creator name1 (Some supplied) r36 σ).1 in
  let σ2 := (join_session joiner (Some pad) name2 σ1).1 in
  sid = trim supplied ∧ trim sid = sid
  ∧ ∃ s, sessions σ2 !! sid = Some s
         ∧ Map_keys (Session.players s) = [creator; joiner]
         ∧ Session.gm s = creator
         ∧ socket_sessionId σ2 !! joiner = Some sid.
Proof.
  intros Ht sid Hfree Hown Hne Hpad. cbv zeta.
  assert (sid = trim supplied) as Hsid.
  { unfold sid, candidate_id. by rewrite (truthy_trim _ Ht), Ht. }
  split; [done|]. split; [rewrite Hsid; apply trim_idemp|].
  assert (truthy pad = true) as Hp
    by (apply truthy_trim; rewrite Hpad, Hsid; done).
  unfold create_session. fold sid. rewrite Hfree, Hown. cbn [fst].
  unfold join_session.
  assert (js_or (Some pad) EmptyString = pad) as -> by apply js_or_empty.
  rewrite Hpad. cbn [sessions set_socket_playerName set_socket_sessionId
                       socket_join set_rooms set_sessions].
  rewrite lookup_insert_eq. cbn [Session.inProgress fst].
  eexists. split; [simpl; apply lookup_insert_eq|]. simpl.
  destruct (String.eqb_spec joiner creator); [done|].
  by rewrite lookup_insert_eq.
Qed.

Lemma announced_id_can_be_joined_witness :
  ∃ s, sessions
         (join_session "B" (Some "den  ") (Some "Bob")
            (create_session "A" (Some "Ann") (Some " den ") "0.k3x9q2mz" init).1).1
       !! "den" = Some s
       ∧ Map_keys (Session.players s) = ["A"; "B"].
Proof.
  edestruct (announced_id_can_be_joined init "A" "B" (Some "Ann") (Some "Bob")
               " den " "0.k3x9q2mz" "den  ") as (_&_&s&H1&H2&_);
    [vm_compute; reflexivity|vm_compute; reflexivity|vm_compute; reflexivity
    |discriminate|vm_compute; reflexivity|].
  exists s. split; [exact H1|exact H2].
Defined.

(** ** Extra properties: the empty generated id *)

(** X17. An empty id: [makeSessionId] returns the empty string when
    [Math.random().toString(36)] has at most two characters (as for 0). A
    session created under the empty id cannot be left: [leave_session] is
    rejected and a disconnection removes nothing, because the empty
    [socket.sessionId] counts as absent. *)
Theorem empty_id_cannot_be_left σ sock name sessionId r36 :
  candidate_id sessionId r36 = EmptyString →
  sessions σ !! EmptyString = None →
  let σ1 := (create_session sock name sessionId r36 σ).1 in
  (String.length r36 ≤ 2)%nat
  ∧ (∃ s, sessions σ1 !! EmptyString = Some s
          ∧ Map_keys (Session.players s) = [sock])
  ∧ leave_session sock σ1
    = (σ1, [to_socket sock (error_message "You are not currently in a session.")])
  ∧ sessions (disconnect sock σ1).1 = sessions σ1
  ∧ (disconnect sock σ1).2 = [].
Proof.
  intros Hcand Hfree. cbv zeta.
  split.
  { unfold candidate_id in Hcand.
    assert (makeSessionId r36 = EmptyString) as Hm.
    { destruct sessionId as [x|]; [|done].
      destruct (truthy x && truthy (trim x)) eqn:Hx; [|done].
      apply andb_true_iff in Hx as [_ Hx]. by rewrite Hcand in Hx. }
    unfold makeSessionId in Hm.
    destruct r36 as [|a [|b [|c r]]]; simpl; try lia. done. }
  unfold create_session. rewrite Hcand, Hfree.
  change (inherited EmptyString) with false. cbn [fst].
  set (σ1 := set_socket_playerName _ _).
  assert (current_sessionId σ1 sock = None) as Hc.
  { unfold current_sessionId, σ1. simpl. by rewrite lookup_insert_eq. }
  split; [eexists; split; [simpl; apply lookup_insert_eq|done]|].
  unfold leave_session, disconnect.
  change (current_sessionId (set_rooms _ σ1) sock) with (current_sessionId σ1 sock).
  by rewrite Hc.
Qed.

Lemma empty_id_cannot_be_left_witness :
  leave_session "Z" (create_session "Z" (Some "Zed") None "0" lobby).1
  = ((create_session "Z" (Some "Zed") None "0" lobby).1,
     [to_socket "Z" (error_message "You are not currently in a session.")]).
Proof.
  apply (empty_id_cannot_be_left lobby "Z" (Some "Zed") None "0");
    vm_compute; reflexivity.
Defined.

Lemma question_of_inv σ sid s :
  reachable σ → sessions σ !! sid = Some s → is_Some (Session.question s) →
  truthy_opt (Session.question s) = true
  ∧ truthy_opt (Session.answer s) = true.
Proof.
  intros Hr Hsid [q Hq].
  destruct (reachable_session_inv σ Hr sid s Hsid) as (_&_&_&Hqa&_).
  destruct Hqa as [(?&_)|(q'&ao&->&_&->&?&_&?&_)]; [congruence|done].
Qed.

(** ** Extra properties: what is published *)

Lemma no_gm_among (ps : list (string * Player.t)) g :
  Forall (λ kp, Player.id kp.2 = kp.1) ps → g ∉ Map_keys ps →
  List.filter pv_isGM
    ((λ kp : string * Player.t,
        mkPlayerView (Player.id kp.2) (Player.name kp.2) (Player.score kp.2)
          (Player.attemptsLeft kp.2) (String.eqb (Player.id kp.2) g)) <$> ps)
  = [].
Proof.
  unfold Map_keys. induction ps as [|[k p] ps IH]; simpl; [done|].
  intros [Hid Hall]%Forall_cons [Hne Hni]%not_elem_of_cons. simpl in *.
  destruct (String.eqb_spec (Player.id p) g); [congruence|]. by apply IH.
Qed.

Lemma one_gm_among (ps : list (string * Player.t)) g :
  NoDup (Map_keys ps) →
  Forall (λ kp, Player.id kp.2 = kp.1) ps →
  g ∈ Map_keys ps →
  ∃ p, Map_get g ps = Some p
       ∧ List.filter pv_isGM
           ((λ kp : string * Player.t,
               mkPlayerView (Player.id kp.2) (Player.name kp.2)
                 (Player.score kp.2) (Player.attemptsLeft kp.2)
                 (String.eqb (Player.id kp.2) g)) <$> ps)
         = [mkPlayerView g (Player.name p) (Player.score p)
              (Player.attemptsLeft p) true].
Proof.
  unfold Map_keys. induction ps as [|[k p] ps IH]; simpl.
  - by intros _ _ ?%elem_of_nil.
  - intros [Hk Hnd]%NoDup_cons [Hid Hall]%Forall_cons Hin. simpl in Hid.
    subst k. destruct (String.eqb_spec g (Player.id p)) as [->|Hne].
    + exists p. split; [done|]. rewrite String.eqb_refl.
      f_equal. by apply no_gm_among.
    + apply elem_of_cons in Hin as [?|Hin]; [done|].
      destruct (IH Hnd Hall Hin) as (q&Hq&Hf). exists q. split; [done|].
      destruct (String.eqb_spec (Player.id p) g); [congruence|done].
Qed.

(** X18. One GM in every view: in a reachable state the published view of
    a session lists its players in join order and flags exactly one of them
    as GM, the one whose id is the [gm] of the view. *)
Theorem view_has_one_gm σ sid s :
  reachable σ → sessions σ !! sid = Some s →
  pv_id <$> sv_players (project s) = Map_keys (Session.players s)
  ∧ ∃ p, Map_get (Session.gm s) (Session.players s) = Some p
         ∧ List.filter pv_isGM (sv_players (project s))
           = [mkPlayerView (sv_gm (project s)) (Player.name p) (Player.score p)
                (Player.attemptsLeft p) true].
Proof.
  intros Hr Hsid.
  destruct (reachable_session_inv σ Hr sid s Hsid) as (_&Hnd&Hp&_).
  destruct (wf_sessions _ (reachable_wf _ Hr) _ _ Hsid) as (_&Hgm&_).
  assert (Forall (λ kp : string * Player.t, Player.id kp.2 = kp.1)
            (Session.players s)) as Hids.
  { eapply Forall_impl; [exact Hp|]. by intros [k q] ((?&_)&_). }
  split.
  - unfold project, Map_keys. simpl. rewrite <- list_fmap_compose.
    apply Forall_fmap_ext_1. eapply Forall_impl; [exact Hids|]. by intros [k q].
  - by apply one_gm_among.
Qed.

Lemma view_has_one_gm_witness :
  pv_id <$> sv_players (project (room_of round_won))
  = Map_keys (Session.players (room_of round_won)).
Proof.
  apply (view_has_one_gm round_won "room").
  - apply reachable_run, reachable_init.
  - vm_compute. reflexivity.
Defined.

(** X19. Broadcasts reach the members: in a reachable state, a socket that
    records a session is one of its players and is in its room, so it
    receives the session state whenever it is broadcast. *)
Theorem broadcast_reaches_members σ sock sid :
  reachable σ → current_sessionId σ sock = Some sid →
  ∃ s, sessions σ !! sid = Some s
       ∧ sock ∈ Map_keys (Session.players s)
       ∧ sock ∈ members σ sid
       ∧ delivered sock (broadcastSessionState σ s)
         = Some (session_state (project s)).
Proof.
  intros Hr Hc. pose proof (reachable_wf _ Hr) as Hwf.
  destruct (current_sessionId_Some _ _ _ Hc) as [Hk _].
  destruct (wf_sockets _ Hwf _ _ Hk) as (s&Hsid&Hin).
  pose proof (reachable_roomed _ Hr _ _ Hc) as Hroom.
  destruct (reachable_session_inv σ Hr sid s Hsid) as (Hid&_).
  exists s. repeat split; try done.
  unfold broadcastSessionState, io_to. simpl. rewrite Hid.
  by rewrite decide_True.
Qed.

Lemma broadcast_reaches_members_witness :
  ∃ s, sessions round_open !! "room" = Some s
       ∧ "B" ∈ Map_keys (Session.players s)
       ∧ "B" ∈ members round_open "room"
       ∧ delivered "B" (broadcastSessionState round_open s)
         = Some (session_state (project s)).
Proof.
  apply (broadcast_reaches_members round_open "B" "room").
  - apply reachable_run, reachable_init.
  - vm_compute. reflexivity.
Defined.

(** ** Extra properties: starting a round *)

(** X20. Starting a round: in a reachable state, when the GM of an idle
    session with at least two players and a question sends [start_game],
    every player gets 3 attempts, the winner is cleared, and the timer
    armed is a new one: no timer that was pending is replaced or removed. *)
Theorem start_arms_a_fresh_timer σ sock sid s :
  reachable σ →
  current_sessionId σ sock = Some sid →
  sessions σ !! sid = Some s →
  Session.gm s = sock → Session.inProgress s = false →
  (2 ≤ length (Session.players s))%nat →
  is_Some (Session.question s) →
  let σ' := (start_game sock σ).1 in
  ∃ s', sessions σ' !! sid = Some s'
        ∧ Session.inProgress s' = true ∧ Session.winner s' = None
        ∧ Session.timer s' = Some (next_timer σ)
        ∧ (∀ k, Map_get k (Session.players s')
                = Player.set_attemptsLeft (λ _, 3)
                  <$> Map_get k (Session.players s))
        ∧ timers σ !! next_timer σ = None
        ∧ timers σ' = <[next_timer σ := sid]> (timers σ).
Proof.
  intros Hr Hc Hsid Hgm Hip Hlen Hq. cbv zeta.
  destruct (question_of_inv σ sid s Hr Hsid Hq) as (Hq'&Ha').
  assert ((start_game sock σ).1
          = set_sessions (<[sid := started (next_timer σ) s]>)
              (setTimeout sid σ).2) as ->.
  { unfold start_game. rewrite Hc, Hsid, Hgm, String.eqb_refl, Hip. simpl.
    destruct (Nat.ltb_spec (length (Session.players s)) 2); [lia|].
    rewrite Hq', Ha'. simpl. by destruct (Map_get _ _). }
  exists (started (next_timer σ) s). simpl. rewrite lookup_insert_eq.
  repeat split; try done.
  - intros k. apply Map_get_forEach'.
  - destruct (timers σ !! next_timer σ) as [sid'|] eqn:Hn; [|done].
    pose proof (timed_fresh _ (reachable_timed _ Hr) _ _ Hn). lia.
Qed.

Lemma start_arms_a_fresh_timer_witness :
  ∃ s', sessions (start_game "A" asked).1 !! "room" = Some s'
        ∧ Session.inProgress s' = true ∧ Session.winner s' = None
        ∧ Session.timer s' = Some (next_timer asked)
        ∧ (∀ k, Map_get k (Session.players s')
                = Player.set_attemptsLeft (λ _, 3)
                  <$> Map_get k (Session.players (room_of asked)))
        ∧ timers asked !! next_timer asked = None
        ∧ timers (start_game "A" asked).1
          = <[next_timer asked := "room"]> (timers asked).
Proof.
  apply (start_arms_a_fresh_timer asked "A" "room" (room_of asked)).
  - apply reachable_run, reachable_init.
  - vm_compute. reflexivity.
  - vm_compute. reflexivity.
  - vm_compute. reflexivity.
  - vm_compute. reflexivity.
  - vm_compute. lia.
  - vm_compute. eauto.
Defined.

(** ** Extra properties: the helper [joinSession] *)



(** * Departures and timers on reachable servers *)

(** ** What the departing socket receives *)

Lemma received_outside x σ room m o :
  x ∉ members σ room → received x (io_to σ room m :: o) = received x o.
Proof.
  intros Hni.
  change (received x (io_to σ room m :: o))
    with (match delivered x (io_to σ room m) with
          | Some m => m :: received x o
          | None => received x o
          end).
  unfold io_to. simpl. by rewrite decide_False.
Qed.

Lemma received_inside x σ room m o :
  x ∈ members σ room → received x (io_to σ room m :: o) = m :: received x o.
Proof.
  intros Hin.
  change (received x (io_to σ room m :: o))
    with (match delivered x (io_to σ room m) with
          | Some m => m :: received x o
          | None => received x o
          end).
  unfold io_to. simpl. by rewrite decide_True.
Qed.

Lemma endGame_returns sid reason w σ s :
  sessions σ !! sid = Some s → thrown (endGame sid reason w σ).2 = false.
Proof. intros H. unfold endGame. by rewrite H. Qed.

Lemma endGame_outside x sid reason w σ :
  (∀ s, sessions σ !! sid = Some s → x ∉ members σ (Session.id s)) →
  received x (endGame sid reason w σ).2 = [].
Proof.
  intros Hni. unfold endGame.
  destruct (sessions σ !! sid) as [s|]; [|by destruct (inherited sid)].
  specialize (Hni s eq_refl). step_eval.
  destruct (truthy_opt w); destruct (Session.timer s);
    rewrite received_outside by exact Hni;
    unfold broadcastSessionState; by rewrite received_outside by exact Hni.
Qed.

Lemma leaveSessionOnDisconnect_outside sock sid σ :
  (∀ room, sock ∉ members σ room) →
  received sock (leaveSessionOnDisconnect sock sid σ).2 = [].
Proof.
  intros Hni. unfold leaveSessionOnDisconnect.
  destruct (sessions σ !! sid) as [s|]; [|by destruct (inherited sid)].
  fold (detached sock sid σ).
  assert (∀ room, sock ∉ members (detached sock sid σ) room) as Hd.
  { intros room.
    change (sock ∉ members (socket_leave sock sid σ) room).
    rewrite members_socket_leave. case_decide; [|done].
    rewrite elem_of_difference. intros [? _]. by eapply Hni. }
  step_eval.
  destruct (Session.players (Session.set_players (Map_delete sock) s))
    as [|[firstId first] l]; [by rewrite received_outside by apply Hd|].
  destruct (String.eqb sock _); step_eval;
    (destruct (Session.inProgress _ && _); [match goal with
       | |- context [endGame ?a ?b ?c ?d] =>
           pose proof (endGame_outside sock a b c d) as He;
           pose proof (endGame_returns a b c d) as Hr;
           destruct (endGame a b c d) as [σe oe]; simpl in He, Hr
       end|]);
    cbn [app]; unfold broadcastSessionState;
    rewrite !received_outside by apply Hd; try done;
    apply He; intros; apply Hd.
Qed.

Lemma leaveSessionByUser_leaver sid sock σ s :
  sessions σ !! sid = Some s → Session.id s = sid → sock ∈ members σ sid →
  received sock (leaveSessionByUser sid sock σ).2
  = [system_message (departing_name σ s sock +:+ " left the session.")]
  ∧ thrown (leaveSessionByUser sid sock σ).2 = false.
Proof.
  intros Hsid Hid Hin. unfold leaveSessionByUser. rewrite Hsid.
  fold (detached sock sid σ).
  assert (sock ∉ members (detached sock sid σ) sid) as Hd.
  { change (sock ∉ members (socket_leave sock sid σ) sid).
    rewrite members_socket_leave, decide_True by done.
    rewrite elem_of_difference, elem_of_singleton. tauto. }
  step_eval.
  destruct (Session.players (Session.set_players (Map_delete sock) s))
    as [|[firstId first] l]; [by rewrite received_inside|].
  destruct (String.eqb sock _); step_eval;
    (destruct (Session.inProgress _ && _); [match goal with
       | |- context [endGame ?a ?b ?c ?d] =>
           pose proof (endGame_outside sock a b c d) as He;
           pose proof (endGame_returns a b c d) as Hr;
           destruct (endGame a b c d) as [σe oe]; simpl in He, Hr
       end|]);
    cbn [app]; unfold broadcastSessionState; cbn [Session.id Session.set_gm
      Session.set_players]; rewrite ?Hid;
    rewrite received_inside by done;
    rewrite ?(received_outside sock (detached sock sid σ)) by done.
  - split.
    + rewrite He; [done|]. simpl. rewrite lookup_insert_eq.
      intros ? [= <-]. simpl. by rewrite Hid.
    + simpl. eapply Hr. simpl. apply lookup_insert_eq.
  - split; [|done]. by rewrite received_outside.
  - split.
    + rewrite He; [done|]. simpl. rewrite lookup_insert_eq.
      intros ? [= <-]. simpl. by rewrite Hid.
    + simpl. eapply Hr. simpl. apply lookup_insert_eq.
  - split; [|done]. by rewrite received_outside.
Qed.

(** C5, as the code has it. An explicit leave and a disconnection of [sock]
    leave the same sessions, socket properties and timers, and every other
    socket [x] is in the same rooms afterwards and has received the same
    messages in the same order. The departing socket itself receives
    nothing on a disconnection, whatever the state. On an explicit leave
    it receives, when it has no session recorded, the error message and
    nothing changes; and when it has one, in a reachable state, the line
    that it left (emitted before it is removed) followed by [left_session],
    and nothing else. *)
Theorem leave_disconnect_agree σ sock :
  (∀ x, x ≠ sock →
     agree x (leave_session sock σ).1 (disconnect sock σ).1
     ∧ received x (leave_session sock σ).2
       = received x (disconnect sock σ).2)
  ∧ received sock (disconnect sock σ).2 = []
  ∧ (current_sessionId σ sock = None →
     leave_session sock σ
     = (σ, [to_socket sock
              (error_message "You are not currently in a session.")]))
  ∧ (reachable σ → ∀ sid, current_sessionId σ sock = Some sid →
     ∃ s, sessions σ !! sid = Some s
          ∧ received sock (leave_session sock σ).2
            = [system_message
                 (departing_name σ s sock +:+ " left the session.");
               left_session sid]).
Proof.
  split; [intros x; apply leave_disconnect_others|]. split; [|split].
  - unfold disconnect. set (σc := set_rooms _ σ).
    assert (∀ room, sock ∉ members σc room) as Hni.
    { intros room. unfold members, σc. simpl. rewrite lookup_fmap.
      destruct (rooms σ !! room) as [S|]; simpl; set_solver. }
    destruct (current_sessionId σc sock) as [sid|]; [|done].
    by apply leaveSessionOnDisconnect_outside.
  - intros Hc. unfold leave_session. by rewrite Hc.
  - intros Hr sid Hc.
    destruct (current_sessionId_Some _ _ _ Hc) as [Hk _].
    destruct (wf_sockets _ (reachable_wf _ Hr) _ _ Hk) as (s&Hsid&_).
    destruct (reachable_session_inv σ Hr sid s Hsid) as (Hid&_).
    pose proof (reachable_roomed _ Hr _ _ Hc) as Hin.
    destruct (leaveSessionByUser_leaver sid sock σ s Hsid Hid Hin) as [Ho Ht].
    exists s. split; [done|]. unfold leave_session. rewrite Hc.
    destruct (leaveSessionByUser sid sock σ) as [σ' o]. simpl in Ho, Ht.
    rewrite Ht. simpl. rewrite received_app, Ho. simpl.
    by rewrite decide_True.
Qed.

Lemma leave_disconnect_agree_witness :
  received "A" (leave_session "B" lobby).2
  = received "A" (disconnect "B" lobby).2
  ∧ received "B" (disconnect "B" lobby).2 = []
  ∧ ∃ s, sessions lobby !! "room" = Some s
         ∧ received "B" (leave_session "B" lobby).2
           = [system_message
                (departing_name lobby s "B" +:+ " left the session.");
              left_session "room"].
Proof.
  destruct (leave_disconnect_agree lobby "B") as (H1&H2&_&H4).
  split; [apply H1; discriminate|]. split; [exact H2|].
  apply H4; [apply reachable_run, reachable_init|vm_compute; reflexivity].
Defined.

(** ** Every end of a round takes its timer out *)

Lemma endGame_round_over sid reason w σ s h :
  sessions σ !! sid = Some s → Session.timer s = Some h →
  round_over sid h σ (endGame sid reason w σ).1.
Proof.
  intros Hsid Ht. rewrite (endGame_fst _ _ _ _ _ Hsid), Ht. split; [done|].
  simpl. rewrite lookup_insert_eq. intros s' [= <-].
  by destruct (ended_fields w s) as (?&?&_).
Qed.

Lemma round_over_from sid h σ0 σ σ' :
  timers σ = timers σ0 → round_over sid h σ σ' → round_over sid h σ0 σ'.
Proof. intros Heq [Ht Hs]. split; [by rewrite Ht, Heq|done]. Qed.

Lemma timer_round_over sid h σ s :
  sessions σ !! sid = Some s → Session.timer s = Some h →
  timers σ !! h = Some sid →
  round_over sid h σ (timer_fires h σ).1.
Proof.
  intros Hsid Ht Hh. unfold timer_fires. rewrite Hh.
  destruct (endGame_round_over sid "time_expired" None
              (set_timers (delete h) σ) s h Hsid Ht) as [H1 H2].
  split; [|done]. rewrite H1. simpl. apply delete_delete_eq.
Qed.

Lemma winning_guess_round_over σ sock g sid s p h :
  current_sessionId σ sock = Some sid →
  sessions σ !! sid = Some s →
  Session.inProgress s = true → Session.winner s = None →
  Session.timer s = Some h →
  Map_get sock (Session.players s) = Some p →
  0 < Player.attemptsLeft p →
  truthy (trim (js_or g EmptyString)) = true →
  Session.answer s = Some (sanitizeAnswer g) →
  round_over sid h σ (guess sock g σ).1.
Proof.
  intros Hc Hsid Hip Hw Ht Hp Hpos Htxt Hans.
  set (s1 := Session.set_winner (Some sock) (took_attempt sock p s)).
  rewrite (guess_accepted σ sock g sid s p) by done. cbv zeta.
  rewrite sanitizeAnswer_trim_lower. fold (took_attempt sock p s).
  unfold guess_decide. cbn [fst]. cbn [Session.answer took_attempt Session.set_players].
  rewrite Hans. rewrite decide_True by done.
  assert (truthy_opt (Session.winner (took_attempt sock p s)) = false) as ->
    by (simpl; by rewrite Hw).
  cbn [negb]. fold s1.
  eapply round_over_from; [|apply (endGame_round_over _ _ _ _ s1)]; try done.
  simpl. apply lookup_insert_eq.
Qed.

Lemma length_Map_delete {V} k (m : list (string * V)) :
  NoDup (Map_keys m) → k ∈ Map_keys m →
  S (length (Map_delete k m)) = length m.
Proof.
  unfold Map_keys. induction m as [|[k' v] m IH]; simpl.
  - by intros _ ?%elem_of_nil.
  - intros [Hk Hnd]%NoDup_cons Hin.
    destruct (String.eqb_spec k k') as [->|Hne].
    + f_equal. clear IH Hin Hnd. induction m as [|[k2 v2] m IH]; [done|].
      simpl in *. apply not_elem_of_cons in Hk as [Hne Hk].
      destruct (String.eqb_spec k' k2); [done|]. simpl. f_equal. by apply IH.
    + apply elem_of_cons in Hin as [?|Hin]; [done|]. simpl. f_equal. by apply IH.
Qed.

Lemma forced_end_round_over sid sock σ s h :
  sessions σ !! sid = Some s → Session.timer s = Some h →
  Session.inProgress s = true →
  NoDup (Map_keys (Session.players s)) →
  sock ∈ Map_keys (Session.players s) →
  length (Session.players s) = 2%nat →
  round_over sid h σ (departed sid sock σ).
Proof.
  intros Hsid Ht Hip Hnd Hin Hlen. unfold departed. rewrite Hsid. cbv zeta.
  pose proof (length_Map_delete sock _ Hnd Hin) as Hl. rewrite Hlen in Hl.
  cbn [Session.players Session.set_players].
  destruct (Map_delete sock (Session.players s)) as [|[firstId first] [|? ?]];
    simpl in Hl; try lia.
  rewrite Hip. cbn [length Nat.ltb Nat.leb andb].
  eapply round_over_from; [|eapply endGame_round_over].
  - done.
  - simpl. apply lookup_insert_eq.
  - by destruct (String.eqb sock (Session.gm s)).
Qed.

Lemma deletion_round_over sid sock σ s h :
  sessions σ !! sid = Some s → Session.timer s = Some h →
  Map_keys (Session.players s) = [sock] →
  round_over sid h σ (departed sid sock σ)
  ∧ sessions (departed sid sock σ) !! sid = None.
Proof.
  intros Hsid Ht Hk. unfold departed. rewrite Hsid. cbv zeta.
  cbn [Session.players Session.set_players].
  destruct (Session.players s) as [|[k p] [|? ?]]; try done.
  injection Hk as ->. simpl. rewrite String.eqb_refl, Ht. simpl.
  rewrite lookup_delete_eq. split; [|done]. split; [done|].
  simpl. by rewrite lookup_delete_eq.
Qed.

(** ** A timer taken out does not come back *)

Lemma endGame_timers sid reason w σ h x :
  timers (endGame sid reason w σ).1 !! h = Some x → timers σ !! h = Some x.
Proof.
  destruct (sessions σ !! sid) as [s|] eqn:Hsid.
  - rewrite (endGame_fst _ _ _ _ _ Hsid). simpl.
    by intros [? _]%timers_cancel_Some.
  - by rewrite endGame_None.
Qed.

Lemma endGame_next_timer sid reason w σ :
  next_timer (endGame sid reason w σ).1 = next_timer σ.
Proof.
  destruct (sessions σ !! sid) as [s|] eqn:Hsid.
  - rewrite (endGame_fst _ _ _ _ _ Hsid). simpl. apply next_timer_cancel.
  - by rewrite endGame_None.
Qed.

Lemma departed_timers sid sock σ h x :
  timers (departed sid sock σ) !! h = Some x → timers σ !! h = Some x.
Proof.
  unfold departed. destruct (sessions σ !! sid) as [s|]; [|done]. cbv zeta.
  destruct (Session.players _) as [|[firstId first] l].
  - simpl. by intros [? _]%timers_cancel_Some.
  - destruct (_ && _); [|done]. by intros ?%endGame_timers.
Qed.

Lemma departed_next_timer sid sock σ :
  next_timer (departed sid sock σ) = next_timer σ.
Proof.
  unfold departed. destruct (sessions σ !! sid) as [s|]; [|done]. cbv zeta.
  destruct (Session.players _) as [|[firstId first] l].
  - simpl. by rewrite next_timer_cancel.
  - destruct (_ && _); [|done]. by rewrite endGame_next_timer.
Qed.

Lemma handle_timers e σ h x :
  timers (handle e σ).1 !! h = Some x →
  (timers σ !! h = Some x ∨ h = next_timer σ)
  ∧ (next_timer σ ≤ next_timer (handle e σ).1)%nat.
Proof.
  destruct e as [sock nm sessionId r36|sock sessionId nm|sock|sock q a|sock
                |sock g|sock|sock|h0|sock]; simpl.
  - unfold create_session.
    destruct (sessions σ !! candidate_id sessionId r36); simpl; [by auto|].
    destruct (inherited _); simpl; by auto.
  - unfold join_session.
    destruct (sessions σ !! trim _) as [s0|]; simpl;
      [|destruct (inherited _); simpl; by auto].
    destruct (Session.inProgress s0); simpl; by auto.
  - rewrite leave_session_fst.
    destruct (current_sessionId σ sock) as [sid0|]; [|by auto].
    rewrite departed_next_timer. intros ?%departed_timers. by auto.
  - unfold set_question.
    destruct (current_sessionId σ sock) as [sid0|]; simpl; [|by auto].
    destruct (sessions σ !! sid0) as [s0|]; simpl;
      [|destruct (inherited _); simpl; by auto].
    destruct (negb _); simpl; [by auto|].
    destruct (Session.inProgress s0); simpl; [by auto|].
    destruct (_ || _); simpl; by auto.
  - destruct (start_game_started sock σ)
      as [->|(sid0&s0&_&_&_&_&_&->)]; [by auto|].
    simpl. rewrite lookup_insert. case_decide; [subst|]; intros; split; auto with lia.
  - destruct (guess_fst sock g σ)
      as [->|(sid0&s0&p&_&_&_&_&_&[->|(_&_&->)])]; [by auto|simpl; by auto|].
    rewrite endGame_next_timer. intros ?%endGame_timers. by auto.
  - unfold get_session_state.
    destruct (current_sessionId σ sock) as [sid0|]; simpl; [|by auto].
    destruct (sessions σ !! sid0); [|destruct (inherited _)]; simpl; by auto.
  - unfold disconnect.
    destruct (current_sessionId _ sock) as [sid0|]; simpl; [|by auto].
    rewrite leaveSessionOnDisconnect_fst, departed_next_timer.
    intros ?%departed_timers. by auto.
  - unfold timer_fires. destruct (timers σ !! h0) as [sid0|]; [|by auto].
    rewrite endGame_next_timer. intros ?%endGame_timers. simpl in *.
    split; [left|done]. by eapply lookup_delete_Some.
  - by auto.
Qed.

Lemma handle_next_timer e σ :
  (next_timer σ ≤ next_timer (handle e σ).1)%nat.
Proof.
  destruct e as [sock nm sessionId r36|sock sessionId nm|sock|sock q a|sock
                |sock g|sock|sock|h0|sock]; simpl; [| | | | | | | | |done].
  - unfold create_session.
    destruct (sessions σ !! candidate_id sessionId r36); simpl; [done|].
    by destruct (inherited _).
  - unfold join_session.
    destruct (sessions σ !! trim _) as [s0|]; simpl;
      [|by destruct (inherited _)].
    by destruct (Session.inProgress s0).
  - rewrite leave_session_fst.
    destruct (current_sessionId σ sock) as [sid0|]; [|done].
    by rewrite departed_next_timer.
  - unfold set_question.
    destruct (current_sessionId σ sock) as [sid0|]; simpl; [|done].
    destruct (sessions σ !! sid0) as [s0|]; simpl;
      [|by destruct (inherited _)].
    destruct (negb _); simpl; [done|].
    destruct (Session.inProgress s0); simpl; [done|].
    by destruct (_ || _).
  - destruct (start_game_started sock σ)
      as [->|(sid0&s0&_&_&_&_&_&->)]; [done|]. simpl. lia.
  - destruct (guess_fst sock g σ)
      as [->|(sid0&s0&p&_&_&_&_&_&[->|(_&_&->)])]; [done|done|].
    by rewrite endGame_next_timer.
  - unfold get_session_state.
    destruct (current_sessionId σ sock) as [sid0|]; simpl; [|done].
    destruct (sessions σ !! sid0); [|destruct (inherited _)]; done.
  - unfold disconnect.
    destruct (current_sessionId _ sock) as [sid0|]; simpl; [|done].
    by rewrite leaveSessionOnDisconnect_fst, departed_next_timer.
  - unfold timer_fires. destruct (timers σ !! h0) as [sid0|]; [|done].
    by rewrite endGame_next_timer.
Qed.

Lemma handle_stays_out e σ h :
  (h < next_timer σ)%nat → timers σ !! h = None →
  (h < next_timer (handle e σ).1)%nat ∧ timers (handle e σ).1 !! h = None.
Proof.
  intros Hlt Hnone. pose proof (handle_next_timer e σ). split; [lia|].
  destruct (timers (handle e σ).1 !! h) as [x|] eqn:Hx; [|done].
  destruct (handle_timers _ _ _ _ Hx) as [[?|?] _]; [congruence|lia].
Qed.

Lemma run_stays_out es σ h :
  (h < next_timer σ)%nat → timers σ !! h = None →
  timers (run es σ).1 !! h = None.
Proof.
  revert σ. induction es as [|e es IH]; intros σ Hlt Hnone; [done|]. simpl.
  destruct (handle_stays_out e σ h Hlt Hnone) as [Hlt1 Hnone1].
  destruct (handle e σ) as [σ1 o1]. simpl in *.
  destruct (thrown o1); [done|].
  specialize (IH σ1 Hlt1 Hnone1). by destruct (run es σ1).
Qed.

(** C7. No stale timer. First, in every reachable state each pending
    timer targets a live session that is in progress and whose [timer]
    field is that very timer, so that none is pending for a session that is
    idle or deleted. Second, every way a round ends in a reachable state
    takes its timer out of the pending ones and leaves the session idle
    with no timer, with every other timer untouched: the timer firing, a
    correct guess, and a leave or a disconnection of one of the last two
    players. Third, in any state, [endGame] called for whatever reason
    clears the timer of the session, and both leave functions clear it when
    they delete the session of its last player. Fourth, a timer that an
    event has taken out is never pending again, whatever follows. *)
Theorem no_stale_timer :
  (∀ σ, reachable σ →
     (∀ h sid, timers σ !! h = Some sid →
        ∃ s, sessions σ !! sid = Some s ∧ Session.inProgress s = true
             ∧ Session.timer s = Some h)
     ∧ (∀ sid,
          match sessions σ !! sid with
          | Some s => Session.inProgress s = false
          | None => True
          end →
          ∀ h, timers σ !! h ≠ Some sid))
  ∧ (∀ σ sid s h,
       reachable σ → sessions σ !! sid = Some s → Session.timer s = Some h →
       round_over sid h σ (handle (ev_timer h) σ).1
       ∧ (∀ sock g p ao,
            current_sessionId σ sock = Some sid →
            Map_get sock (Session.players s) = Some p →
            0 < Player.attemptsLeft p →
            Session.answerOriginal s = Some ao →
            sanitizeAnswer g = sanitizeAnswer (Some ao) →
            round_over sid h σ (handle (ev_guess sock g) σ).1)
       ∧ (∀ sock,
            current_sessionId σ sock = Some sid →
            length (Session.players s) = 2%nat →
            round_over sid h σ (handle (ev_leave_session sock) σ).1
            ∧ round_over sid h σ (handle (ev_disconnect sock) σ).1))
  ∧ (∀ σ sid s h,
       sessions σ !! sid = Some s → Session.timer s = Some h →
       (∀ reason w, round_over sid h σ (endGame sid reason w σ).1)
       ∧ (∀ sock, Map_keys (Session.players s) = [sock] →
            (round_over sid h σ (leaveSessionByUser sid sock σ).1
             ∧ sessions (leaveSessionByUser sid sock σ).1 !! sid = None)
            ∧ (round_over sid h σ (leaveSessionOnDisconnect sock sid σ).1
               ∧ sessions (leaveSessionOnDisconnect sock sid σ).1 !! sid
                 = None)))
  ∧ (∀ σ h sid e es,
       reachable σ → timers σ !! h = Some sid →
       timers (handle e σ).1 !! h = None →
       timers (run es (handle e σ).1).1 !! h = None).
Proof.
  split; [|split; [|split]].
  - intros σ Hr. pose proof (wf_timers _ (reachable_wf _ Hr)) as Ht.
    split; [done|]. intros sid Hidle h Hh.
    destruct (Ht _ _ Hh) as (s&Hs&Hi&_). rewrite Hs in Hidle. congruence.
  - intros σ sid s h Hr Hsid Ht.
    pose proof (reachable_wf _ Hr) as Hwf.
    pose proof (reachable_session_inv _ Hr _ _ Hsid) as (_&Hnd&_&Hqa&_&Hidle).
    pose proof (timed_field _ (reachable_timed _ Hr) _ _ _ Hsid Ht) as Hh.
    assert (Session.inProgress s = true) as Hip.
    { destruct (Session.inProgress s) eqn:Hip; [done|].
      specialize (Hidle eq_refl). congruence. }
    destruct (wf_sessions _ Hwf _ _ Hsid) as (_&_&Hw). specialize (Hw Hip).
    split; [by apply (timer_round_over sid h σ s)|]. split.
    + intros sock g p ao Hc Hp Hpos Hao Hg.
      destruct Hqa as [(_&_&?)|(qtext&ao'&_&Hao'&Hans&_&_&Htr&_)]; [congruence|].
      assert (ao' = ao) as -> by congruence.
      apply (winning_guess_round_over σ sock g sid s p h); try done.
      * rewrite <- Hg in Htr. unfold sanitizeAnswer in Htr.
        by rewrite truthy_toLowerCase in Htr.
      * by rewrite Hg.
    + intros sock Hc Hlen.
      destruct (current_sessionId_Some _ _ _ Hc) as [Hk _].
      destruct (wf_sockets _ Hwf _ _ Hk) as (s0&Hs0&Hin).
      assert (s0 = s) as -> by congruence.
      split; simpl.
      * rewrite leave_session_fst, Hc. by apply (forced_end_round_over _ _ _ s).
      * unfold disconnect.
        change (current_sessionId (set_rooms _ σ) sock)
          with (current_sessionId σ sock).
        rewrite Hc, leaveSessionOnDisconnect_fst.
        eapply round_over_from;
          [|by apply (forced_end_round_over sid sock (set_rooms _ σ) s)].
        done.
  - intros σ sid s h Hsid Ht. split.
    + intros reason w. by apply (endGame_round_over _ _ _ _ s).
    + intros sock Hk.
      rewrite leaveSessionByUser_fst, leaveSessionOnDisconnect_fst.
      split; by apply (deletion_round_over _ _ _ s).
  - intros σ h sid e es Hr Hh Hnone.
    apply run_stays_out; [|done].
    pose proof (timed_fresh _ (reachable_timed _ Hr) _ _ Hh).
    pose proof (handle_next_timer e σ). lia.
Qed.

Lemma no_stale_timer_witness :
  (∃ s, sessions round_open !! "room" = Some s
        ∧ Session.inProgress s = true ∧ Session.timer s = Some 0%nat)
  ∧ round_over "room" 0 round_open
      (handle (ev_guess "B" (Some " paris ")) round_open).1
  ∧ round_over "room" 0 round_open (handle (ev_disconnect "B") round_open).1
  ∧ round_over "room" 0 round_open
      (endGame "room" "time_expired" None round_open).1
  ∧ sessions (leaveSessionByUser "room" "B" last_player).1 !! "room" = None
  ∧ round_over "room" 0 last_player
      (leaveSessionOnDisconnect "B" "room" last_player).1
  ∧ timers (run [ev_set_question "B" (Some "2 + 2") (Some "4");
                 ev_start_game "B"]
              (handle (ev_guess "B" (Some " paris ")) round_open).1).1
    !! 0%nat = None.
Proof.
  destruct no_stale_timer as (H1&H2&H3&H4).
  assert (reachable round_open) as Hr by apply reachable_run, reachable_init.
  split; [|split; [|split; [|split; [|split; [|split]]]]].
  - apply (proj1 (H1 round_open Hr) 0%nat "room"). vm_compute. reflexivity.
  - destruct (H2 round_open "room" (room_of round_open) 0%nat Hr)
      as (_&Hg&_); [vm_compute; reflexivity..|].
    apply (Hg "B" (Some " paris ") (Player.mk "B" "Bob" 0 3) "Paris");
      vm_compute; reflexivity.
  - destruct (H2 round_open "room" (room_of round_open) 0%nat Hr)
      as (_&_&Hl); [vm_compute; reflexivity..|].
    apply (Hl "B"); vm_compute; reflexivity.
  - destruct (H3 round_open "room" (room_of round_open) 0%nat)
      as (He&_); [vm_compute; reflexivity..|].
    exact (He "time_expired" None).
  - destruct (H3 last_player "room" (room_of last_player) 0%nat)
      as (_&Hd); [vm_compute; reflexivity..|].
    destruct (Hd "B") as ((_&Hgone)&_); [vm_compute; reflexivity|].
    exact Hgone.
  - destruct (H3 last_player "room" (room_of last_player) 0%nat)
      as (_&Hd); [vm_compute; reflexivity..|].
    destruct (Hd "B") as (_&(Hover&_)); [vm_compute; reflexivity|].
    exact Hover.
  - apply (H4 round_open 0%nat "room"); [done|vm_compute; reflexivity..].
Defined.

(** ** Extra properties: creating sessions *)

(** X22. One candidate, one test: [create_session] looks up a single id,
    the supplied one (trimmed) or else the one generated, and never a
    second. It sends the duplicate-id error exactly when [sessions] has a
    session under that id or the id is a property name of
    [Object.prototype], and then the server is unchanged; otherwise the
    session is stored under that id with the creator as its only player
    and GM, and the id is recorded on the socket. *)
Theorem create_checks_one_candidate σ sock name sessionId r36 :
  let candidate := candidate_id sessionId r36 in
  let result := create_session sock name sessionId r36 σ in
  let taken := is_Some (sessions σ !! candidate) ∨ inherited candidate = true in
  (to_socket sock (error_message duplicate_id) ∈ result.2 ↔ taken)
  ∧ (taken → result = (σ, [to_socket sock (error_message duplicate_id)]))
  ∧ (¬ taken →
     sessions result.1
     = <[candidate :=
           Session.mk candidate
             [(sock, Player.mk sock (slice0 30 (trim (js_or name "Anonymous"))) 0 0)]
             sock None None None false None None]> (sessions σ)
     ∧ socket_sessionId result.1 !! sock = Some candidate).
Proof.
  intros candidate result taken. subst result taken. unfold create_session.
  fold candidate. destruct (sessions σ !! candidate) as [s|] eqn:Hc.
  - split; [|split]; [|done|intros []; eauto].
    split; [by eauto|]. intros _. apply list_elem_of_here.
  - destruct (inherited candidate) eqn:Hown.
    + split; [|split]; [|done|intros []; eauto].
      split; [by eauto|]. intros _. apply list_elem_of_here.
    + split; [|split].
      * split; [|by intros [[? ?]|?]]. simpl.
        rewrite !elem_of_cons. unfold io_to, broadcastSessionState, io_to.
        intros [H|[H|[H|H]]]; try discriminate. by apply elem_of_nil in H.
      * by intros [[? ?]|?].
      * intros _. split; [done|]. simpl. apply lookup_insert_eq.
Qed.

Lemma create_checks_one_candidate_witness :
  create_session "C" (Some "Cy") (Some " room ") "0.zzzzzzzz" lobby
  = (lobby, [to_socket "C" (error_message duplicate_id)])
  ∧ socket_sessionId
      (create_session "C" (Some "Cy") (Some " den ") "0.zzzzzzzz" lobby).1
    !! "C" = Some "den".
Proof.
  split.
  - apply (create_checks_one_candidate lobby "C" (Some "Cy") (Some " room ")).
    left. vm_compute. eauto.
  - apply (create_checks_one_candidate lobby "C" (Some "Cy") (Some " den ")).
    intros [[? H]|H]; vm_compute in H; discriminate.
Defined.

(** ** Extra properties: uncaught exceptions *)

Lemma leaveSessionByUser_returns sid sock σ s :
  sessions σ !! sid = Some s → thrown (leaveSessionByUser sid sock σ).2 = false.
Proof.
  intros Hsid. unfold leaveSessionByUser. rewrite Hsid. step_eval.
  destruct (Session.players _) as [|[firstId first] l]; [done|].
  destruct (String.eqb _ _); step_eval; destruct (_ && _); try done;
    match goal with
    | |- context [endGame ?a ?b ?c ?d] =>
        pose proof (endGame_returns a b c d) as Hr;
        destruct (endGame a b c d) as [σe oe]; simpl in Hr
    end; simpl; eapply Hr; simpl; apply lookup_insert_eq.
Qed.

Lemma leaveSessionOnDisconnect_returns sock sid σ s :
  sessions σ !! sid = Some s →
  thrown (leaveSessionOnDisconnect sock sid σ).2 = false.
Proof.
  intros Hsid. unfold leaveSessionOnDisconnect. rewrite Hsid. step_eval.
  destruct (Session.players _) as [|[firstId first] l]; [done|].
  destruct (String.eqb _ _); step_eval; destruct (_ && _); try done;
    match goal with
    | |- context [endGame ?a ?b ?c ?d] =>
        pose proof (endGame_returns a b c d) as Hr;
        destruct (endGame a b c d) as [σe oe]; simpl in Hr
    end; simpl; eapply Hr; simpl; apply lookup_insert_eq.
Qed.

Lemma reachable_own_ids σ :
  reachable σ → ∀ sid s, sessions σ !! sid = Some s → inherited sid = false.
Proof.
  induction 1 as [|σ e Hr IH]; intros sid s';
    [simpl; by rewrite lookup_empty|].
  intros Hl.
  destruct (handle_session_cases e σ sid s' (reachable_wf _ Hr) Hl)
    as [H0|[(_&?&_)|(s&Hs&_)]]; eauto.
Qed.

(** X23. What makes a handler throw: in a reachable state the handler of
    an event ends in an uncaught exception exactly when the event is an
    intent that needs a payload and has none, or a [join_session] whose id,
    once trimmed, is a property name of [Object.prototype]. The exception
    comes before anything is written or sent. Every other event is handled
    to completion: no [leave_session], [start_game], [get_session_state],
    guess, disconnection or timer reads a missing session or player. *)
Theorem throws_only_on_malformed_input e σ :
  reachable σ →
  (thrown (handle e σ).2 = true
   ↔ (∃ sock, e = ev_no_payload sock)
     ∨ (∃ sock sessionId name,
          e = ev_join_session sock sessionId name
          ∧ inherited (trim (js_or sessionId EmptyString)) = true))
  ∧ (thrown (handle e σ).2 = true → handle e σ = (σ, [TypeError])).
Proof.
  intros Hr. pose proof (reachable_wf _ Hr) as Hwf.
  destruct e as [sock nm sessionId r36|sock sessionId nm|sock|sock q a|sock
                |sock g|sock|sock|h|sock]; simpl.
  - (* create_session *)
    assert (thrown (create_session sock nm sessionId r36 σ).2 = false) as ->.
    { unfold create_session.
      destruct (sessions σ !! candidate_id sessionId r36); [done|].
      by destruct (inherited _). }
    split; [|done]. split; [done|]. by intros [(?&?)|(?&?&?&?&_)].
  - (* join_session *)
    unfold join_session. set (sid0 := trim _).
    destruct (sessions σ !! sid0) as [s0|] eqn:H0.
    + assert (inherited sid0 = false) as Hown by (by eapply reachable_own_ids).
      assert (thrown (if Session.inProgress s0 then _ else _).2 = false) as ->
        by (by destruct (Session.inProgress s0)).
      split; [|done]. split; [done|].
      intros [(?&?)|(?&?&?&[= <- <- <-]&Hi)]; [done|].
      fold sid0 in Hi. congruence.
    + destruct (inherited sid0) eqn:Hown; simpl.
      * split; [|done]. split; [|done]. intros _. right. by eexists _, _, _.
      * split; [|done]. split; [done|].
        intros [(?&?)|(?&?&?&[= <- <- <-]&Hi)]; [done|].
        fold sid0 in Hi. congruence.
  - (* leave_session *)
    assert (thrown (leave_session sock σ).2 = false) as ->.
    { unfold leave_session.
      destruct (current_sessionId σ sock) as [sid0|] eqn:Hc; [|done].
      destruct (current_sessionId_Some _ _ _ Hc) as [Hk _].
      destruct (wf_sockets _ Hwf _ _ Hk) as (s&Hsid&_).
      pose proof (leaveSessionByUser_returns sid0 sock σ s Hsid) as Ht.
      destruct (leaveSessionByUser sid0 sock σ) as [σ' o]. simpl in Ht.
      rewrite Ht. simpl. unfold thrown in *. rewrite existsb_app', Ht. done. }
    split; [|done]. split; [done|]. by intros [(?&?)|(?&?&?&?&_)].
  - (* set_question *)
    assert (thrown (set_question sock q a σ).2 = false) as ->.
    { unfold set_question.
      destruct (current_sessionId σ sock) as [sid0|]; [|done].
      destruct (sessions σ !! sid0) as [s0|]; [|by destruct (inherited _)].
      destruct (negb _); [done|]. destruct (Session.inProgress s0); [done|].
      by destruct (_ || _). }
    split; [|done]. split; [done|]. by intros [(?&?)|(?&?&?&?&_)].
  - (* start_game *)
    assert (thrown (start_game sock σ).2 = false) as ->.
    { unfold start_game.
      destruct (current_sessionId σ sock) as [sid0|]; [|done].
      destruct (sessions σ !! sid0) as [s0|] eqn:H0; [|by destruct (inherited _)].
      destruct (negb _); [done|]. destruct (Session.inProgress s0); [done|].
      destruct (Nat.ltb _ _); [done|]. destruct (_ || _); [done|].
      destruct (wf_sessions _ Hwf _ _ H0) as (_&Hgm&_).
      simpl. rewrite Map_get_forEach'.
      destruct (Map_get (Session.gm s0) (Session.players s0)) eqn:Hg; [done|].
      by apply Map_get_None_keys in Hg. }
    split; [|done]. split; [done|]. by intros [(?&?)|(?&?&?&?&_)].
  - (* guess *)
    assert (thrown (guess sock g σ).2 = false) as ->.
    { unfold guess.
      destruct (current_sessionId σ sock) as [sid0|]; [|done].
      destruct (sessions σ !! sid0) as [s0|]; [|done].
      destruct (negb _); [done|].
      destruct (Map_get sock (Session.players s0)) as [p|]; [|done].
      destruct (Z.leb _ _); [done|]. destruct (negb _); [done|].
      unfold guess_decide. destruct (decide _).
      - destruct (negb _); [|done].
        match goal with
        | |- context [endGame ?a ?b ?c ?d] =>
            pose proof (endGame_returns a b c d) as Ht;
            destruct (endGame a b c d) as [σe oe]; simpl in Ht
        end. simpl. eapply Ht. simpl. apply lookup_insert_eq.
      - by destruct (Z.leb _ _). }
    split; [|done]. split; [done|]. by intros [(?&?)|(?&?&?&?&_)].
  - (* get_session_state *)
    assert (thrown (get_session_state sock σ).2 = false) as ->.
    { unfold get_session_state.
      destruct (current_sessionId σ sock) as [sid0|] eqn:Hc; [|done].
      destruct (current_sessionId_Some _ _ _ Hc) as [Hk _].
      destruct (wf_sockets _ Hwf _ _ Hk) as (s&Hsid&_). by rewrite Hsid. }
    split; [|done]. split; [done|]. by intros [(?&?)|(?&?&?&?&_)].
  - (* disconnect *)
    assert (thrown (disconnect sock σ).2 = false) as ->.
    { unfold disconnect.
      change (current_sessionId (set_rooms _ σ) sock)
        with (current_sessionId σ sock).
      destruct (current_sessionId σ sock) as [sid0|] eqn:Hc; [|done].
      destruct (current_sessionId_Some _ _ _ Hc) as [Hk _].
      destruct (wf_sockets _ Hwf _ _ Hk) as (s&Hsid&_).
      by apply (leaveSessionOnDisconnect_returns _ _ _ s). }
    split; [|done]. split; [done|]. by intros [(?&?)|(?&?&?&?&_)].
  - (* the timer *)
    assert (thrown (timer_fires h σ).2 = false) as ->.
    { unfold timer_fires. destruct (timers σ !! h) as [sid0|] eqn:Hh; [|done].
      destruct (wf_timers _ Hwf _ _ Hh) as (s&Hsid&_).
      by apply (endGame_returns _ _ _ _ s). }
    split; [|done]. split; [done|]. by intros [(?&?)|(?&?&?&?&_)].
  - (* no payload *)
    split; [|done]. split; [|done]. intros _. left. by eexists.
Qed.

Lemma throws_only_on_malformed_input_witness :
  handle (ev_join_session "C" (Some " constructor ") (Some "Cy")) round_open
  = (round_open, [TypeError]).
Proof.
  apply (throws_only_on_malformed_input
           (ev_join_session "C" (Some " constructor ") (Some "Cy")) round_open).
  - apply reachable_run, reachable_init.
  - vm_compute. reflexivity.
Defined.
